(** * AUTO: the session orchestration core, embedded in Rocq

    A shallow embedding of the Go packages [agent] (status, registry, event
    fan-in), [opencode] (the file-watch and the CLI/poll providers),
    [store] (the SQLite projection) and [session] (the manager), followed by
    the properties of the design document that were checked against them.

    Conventions.
    - A [time.Time] is the number of nanoseconds since the Unix epoch, a
      [time.Duration] a number of nanoseconds, both in [Z].
    - A Go [string] is a [string] of bytes; [len] is [String.length].
    - A Go [error] is [option string]: [None] is [nil].
    - A pointer to an agent is a location [loc]; the objects live in a heap
      that the operations thread through.
    - A Go [map] is a [gmap]; the order in which [range] visits one is not
      specified by the language, so every loop over a map takes the order from
      a [MapIter], which may be any enumeration of the entries. *)

From Stdlib Require Import ZArith Ascii String List.
From stdpp Require Import gmap strings list fin_maps sorting.

Local Open Scope Z_scope.

(** ** Shared vocabulary *)

Definition Time := Z.
Definition Duration := Z.
Definition error := string.
Definition loc := nat.

Definition Millisecond : Duration := 1000000.
Definition Second : Duration := 1000 * Millisecond.
Definition Minute : Duration := 60 * Second.
Definition Hour : Duration := 60 * Minute.

(** [time.UnixMilli]. *)
Definition UnixMilli (ms : Z) : Time := ms * Millisecond.

(** The zero [time.Time], January 1 of year 1, 00:00 UTC. *)
Definition zeroTime : Time := -62135596800 * Second.

(** What a call can end in: a value, a returned error, or a run-time panic. *)
Inductive outcome (T : Type) : Type :=
  | Ok (v : T)
  | Err (e : error)
  | Panic (msg : string).
Arguments Ok {T} v.
Arguments Err {T} e.
Arguments Panic {T} msg.

(** The order of one [range] loop over a map with string keys. *)
Record MapIter : Type := {
  range : forall V : Type, gmap string V -> list (string * V);
  range_perm : forall (V : Type) (m : gmap string V), range V m ≡ₚ map_to_list m
}.
Arguments range _ {V} _.

(** One admissible order: the one stdpp enumerates the map in. *)
Definition canonical_iter : MapIter :=
  {| range := fun V m => map_to_list m;
     range_perm := fun V m => reflexivity (map_to_list m) |}.

(** Another one: the same enumeration, backwards. *)
Definition reversed_iter : MapIter :=
  {| range := fun V m => reverse (map_to_list m);
     range_perm := fun V m => reverse_Permutation (map_to_list m) |}.

(** A heap of objects of type [T]: [new] allocates at the next free
    location, which is never reused. *)
Record Heap (T : Type) : Type := { objs : gmap loc T; next : loc }.
Arguments objs {T} _.
Arguments next {T} _.

Definition empty_heap {T : Type} : Heap T := {| objs := ∅; next := 0%nat |}.

Definition alloc {T : Type} (x : T) (h : Heap T) : loc * Heap T :=
  (next h, {| objs := <[next h := x]> (objs h); next := S (next h) |}).

(** [strings.HasSuffix]. *)
Definition HasSuffix (s suffix : string) : bool :=
  (String.length suffix <=? String.length s)%nat &&
  String.eqb
    (substring (String.length s - String.length suffix) (String.length suffix) s)
    suffix.

(** [filepath.Join] of two elements (the cleaning of the result is left out). *)
Definition Join (dir name : string) : string := dir +:+ "/" +:+ name.


(** ** Package agent (internal/agent/agent.go) *)

Module agent.

Inductive Status : Set :=
  | StatusPending
  | StatusRunning
  | StatusIdle
  | StatusCompleted
  | StatusErrored
  | StatusContextLimit
  | StatusCancelled.

#[export] Instance Status_eq_dec : EqDecision Status.
Proof. solve_decision. Defined.

Definition Status_String (s : Status) : string :=
  match s with
  | StatusPending => "pending"
  | StatusRunning => "running"
  | StatusIdle => "idle"
  | StatusCompleted => "completed"
  | StatusErrored => "errored"
  | StatusContextLimit => "context_limit"
  | StatusCancelled => "cancelled"
  end.

Record SpawnConfig : Type := {
  cfg_Type : string;
  cfg_Name : string;
  cfg_Directory : string;
  cfg_Prompt : string
}.

(** The [Agent] interface, over a world [W] that holds the agent objects:
    an agent is a pointer, its methods read or update the world. *)
Class Agent (W : Type) : Type := {
  ID : loc -> W -> string;
  Name : loc -> W -> string;
  Directory : loc -> W -> string;
  CurrentTask : loc -> W -> string;
  Status_of : loc -> W -> Status;
  SendInput : loc -> string -> W -> W * option error;
  Terminate : loc -> W -> W * option error
}.

(** The [Provider] interface: the methods the manager calls. *)
Record Provider (W : Type) : Type := {
  Provider_Type : string;
  Discover : W -> W * (error + list loc);
  Spawn : SpawnConfig -> W -> W * (error + loc)
}.
Arguments Provider_Type {W} _.
Arguments Discover {W} _ _.
Arguments Spawn {W} _ _ _.

Section Registry.
Context {W : Type}.

Record Registry : Type := { providers : gmap string (Provider W) }.

Definition NewRegistry : Registry := {| providers := ∅ |}.

Definition Register (p : Provider W) (r : Registry) : Registry :=
  {| providers := <[Provider_Type p := p]> (providers r) |}.

Definition Get (r : Registry) (providerType : string) : option (Provider W) :=
  providers r !! providerType.

(** [for _, p := range r.providers { providers = append(providers, p) }] *)
Definition List (it : MapIter) (r : Registry) : list (Provider W) :=
  fold_left (fun acc kv => acc ++ [kv.2]) (range it (providers r)) [].

(** [DiscoverAll]: a provider whose [Discover] fails is skipped; the
    returned error is always [nil]. *)
Definition DiscoverAll (it : MapIter) (r : Registry) (w : W) : W * list loc :=
  fold_left
    (fun (acc : W * list loc) (kv : string * Provider W) =>
       match Discover kv.2 acc.1 with
       | (w', inl _) => (w', acc.2)
       | (w', inr agents) => (w', acc.2 ++ agents)
       end)
    (range it (providers r)) (w, []).
End Registry.
Arguments Registry : clear implicits.

Inductive EventType : Set :=
  | EventAgentDiscovered
  | EventAgentUpdated
  | EventAgentStarted
  | EventAgentCompleted
  | EventAgentErrored
  | EventAgentContextLimit
  | EventAgentTerminated
  | EventAgentPaused
  | EventAgentResumed
  | EventAgentInput
  | EventAgentOutput.

Record Event : Type := {
  ev_Type : EventType;
  ev_AgentID : string;
  ev_Agent : option loc;
  ev_Timestamp : Time
}.

(** *** The mock agent of the package's tests (mock.go) *)

Record MockAgent : Type := {
  MockID : string;
  MockName : string;
  MockType : string;
  MockStatus : Status;
  MockDirectory : string;
  MockProjectID : string;
  MockCurrentTask : string;
  TerminateCalled : bool;
  SendInputCalled : bool;
  LastInput : string
}.

Definition NewMockAgent (id name : string) : MockAgent :=
  {| MockID := id; MockName := name; MockType := "mock";
     MockStatus := StatusRunning; MockDirectory := "/test/dir";
     MockProjectID := "test-project"; MockCurrentTask := "test task";
     TerminateCalled := false; SendInputCalled := false; LastInput := "" |}.

Definition MockAgent_SendInput (input : string) (m : MockAgent) : MockAgent :=
  {| MockID := MockID m; MockName := MockName m; MockType := MockType m;
     MockStatus := MockStatus m; MockDirectory := MockDirectory m;
     MockProjectID := MockProjectID m; MockCurrentTask := MockCurrentTask m;
     TerminateCalled := TerminateCalled m; SendInputCalled := true;
     LastInput := input |}.

Definition MockAgent_Terminate (m : MockAgent) : MockAgent :=
  {| MockID := MockID m; MockName := MockName m; MockType := MockType m;
     MockStatus := StatusCancelled; MockDirectory := MockDirectory m;
     MockProjectID := MockProjectID m; MockCurrentTask := MockCurrentTask m;
     TerminateCalled := true; SendInputCalled := SendInputCalled m;
     LastInput := LastInput m |}.

(** A world of mock agents. A getter through a pointer that holds no object
    has no counterpart in Go (the call would panic); it reads as the zero
    value here. *)
Definition mock_get {T : Type} (f : MockAgent -> T) (d : T) (l : loc)
    (w : gmap loc MockAgent) : T :=
  match w !! l with Some m => f m | None => d end.

#[export] Instance MockWorld_Agent : Agent (gmap loc MockAgent) := {|
  ID := mock_get MockID "";
  Name := mock_get MockName "";
  Directory := mock_get MockDirectory "";
  CurrentTask := mock_get MockCurrentTask "";
  Status_of := mock_get MockStatus StatusPending;
  SendInput := fun l input w => (alter (MockAgent_SendInput input) l w, None);
  Terminate := fun l w => (alter MockAgent_Terminate l w, None)
|}.

(** *** Event fan-in: [Registry.WatchAll]

    [WatchAll] makes the channel [merged] (capacity 100), asks every provider
    for its channel and starts, for each channel it got, one goroutine

      [for event := range ch { select { case merged <- event: case <-ctx.Done(): return } }]

    and returns [merged]. The goroutines, the providers, the consumer and the
    owner of the context run interleaved, which is a transition system over
    the channels and the program points of the goroutines. *)

Record chan (T : Type) : Type := {
  queue : list T;
  capacity : nat;
  closed : bool
}.
Arguments queue {T} _.
Arguments capacity {T} _.
Arguments closed {T} _.

Definition make_chan (T : Type) (n : nat) : chan T :=
  {| queue := []; capacity := n; closed := false |}.

Definition chan_push {T : Type} (x : T) (c : chan T) : chan T :=
  {| queue := queue c ++ [x]; capacity := capacity c; closed := closed c |}.

Definition chan_pop {T : Type} (c : chan T) : chan T :=
  {| queue := tail (queue c); capacity := capacity c; closed := closed c |}.

Definition chan_close {T : Type} (c : chan T) : chan T :=
  {| queue := queue c; capacity := capacity c; closed := true |}.

(** Where a forwarding goroutine stands. *)
Inductive forwarder : Type :=
  | AtRange
  | AtSelect (held : Event)
  | Returned.

Record WatchState : Type := {
  ctx_done : bool;
  upstream : list (chan Event);
  forwarders : list forwarder;
  merged : chan Event
}.

(** The state [WatchAll] returns in, given the channels of the providers
    whose [Watch] succeeded. *)
Definition WatchAll (chs : list (chan Event)) : WatchState :=
  {| ctx_done := false;
     upstream := chs;
     forwarders := map (fun _ => AtRange) chs;
     merged := make_chan Event 100 |}.

Definition set_upstream (i : nat) (c : chan Event) (s : WatchState) : WatchState :=
  {| ctx_done := ctx_done s; upstream := <[i := c]> (upstream s);
     forwarders := forwarders s; merged := merged s |}.

Definition set_forwarder (i : nat) (f : forwarder) (s : WatchState) : WatchState :=
  {| ctx_done := ctx_done s; upstream := upstream s;
     forwarders := <[i := f]> (forwarders s); merged := merged s |}.

Definition set_merged (c : chan Event) (s : WatchState) : WatchState :=
  {| ctx_done := ctx_done s; upstream := upstream s;
     forwarders := forwarders s; merged := c |}.

Definition cancel (s : WatchState) : WatchState :=
  {| ctx_done := true; upstream := upstream s;
     forwarders := forwarders s; merged := merged s |}.

Inductive step : WatchState -> WatchState -> Prop :=
  (* the owner of the context cancels it *)
  | step_cancel s :
      step s (cancel s)
  (* a provider sends on its channel *)
  | step_emit s i c e :
      upstream s !! i = Some c -> closed c = false ->
      (length (queue c) < capacity c)%nat ->
      step s (set_upstream i (chan_push e c) s)
  (* a provider's watch goroutine returns: [defer close(events)] *)
  | step_upstream_close s i c :
      upstream s !! i = Some c -> closed c = false ->
      step s (set_upstream i (chan_close c) s)
  (* [for event := range ch]: an event is received *)
  | step_receive s i c e q :
      forwarders s !! i = Some AtRange ->
      upstream s !! i = Some c -> queue c = e :: q ->
      step s (set_forwarder i (AtSelect e) (set_upstream i (chan_pop c) s))
  (* [for event := range ch]: the channel is closed and drained *)
  | step_range_end s i c :
      forwarders s !! i = Some AtRange ->
      upstream s !! i = Some c -> queue c = [] -> closed c = true ->
      step s (set_forwarder i Returned s)
  (* [case merged <- event] *)
  | step_forward s i e :
      forwarders s !! i = Some (AtSelect e) ->
      (length (queue (merged s)) < capacity (merged s))%nat ->
      step s (set_forwarder i AtRange (set_merged (chan_push e (merged s)) s))
  (* [case <-ctx.Done(): return] *)
  | step_abandon s i e :
      forwarders s !! i = Some (AtSelect e) -> ctx_done s = true ->
      step s (set_forwarder i Returned s)
  (* the consumer receives from [merged] *)
  | step_consume s e q :
      queue (merged s) = e :: q ->
      step s (set_merged (chan_pop (merged s)) s).

Definition steps : WatchState -> WatchState -> Prop := rtc step.

(** All upstream channels are closed and empty, all goroutines returned. *)
Definition drained (s : WatchState) : Prop :=
  Forall (fun c => closed c = true /\ queue c = []) (upstream s) /\
  Forall (fun f => f = Returned) (forwarders s).

(** *** The rest of the [Agent] interface *)

(** [Metrics], without the float and the durations. *)
Record Metrics : Type := {
  TokensIn : Z;
  TokensOut : Z;
  ToolCalls : Z;
  ErrorCount : Z
}.

(** The getters of [Agent] beside those of the class [Agent] above. *)
Class AgentInfo (W : Type) : Type := {
  Type_of : loc -> W -> string;
  ProjectID : loc -> W -> string;
  ParentID : loc -> W -> string;
  StartTime : loc -> W -> Time;
  LastActivity : loc -> W -> Time;
  Metrics_of : loc -> W -> Metrics
}.

(** The value of the [iota] constant of a status. *)
Definition Status_to_nat (s : Status) : nat :=
  match s with
  | StatusPending => 0
  | StatusRunning => 1
  | StatusIdle => 2
  | StatusCompleted => 3
  | StatusErrored => 4
  | StatusContextLimit => 5
  | StatusCancelled => 6
  end.

Definition Status_of_nat (n : nat) : option Status :=
  match n with
  | 0 => Some StatusPending
  | 1 => Some StatusRunning
  | 2 => Some StatusIdle
  | 3 => Some StatusCompleted
  | 4 => Some StatusErrored
  | 5 => Some StatusContextLimit
  | 6 => Some StatusCancelled
  | _ => None
  end%nat.

#[export] Instance Status_countable : Countable Status.
Proof.
  apply (inj_countable Status_to_nat Status_of_nat). by intros [].
Defined.

End agent.

(** ** Package opencode, the file-watch provider
       (internal/agent/providers/opencode/opencode.go) *)

Module opencode.
Import agent.

Record SessionData : Type := {
  sd_ID : string;
  sd_ProjectID : string;
  sd_Directory : string;
  sd_ParentID : string;
  sd_Title : string;
  sd_Created : Z;
  sd_Updated : Z
}.

Record MessageData : Type := {
  md_ID : string;
  md_SessionID : string;
  md_Role : string;
  md_Created : Z;
  md_Title : string
}.

Record PartData : Type := {
  pd_ID : string;
  pd_MessageID : string;
  pd_SessionID : string;
  pd_Type : string;
  pd_Created : Z;
  pd_Text : string;
  pd_State : string
}.

(** The storage tree as the provider reads it. [ReadDir] lists a directory;
    the three readers stand for [os.ReadFile] followed by [json.Unmarshal]
    into the respective struct, and fail when either does. *)
Record DirEntry : Type := { de_Name : string; de_IsDir : bool }.

Inductive ReadDir_result : Type :=
  | DirEntries (entries : list DirEntry)
  | DirNotExist
  | DirError (e : error).

Record Disk : Type := {
  ReadDir : string -> ReadDir_result;
  read_session : string -> error + SessionData;
  read_message : string -> option MessageData;
  read_part : string -> option PartData
}.

(** The agent object. The output buffer, the current task, the metrics and
    the last error are left out: status derivation neither reads nor writes
    them. *)
Record OpenCodeAgent : Type := {
  id : string;
  name : string;
  directory : string;
  projectID : string;
  parentID : string;
  storagePath : string;
  sessionFile : string;
  status : Status;
  startTime : Time;
  lastActivity : Time;
  messages : list MessageData;
  loaded : bool
}.

Definition set_status (s : Status) (a : OpenCodeAgent) : OpenCodeAgent :=
  {| id := id a; name := name a; directory := directory a;
     projectID := projectID a; parentID := parentID a;
     storagePath := storagePath a; sessionFile := sessionFile a;
     status := s; startTime := startTime a; lastActivity := lastActivity a;
     messages := messages a; loaded := loaded a |}.

Definition set_lastActivity (t : Time) (a : OpenCodeAgent) : OpenCodeAgent :=
  {| id := id a; name := name a; directory := directory a;
     projectID := projectID a; parentID := parentID a;
     storagePath := storagePath a; sessionFile := sessionFile a;
     status := status a; startTime := startTime a; lastActivity := t;
     messages := messages a; loaded := loaded a |}.

Definition set_name (n : string) (a : OpenCodeAgent) : OpenCodeAgent :=
  {| id := id a; name := n; directory := directory a;
     projectID := projectID a; parentID := parentID a;
     storagePath := storagePath a; sessionFile := sessionFile a;
     status := status a; startTime := startTime a;
     lastActivity := lastActivity a;
     messages := messages a; loaded := loaded a |}.

Definition set_messages (ms : list MessageData) (a : OpenCodeAgent) : OpenCodeAgent :=
  {| id := id a; name := name a; directory := directory a;
     projectID := projectID a; parentID := parentID a;
     storagePath := storagePath a; sessionFile := sessionFile a;
     status := status a; startTime := startTime a;
     lastActivity := lastActivity a;
     messages := ms; loaded := loaded a |}.

Definition set_loaded (b : bool) (a : OpenCodeAgent) : OpenCodeAgent :=
  {| id := id a; name := name a; directory := directory a;
     projectID := projectID a; parentID := parentID a;
     storagePath := storagePath a; sessionFile := sessionFile a;
     status := status a; startTime := startTime a;
     lastActivity := lastActivity a;
     messages := messages a; loaded := b |}.

(** The time window shared by both derivations. *)
Definition window (d : Duration) : Status :=
  if d <? 60 * Second then StatusRunning
  else if d <? 30 * Minute then StatusIdle
  else StatusCompleted.

(** [determineStatusFast]: [now] is the reading of [time.Now]. *)
Definition determineStatusFast (now : Time) (a : OpenCodeAgent) : OpenCodeAgent :=
  set_status (window (now - lastActivity a)) a.

Definition NewOpenCodeAgent (disk : Disk) (now : Time)
    (storagePath sessionFilePath : string) : error + OpenCodeAgent :=
  match read_session disk sessionFilePath with
  | inl e => inl e
  | inr session =>
      inr (determineStatusFast now
             {| id := sd_ID session; name := sd_Title session;
                directory := sd_Directory session;
                projectID := sd_ProjectID session;
                parentID := sd_ParentID session;
                storagePath := storagePath; sessionFile := sessionFilePath;
                status := StatusIdle;
                startTime := UnixMilli (sd_Created session);
                lastActivity := UnixMilli (sd_Updated session);
                messages := []; loaded := false |})
  end.

(** The [*.json] files of a directory listing, decoded by [read]; entries
    that are directories, carry another suffix or fail to decode are
    skipped, as in the three loops that share this shape. *)
Fixpoint read_entries {T : Type} (read : string -> option T) (dir : string)
    (entries : list DirEntry) : list T :=
  match entries with
  | [] => []
  | entry :: rest =>
      if de_IsDir entry || negb (HasSuffix (de_Name entry) ".json")
      then read_entries read dir rest
      else match read (Join dir (de_Name entry)) with
           | None => read_entries read dir rest
           | Some x => x :: read_entries read dir rest
           end
  end.

(** [sort.Slice] by creation time, as an insertion sort. The library sort
    is not stable; among messages created in the same millisecond this
    fixes one of the orders it may produce. *)
Fixpoint insert_by_created (m : MessageData) (l : list MessageData) : list MessageData :=
  match l with
  | [] => [m]
  | x :: rest =>
      if md_Created m <? md_Created x then m :: x :: rest
      else x :: insert_by_created m rest
  end.

Definition sort_by_created (l : list MessageData) : list MessageData :=
  fold_left (fun acc m => insert_by_created m acc) l [].

Definition loadMessages (disk : Disk) (a : OpenCodeAgent) : OpenCodeAgent * option error :=
  let messagesPath := Join (Join (storagePath a) "message") (id a) in
  match ReadDir disk messagesPath with
  | DirNotExist => (a, None)
  | DirError e => (a, Some e)
  | DirEntries entries =>
      (set_messages
         (sort_by_created (read_entries (read_message disk) messagesPath entries)) a,
       None)
  end.

(** The parts of one message that [determineStatus] gets to see, in the
    order it reads them; a directory that cannot be listed has none. *)
Definition parts_of (disk : Disk) (storagePath : string) (msg : MessageData) : list PartData :=
  let partsPath := Join (Join storagePath "part") (md_ID msg) in
  match ReadDir disk partsPath with
  | DirEntries entries => read_entries (read_part disk) partsPath entries
  | _ => []
  end.

(** [part.State == "running"] and [part.State == "error"]. *)
Definition is_running (part : PartData) : bool := String.eqb (pd_State part) "running".
Definition is_error (part : PartData) : bool := String.eqb (pd_State part) "error".

(** The inner loop of [determineStatus]: the first part that makes it
    return, with the status and the last-activity time it sets. *)
Fixpoint scan_parts (now : Time) (timeSinceLastActivity : Duration)
    (parts : list PartData) : option (Status * Time) :=
  match parts with
  | [] => None
  | part :: rest =>
      if is_running part
      then Some (StatusRunning, now)
      else if is_error part && (timeSinceLastActivity <? 5 * Minute)
      then Some (StatusErrored, UnixMilli (pd_Created part))
      else scan_parts now timeSinceLastActivity rest
  end.

(** The outer loop, over the messages. *)
Fixpoint scan_messages (disk : Disk) (storagePath : string) (now : Time)
    (timeSinceLastActivity : Duration) (msgs : list MessageData)
    : option (Status * Time) :=
  match msgs with
  | [] => None
  | msg :: rest =>
      match scan_parts now timeSinceLastActivity (parts_of disk storagePath msg) with
      | Some r => Some r
      | None => scan_messages disk storagePath now timeSinceLastActivity rest
      end
  end.

(** [determineStatus]. The function reads the clock twice, in
    [time.Since(lastMsgTime)] and in [time.Now()] at a running part; the two
    readings are taken to be the same instant [now]. *)
Definition determineStatus (disk : Disk) (now : Time) (a : OpenCodeAgent) : OpenCodeAgent :=
  match last (messages a) with
  | None => set_status StatusPending a
  | Some lastMsg =>
      let lastMsgTime := UnixMilli (md_Created lastMsg) in
      let timeSinceLastActivity := now - lastMsgTime in
      match scan_messages disk (storagePath a) now timeSinceLastActivity (messages a) with
      | Some (s, t) => set_lastActivity t (set_status s a)
      | None =>
          set_lastActivity lastMsgTime (set_status (window timeSinceLastActivity) a)
      end
  end.

(** All parts in the order the two loops visit them. *)
Definition all_parts (disk : Disk) (a : OpenCodeAgent) : list PartData :=
  flat_map (parts_of disk (storagePath a)) (messages a).

(** A part at which the scan stops. *)
Definition deciding (timeSinceLastActivity : Duration) (part : PartData) : bool :=
  is_running part || (is_error part && (timeSinceLastActivity <? 5 * Minute)).

(** What the scan returns at the part it stops at. *)
Definition verdict (now : Time) (part : PartData) : Status * Time :=
  if is_running part then (StatusRunning, now)
  else (StatusErrored, UnixMilli (pd_Created part)).

(** The reference policy in the words of the design document, its rules
    taken in the order they are listed: with [d] the time since the last
    activity, any running part gives running; else an error part with
    [d] under five minutes gives errored; else no messages gives pending;
    else the time window. *)
Definition reference_policy (d : Duration) (msgs : list MessageData)
    (parts : list PartData) : Status :=
  if existsb is_running parts then StatusRunning
  else if existsb is_error parts && (d <? 5 * Minute) then StatusErrored
  else match msgs with
       | [] => StatusPending
       | _ => window d
       end.

(** [LoadFullHistory]; the error of [loadMessages] is dropped there. *)
Definition LoadFullHistory (disk : Disk) (now : Time) (a : OpenCodeAgent) : OpenCodeAgent :=
  if loaded a then a
  else set_loaded true (determineStatus disk now (loadMessages disk a).1).

Definition Refresh (disk : Disk) (now : Time) (a : OpenCodeAgent) : OpenCodeAgent * option error :=
  match read_session disk (sessionFile a) with
  | inl e => (a, Some e)
  | inr session =>
      let a1 := set_lastActivity (UnixMilli (sd_Updated session))
                  (set_name (sd_Title session) a) in
      match loadMessages disk a1 with
      | (a2, Some e) => (a2, Some e)
      | (a2, None) => (determineStatus disk now a2, None)
      end
  end.

Definition Terminate (a : OpenCodeAgent) : OpenCodeAgent * option error :=
  (set_status StatusCancelled a, None).

(** [SendInput] runs [opencode run -s id input] in the agent's directory;
    [run] is what that command ends in. The agent itself is not written. *)
Definition SendInput (run : string -> string -> string -> option error)
    (input : string) (a : OpenCodeAgent) : OpenCodeAgent * option error :=
  if String.eqb input "" then (a, Some "empty input")
  else (a, run (id a) (directory a) input).

Definition Pause (a : OpenCodeAgent) : OpenCodeAgent * option error :=
  (a, Some "pause not supported for opencode sessions").

Definition Resume (a : OpenCodeAgent) : OpenCodeAgent * option error :=
  (a, Some "resume not supported for opencode sessions").

(** The calls that may be made on an agent object, each with the state of
    the disk and the clock it runs against. [Output] loads the history when
    it has not been loaded. *)
Inductive call : Type :=
  | CallRefresh (disk : Disk) (now : Time)
  | CallLoadFullHistory (disk : Disk) (now : Time)
  | CallOutput (disk : Disk) (now : Time)
  | CallSendInput (run : string -> string -> string -> option error) (input : string)
  | CallTerminate
  | CallPause
  | CallResume.

Definition exec (c : call) (a : OpenCodeAgent) : OpenCodeAgent :=
  match c with
  | CallRefresh disk now => (Refresh disk now a).1
  | CallLoadFullHistory disk now => LoadFullHistory disk now a
  | CallOutput disk now => LoadFullHistory disk now a
  | CallSendInput run input => (SendInput run input a).1
  | CallTerminate => (Terminate a).1
  | CallPause => (Pause a).1
  | CallResume => (Resume a).1
  end.

Definition run_calls (cs : list call) (a : OpenCodeAgent) : OpenCodeAgent :=
  fold_left (fun a c => exec c a) cs a.

(** Whether a call, made in state [a], gets as far as [determineStatus]. *)
Definition rederives (c : call) (a : OpenCodeAgent) : bool :=
  match c with
  | CallRefresh disk now =>
      match read_session disk (sessionFile a) with
      | inl _ => false
      | inr session =>
          match ReadDir disk (Join (Join (storagePath a) "message") (id a)) with
          | DirError _ => false
          | _ => true
          end
      end
  | CallLoadFullHistory _ _ | CallOutput _ _ => negb (loaded a)
  | _ => false
  end.

(** No call of the sequence re-derives the status. *)
Fixpoint quiet (cs : list call) (a : OpenCodeAgent) : bool :=
  match cs with
  | [] => true
  | c :: rest => negb (rederives c a) && quiet rest (exec c a)
  end.

(** *** The provider *)

Record Provider : Type := {
  p_storagePath : string;
  p_watchInterval : Duration;
  p_maxAge : Duration;
  p_agents : gmap string loc
}.

Definition NewProvider (storagePath : string) (watchInterval maxAge : Duration) : Provider :=
  {| p_storagePath := storagePath; p_watchInterval := watchInterval;
     p_maxAge := maxAge; p_agents := ∅ |}.

(** What the loops of [Discover] carry: the index [p.agents], the heap and
    the slice [agents]. *)
Record discovery : Type := {
  d_index : gmap string loc;
  d_heap : Heap OpenCodeAgent;
  d_agents : list loc
}.

(** The inner loop of [Discover], over the files of one project. *)
Fixpoint discover_sessions (disk : Disk) (now : Time) (p : Provider)
    (projectPath : string) (sessionFiles : list DirEntry) (d : discovery) : discovery :=
  match sessionFiles with
  | [] => d
  | sessionFile :: rest =>
      if de_IsDir sessionFile || negb (HasSuffix (de_Name sessionFile) ".json")
      then discover_sessions disk now p projectPath rest d
      else
        match NewOpenCodeAgent disk now (p_storagePath p)
                (Join projectPath (de_Name sessionFile)) with
        | inl _ => discover_sessions disk now p projectPath rest d
        | inr a =>
            let '(l, h) := alloc a (d_heap d) in
            if (0 <? p_maxAge p) && (p_maxAge p <? now - lastActivity a)
            then discover_sessions disk now p projectPath rest
                   {| d_index := d_index d; d_heap := h; d_agents := d_agents d |}
            else discover_sessions disk now p projectPath rest
                   {| d_index := <[id a := l]> (d_index d); d_heap := h;
                      d_agents := d_agents d ++ [l] |}
        end
  end.

(** The outer loop, over the project directories. *)
Fixpoint discover_projects (disk : Disk) (now : Time) (p : Provider)
    (sessionBasePath : string) (projectDirs : list DirEntry) (d : discovery) : discovery :=
  match projectDirs with
  | [] => d
  | projectDir :: rest =>
      if negb (de_IsDir projectDir)
      then discover_projects disk now p sessionBasePath rest d
      else
        let projectPath := Join sessionBasePath (de_Name projectDir) in
        match ReadDir disk projectPath with
        | DirEntries sessionFiles =>
            discover_projects disk now p sessionBasePath rest
              (discover_sessions disk now p projectPath sessionFiles d)
        | _ => discover_projects disk now p sessionBasePath rest d
        end
  end.

Definition set_agents (index : gmap string loc) (p : Provider) : Provider :=
  {| p_storagePath := p_storagePath p; p_watchInterval := p_watchInterval p;
     p_maxAge := p_maxAge p; p_agents := index |}.

(** [Discover]: the index is emptied before anything is read. *)
Definition Discover (disk : Disk) (now : Time) (p : Provider) (h : Heap OpenCodeAgent)
    : Provider * Heap OpenCodeAgent * (error + list loc) :=
  let sessionBasePath := Join (p_storagePath p) "session" in
  match ReadDir disk sessionBasePath with
  | DirNotExist => (set_agents ∅ p, h, inr [])
  | DirError e =>
      (set_agents ∅ p, h, inl ("failed to read session directory: " +:+ e))
  | DirEntries projectDirs =>
      let d := discover_projects disk now p sessionBasePath projectDirs
                 {| d_index := ∅; d_heap := h; d_agents := [] |} in
      (set_agents (d_index d) p, d_heap d, inr (d_agents d))
  end.

(** The ids of a slice of agents. *)
Definition ids_of (h : Heap OpenCodeAgent) (ls : list loc) : list string :=
  omap (fun l => id <$> objs h !! l) ls.

(** *** Getters and the control operations of the provider *)

(** [Name]: the title, or the first eight bytes of the id when there is none. *)
Definition Name (a : OpenCodeAgent) : string :=
  if String.eqb (name a) ""
  then if (8 <? String.length (id a))%nat then substring 0 8 (id a) else id a
  else name a.

Definition IsBackground (a : OpenCodeAgent) : bool := negb (String.eqb (parentID a) "").

(** A method called through a pointer of the index. The index only holds
    pointers to objects of the heap; a pointer without object, which Go
    cannot have, makes the call a no-op here. *)
Definition call_on (f : OpenCodeAgent -> OpenCodeAgent * option error) (l : loc)
    (h : Heap OpenCodeAgent) : Heap OpenCodeAgent * option error :=
  match objs h !! l with
  | Some a => let '(a', err) := f a in
              ({| objs := <[l := a']> (objs h); next := next h |}, err)
  | None => (h, None)
  end.

Definition Provider_Get (p : Provider) (id : string) : error + loc :=
  match p_agents p !! id with
  | Some a => inr a
  | None => inl ("agent not found: " +:+ id)
  end.

Definition Provider_List (it : MapIter) (p : Provider) : list loc :=
  fold_left (fun agents kv => agents ++ [kv.2]) (range it (p_agents p)) [].

Definition Provider_Terminate (p : Provider) (id : string) (h : Heap OpenCodeAgent)
    : Heap OpenCodeAgent * option error :=
  match p_agents p !! id with
  | None => (h, Some ("agent not found: " +:+ id))
  | Some a => call_on Terminate a h
  end.

Definition Provider_SendInput (run : string -> string -> string -> option error)
    (p : Provider) (id input : string) (h : Heap OpenCodeAgent)
    : Heap OpenCodeAgent * option error :=
  match p_agents p !! id with
  | None => (h, Some ("agent not found: " +:+ id))
  | Some a => call_on (SendInput run input) a h
  end.

(** A test on the object a pointer leads to. *)
Definition holds (f : OpenCodeAgent -> bool) (h : Heap OpenCodeAgent) (l : loc) : bool :=
  match objs h !! l with Some a => f a | None => false end.

Definition ListPrimary (it : MapIter) (p : Provider) (h : Heap OpenCodeAgent) : list loc :=
  fold_left
    (fun agents kv =>
       if holds (fun a => negb (IsBackground a)) h kv.2 then agents ++ [kv.2] else agents)
    (range it (p_agents p)) [].

Definition GetChildren (it : MapIter) (p : Provider) (parent : string)
    (h : Heap OpenCodeAgent) : list loc :=
  fold_left
    (fun children kv =>
       if holds (fun a => String.eqb (parentID a) parent) h kv.2
       then children ++ [kv.2] else children)
    (range it (p_agents p)) [].

Definition ChildCount (it : MapIter) (p : Provider) (parent : string)
    (h : Heap OpenCodeAgent) : nat :=
  fold_left
    (fun count kv =>
       if holds (fun a => String.eqb (parentID a) parent) h kv.2 then S count else count)
    (range it (p_agents p)) 0%nat.

(** The event type chosen for a changed status, in [refreshAll] and in
    [handleFileChange]. *)
Definition event_type_for (newStatus : Status) : EventType :=
  match newStatus with
  | StatusRunning => EventAgentStarted
  | StatusCompleted => EventAgentCompleted
  | StatusErrored => EventAgentErrored
  | _ => EventAgentUpdated
  end.

(** [refreshAll]: every agent of the index is refreshed, and an event is
    sent for each whose status changed. One reading of the disk and of the
    clock serves the whole pass. *)
Definition refreshAll (it : MapIter) (disk : Disk) (now : Time) (p : Provider)
    (h : Heap OpenCodeAgent) : Heap OpenCodeAgent * list Event :=
  fold_left
    (fun (acc : Heap OpenCodeAgent * list Event) kv =>
       match objs acc.1 !! kv.2 with
       | None => acc
       | Some a =>
           let oldStatus := status a in
           let a' := (Refresh disk now a).1 in
           let newStatus := status a' in
           let h' := {| objs := <[kv.2 := a']> (objs acc.1); next := next acc.1 |} in
           if decide (oldStatus = newStatus) then (h', acc.2)
           else (h', acc.2 ++
                     [{| ev_Type := event_type_for newStatus; ev_AgentID := id a';
                         ev_Agent := Some kv.2; ev_Timestamp := now |}])
       end)
    (range it (p_agents p)) (h, []).

(** How a run of the discovery loops relates the state it ends in to the
    state it started from: objects are only added, at locations that were
    free, and what is appended to the slice or entered in the index is such
    a new location. *)
Record extends (d d' : discovery) : Prop := {
  ext_next : (next (d_heap d) <= next (d_heap d'))%nat;
  ext_objs : forall l, (l < next (d_heap d))%nat ->
    objs (d_heap d') !! l = objs (d_heap d) !! l;
  ext_agents : exists new, d_agents d' = d_agents d ++ new /\
    Forall (fun l => (next (d_heap d) <= l < next (d_heap d'))%nat) new;
  ext_index : forall k l, d_index d' !! k = Some l ->
    d_index d !! k = Some l \/ (next (d_heap d) <= l < next (d_heap d'))%nat
}.

(** The slice holds allocated locations only. *)
Definition allocated (d : discovery) : Prop :=
  Forall (fun l => (l < next (d_heap d))%nat) (d_agents d).

(** The two objects are the same session at the same place. *)
Definition same_identity (a a' : OpenCodeAgent) : Prop :=
  id a' = id a /\ directory a' = directory a /\ projectID a' = projectID a /\
  parentID a' = parentID a /\ startTime a' = startTime a /\
  storagePath a' = storagePath a /\ sessionFile a' = sessionFile a.

(** The age filter of [Discover], as the test an agent passes. *)
Definition within_age (now : Time) (p : Provider) (a : OpenCodeAgent) : bool :=
  negb ((0 <? p_maxAge p) && (p_maxAge p <? now - lastActivity a)).

(** What the loops of [Discover] maintain: the slice holds allocated,
    pairwise distinct locations, each of an agent within the age limit
    whose id is in the index; and the index leads from an id to a location
    of the slice, where an agent of that id is. *)
Record discovered (now : Time) (p : Provider) (d : discovery) : Prop := {
  disc_allocated : Forall (fun l => (l < next (d_heap d))%nat) (d_agents d);
  disc_nodup : NoDup (d_agents d);
  disc_index : forall k l, d_index d !! k = Some l ->
    l ∈ d_agents d /\ id <$> objs (d_heap d) !! l = Some k;
  disc_agents : Forall (fun l => exists a, objs (d_heap d) !! l = Some a /\
                   is_Some (d_index d !! id a) /\ within_age now p a = true) (d_agents d)
}.

(** What the loop of [refreshAll] maintains, [n] agents into the index: no
    object is made or lost and each stays the same session; at most [n]
    events were sent, each for an agent of the index, under its id, of one
    of four types. *)
Definition refreshed (p : Provider) (now : Time) (h : Heap OpenCodeAgent)
    (acc : Heap OpenCodeAgent * list Event) (n : nat) : Prop :=
  next acc.1 = next h /\
  (forall l, match objs h !! l, objs acc.1 !! l with
             | Some a, Some a' => same_identity a a'
             | None, None => True
             | _, _ => False
             end) /\
  (length acc.2 <= n)%nat /\
  Forall (fun e =>
            ev_Type e ∈ [EventAgentStarted; EventAgentCompleted; EventAgentErrored;
                         EventAgentUpdated] /\
            ev_Timestamp e = now /\
            exists k l a, p_agents p !! k = Some l /\ objs h !! l = Some a /\
                          ev_Agent e = Some l /\ ev_AgentID e = id a) acc.2.

(** An agent that a [Refresh] against this disk and clock leaves as it is. *)
Definition settled (disk : Disk) (now : Time) (a : OpenCodeAgent) : Prop :=
  (Refresh disk now a).1 = a.

End opencode.

(** ** Package opencode, the CLI (poll) provider *)

Module opencode_cli.
Import agent.

Record CLISession : Type := {
  cs_ID : string;
  cs_Title : string;
  cs_Updated : Z;
  cs_Created : Z;
  cs_ProjectID : string;
  cs_Directory : string
}.

Record OpenCodeAgent : Type := {
  id : string;
  name : string;
  directory : string;
  projectID : string;
  parentID : string;
  status : Status;
  startTime : Time;
  lastActivity : Time
}.

Definition set_status (s : Status) (a : OpenCodeAgent) : OpenCodeAgent :=
  {| id := id a; name := name a; directory := directory a;
     projectID := projectID a; parentID := parentID a; status := s;
     startTime := startTime a; lastActivity := lastActivity a |}.

(** [determineStatus]: the time window alone. *)
Definition determineStatus (now : Time) (a : OpenCodeAgent) : OpenCodeAgent :=
  let timeSinceUpdate := now - lastActivity a in
  if timeSinceUpdate <? 60 * Second then set_status StatusRunning a
  else if timeSinceUpdate <? 30 * Minute then set_status StatusIdle a
  else set_status StatusCompleted a.

Definition NewOpenCodeAgentFromCLI (now : Time) (session : CLISession) : OpenCodeAgent :=
  determineStatus now
    {| id := cs_ID session; name := cs_Title session;
       directory := cs_Directory session; projectID := cs_ProjectID session;
       parentID := ""; status := StatusIdle;
       startTime := UnixMilli (cs_Created session);
       lastActivity := UnixMilli (cs_Updated session) |}.

Definition Update (now : Time) (session : CLISession) (a : OpenCodeAgent) : OpenCodeAgent :=
  determineStatus now
    {| id := id a; name := cs_Title session; directory := directory a;
       projectID := projectID a; parentID := parentID a; status := status a;
       startTime := startTime a;
       lastActivity := UnixMilli (cs_Updated session) |}.

Definition Terminate (a : OpenCodeAgent) : OpenCodeAgent * option error :=
  (set_status StatusCancelled a, None).

(** [Refresh] and [LoadFullHistory] are no-ops for this agent. *)
Definition Refresh (a : OpenCodeAgent) : OpenCodeAgent * option error := (a, None).

Record Provider : Type := {
  p_watchInterval : Duration;
  p_maxAge : Duration;
  p_maxSessions : Z;
  p_agents : gmap string loc
}.

Definition NewProvider (watchInterval maxAge : Duration) : Provider :=
  {| p_watchInterval := watchInterval; p_maxAge := maxAge;
     p_maxSessions := 100; p_agents := ∅ |}.

Record discovery : Type := {
  d_index : gmap string loc;
  d_heap : Heap OpenCodeAgent;
  d_agents : list loc
}.

(** The loop of [Discover] over the sessions the CLI listed. *)
Fixpoint discover_sessions (now : Time) (maxAge : Duration)
    (sessions : list CLISession) (d : discovery) : discovery :=
  match sessions with
  | [] => d
  | session :: rest =>
      let cutoff := now - maxAge in
      let updatedAt := UnixMilli (cs_Updated session) in
      if (0 <? maxAge) && (updatedAt <? cutoff)
      then discover_sessions now maxAge rest d
      else
        match d_index d !! cs_ID session with
        | Some existing =>
            discover_sessions now maxAge rest
              {| d_index := d_index d;
                 d_heap := {| objs := alter (Update now session) existing
                                        (objs (d_heap d));
                              next := next (d_heap d) |};
                 d_agents := d_agents d ++ [existing] |}
        | None =>
            let '(l, h) := alloc (NewOpenCodeAgentFromCLI now session) (d_heap d) in
            discover_sessions now maxAge rest
              {| d_index := <[cs_ID session := l]> (d_index d); d_heap := h;
                 d_agents := d_agents d ++ [l] |}
        end
  end.

(** [Discover]; [fetched] is what [opencode session list] answered. *)
Definition Discover (fetched : error + list CLISession) (now : Time)
    (p : Provider) (h : Heap OpenCodeAgent)
    : Provider * Heap OpenCodeAgent * (error + list loc) :=
  match fetched with
  | inl e => (p, h, inl e)
  | inr sessions =>
      let d := discover_sessions now (p_maxAge p) sessions
                 {| d_index := p_agents p; d_heap := h; d_agents := [] |} in
      ({| p_watchInterval := p_watchInterval p; p_maxAge := p_maxAge p;
          p_maxSessions := p_maxSessions p; p_agents := d_index d |},
       d_heap d, inr (d_agents d))
  end.

(** *** Getters, and a heap of these agents as a world of agents *)

Definition Name (a : OpenCodeAgent) : string :=
  if String.eqb (name a) ""
  then if (8 <? String.length (id a))%nat then substring 0 8 (id a) else id a
  else name a.

Definition IsBackground (a : OpenCodeAgent) : bool := negb (String.eqb (parentID a) "").

(** [SendInput] runs [opencode run -s id input]; [run] is what the command
    ends in. *)
Definition SendInput (run : string -> string -> string -> option error)
    (input : string) (a : OpenCodeAgent) : OpenCodeAgent * option error :=
  if String.eqb input "" then (a, Some "empty input")
  else (a, run (id a) (directory a) input).

(** A getter through a pointer; a pointer without object, which Go cannot
    have, reads as the zero value. *)
Definition read {T : Type} (f : OpenCodeAgent -> T) (d : T) (l : loc)
    (h : Heap OpenCodeAgent) : T :=
  match objs h !! l with Some a => f a | None => d end.

Definition call_on (f : OpenCodeAgent -> OpenCodeAgent * option error) (l : loc)
    (h : Heap OpenCodeAgent) : Heap OpenCodeAgent * option error :=
  match objs h !! l with
  | Some a => let '(a', err) := f a in
              ({| objs := <[l := a']> (objs h); next := next h |}, err)
  | None => (h, None)
  end.

(** The agent implements [Agent]. Nothing ever writes its current task or
    its metrics, so these read as the zero values. *)
Definition heap_Agent (run : string -> string -> string -> option error)
    : Agent (Heap OpenCodeAgent) :=
  {| agent.ID := read id "";
     agent.Name := read Name "";
     agent.Directory := read directory "";
     agent.CurrentTask := fun _ _ => "";
     agent.Status_of := read status StatusPending;
     agent.SendInput := fun l input => call_on (SendInput run input) l;
     agent.Terminate := call_on Terminate |}.

Definition heap_AgentInfo : AgentInfo (Heap OpenCodeAgent) :=
  {| agent.Type_of := fun _ _ => "opencode";
     agent.ProjectID := read projectID "";
     agent.ParentID := read parentID "";
     agent.StartTime := read startTime zeroTime;
     agent.LastActivity := read lastActivity zeroTime;
     agent.Metrics_of := fun _ _ =>
       {| TokensIn := 0; TokensOut := 0; ToolCalls := 0; ErrorCount := 0 |} |}.

(** *** Polling *)

(** The event type [pollForChanges] chooses for an agent that changed. *)
Definition poll_event_type (oldStatus newStatus : Status) : EventType :=
  if bool_decide (oldStatus <> StatusRunning) && bool_decide (newStatus = StatusRunning)
  then EventAgentStarted
  else if bool_decide (oldStatus <> StatusCompleted) &&
          bool_decide (newStatus = StatusCompleted)
  then EventAgentCompleted
  else if bool_decide (oldStatus <> StatusErrored) &&
          bool_decide (newStatus = StatusErrored)
  then EventAgentErrored
  else EventAgentUpdated.

(** What the loop of [pollForChanges] carries: the index, the heap and the
    events sent so far. (The map [seenIDs] is written and never read.) *)
Record polling : Type := {
  pl_index : gmap string loc;
  pl_heap : Heap OpenCodeAgent;
  pl_events : list Event
}.

Fixpoint poll_sessions (now : Time) (maxAge : Duration)
    (sessions : list CLISession) (st : polling) : polling :=
  match sessions with
  | [] => st
  | session :: rest =>
      let cutoff := now - maxAge in
      let updatedAt := UnixMilli (cs_Updated session) in
      if (0 <? maxAge) && (updatedAt <? cutoff)
      then poll_sessions now maxAge rest st
      else
        match pl_index st !! cs_ID session with
        | Some existing =>
            match objs (pl_heap st) !! existing with
            | Some a =>
                let oldStatus := status a in
                let oldActivity := lastActivity a in
                let a' := Update now session a in
                let newStatus := status a' in
                let newActivity := lastActivity a' in
                let h' := {| objs := <[existing := a']> (objs (pl_heap st));
                             next := next (pl_heap st) |} in
                if bool_decide (oldStatus <> newStatus) ||
                   negb (oldActivity =? newActivity)
                then poll_sessions now maxAge rest
                       {| pl_index := pl_index st; pl_heap := h';
                          pl_events := pl_events st ++
                            [{| ev_Type := poll_event_type oldStatus newStatus;
                                ev_AgentID := id a'; ev_Agent := Some existing;
                                ev_Timestamp := now |}] |}
                else poll_sessions now maxAge rest
                       {| pl_index := pl_index st; pl_heap := h';
                          pl_events := pl_events st |}
            | None => poll_sessions now maxAge rest st
            end
        | None =>
            let a := NewOpenCodeAgentFromCLI now session in
            let '(l, h) := alloc a (pl_heap st) in
            poll_sessions now maxAge rest
              {| pl_index := <[cs_ID session := l]> (pl_index st); pl_heap := h;
                 pl_events := pl_events st ++
                   [{| ev_Type := EventAgentDiscovered; ev_AgentID := id a;
                       ev_Agent := Some l; ev_Timestamp := now |}] |}
        end
  end.

(** [pollForChanges]; [fetched] is what [opencode session list] answered.
    An error there ends the poll silently. *)
Definition pollForChanges (fetched : error + list CLISession) (now : Time)
    (p : Provider) (h : Heap OpenCodeAgent)
    : Provider * Heap OpenCodeAgent * list Event :=
  match fetched with
  | inl _ => (p, h, [])
  | inr sessions =>
      let st := poll_sessions now (p_maxAge p) sessions
                  {| pl_index := p_agents p; pl_heap := h; pl_events := [] |} in
      ({| p_watchInterval := p_watchInterval p; p_maxAge := p_maxAge p;
          p_maxSessions := p_maxSessions p; p_agents := pl_index st |},
       pl_heap st, pl_events st)
  end.

(** The index and the heap fit: an id of the index leads to an allocated
    object, which is an agent of that id. *)
Definition index_wf (index : gmap string loc) (h : Heap OpenCodeAgent) : Prop :=
  forall (k : string) (l : loc), index !! k = Some l ->
    (l < next h)%nat /\ exists a, objs h !! l = Some a /\ id a = k.

(** The session passes the age filter of [Discover] and [pollForChanges]. *)
Definition listed (now : Time) (maxAge : Duration) (session : CLISession) : bool :=
  negb ((0 <? maxAge) && (UnixMilli (cs_Updated session) <? now - maxAge)).

(** The agent is up to date with what the CLI lists for it. *)
Definition up_to_date (now : Time) (session : CLISession) (a : OpenCodeAgent) : Prop :=
  Update now session a = a.

End opencode_cli.

(** ** Package store (internal/store/store.go) *)

Module store.

Record SessionRecord : Type := {
  ID : string;
  AgentID : string;
  AgentType : string;
  AgentName : string;
  Directory : string;
  ProjectID : string;
  Status : string;
  StartTime : Time;
  EndTime : Time;
  LastActivity : Time;
  TokensIn : Z;
  TokensOut : Z;
  ToolCalls : Z;
  ErrorCount : Z;
  Output : string;
  Metadata : string
}.

(** A row of [sessions]. A column declared without [NOT NULL] is an
    [option]: [None] is SQL's [NULL]. The server-side stamps [created_at] and
    [updated_at] and the float [estimated_cost] are left out. *)
Record session_row : Type := {
  row_id : string;
  row_agent_id : string;
  row_agent_type : string;
  row_agent_name : string;
  row_directory : option string;
  row_project_id : option string;
  row_status : string;
  row_start_time : Time;
  row_end_time : option Time;
  row_last_activity : option Time;
  row_tokens_in : Z;
  row_tokens_out : Z;
  row_tool_calls : Z;
  row_error_count : Z;
  row_output : option string;
  row_metadata : option string
}.

Record chunk_row : Type := {
  chunk_id : Z;
  chunk_session_id : string;
  chunk_text : string;
  chunk_timestamp : Time
}.

Record alert_row : Type := {
  alert_id : string;
  alert_agent_id : option string;
  alert_level : string;
  alert_message : string;
  alert_timestamp : Time;
  alert_read : bool
}.

Record metric_row : Type := {
  metric_id : string;
  metric_agent_id : string;
  metric_name : string;
  metric_timestamp : Time
}.

(** The database: [sessions] keyed by its primary key, [output_chunks] in
    rowid order together with the counter SQLite keeps for an
    [AUTOINCREMENT] key (the largest id ever handed out), and the two
    append-only tables. *)
Record DB : Type := {
  sessions : gmap string session_row;
  output_chunks : list chunk_row;
  chunk_seq : Z;
  alerts : list alert_row;
  metrics : list metric_row
}.

(** The database after [migrate] on a new file. *)
Definition empty_db : DB :=
  {| sessions := ∅; output_chunks := []; chunk_seq := 0; alerts := []; metrics := [] |}.

(** [SaveSession]. Every parameter is bound from a Go value, a [time.Time]
    included: the driver writes it as a timestamp, the zero time like any
    other, so no column of the written row is [NULL]. On a conflict the
    columns of the [DO UPDATE SET] list are replaced and the others kept. *)
Definition SaveSession (rec : SessionRecord) (db : DB) : DB * option error :=
  let row :=
    match sessions db !! ID rec with
    | None =>
        {| row_id := ID rec; row_agent_id := AgentID rec;
           row_agent_type := AgentType rec; row_agent_name := AgentName rec;
           row_directory := Some (Directory rec);
           row_project_id := Some (ProjectID rec);
           row_status := Status rec; row_start_time := StartTime rec;
           row_end_time := Some (EndTime rec);
           row_last_activity := Some (LastActivity rec);
           row_tokens_in := TokensIn rec; row_tokens_out := TokensOut rec;
           row_tool_calls := ToolCalls rec; row_error_count := ErrorCount rec;
           row_output := Some (Output rec); row_metadata := Some (Metadata rec) |}
    | Some old =>
        {| row_id := row_id old; row_agent_id := row_agent_id old;
           row_agent_type := row_agent_type old;
           row_agent_name := row_agent_name old;
           row_directory := row_directory old;
           row_project_id := row_project_id old;
           row_status := Status rec; row_start_time := row_start_time old;
           row_end_time := Some (EndTime rec);
           row_last_activity := Some (LastActivity rec);
           row_tokens_in := TokensIn rec; row_tokens_out := TokensOut rec;
           row_tool_calls := ToolCalls rec; row_error_count := ErrorCount rec;
           row_output := Some (Output rec); row_metadata := Some (Metadata rec) |}
    end in
  ({| sessions := <[ID rec := row]> (sessions db);
      output_chunks := output_chunks db; chunk_seq := chunk_seq db;
      alerts := alerts db; metrics := metrics db |}, None).

(** [GetSession]: a [NULL] scans to the zero value of the field. *)
Definition GetSession (id : string) (db : DB) : error + SessionRecord :=
  match sessions db !! id with
  | None => inl "sql: no rows in result set"
  | Some r =>
      inr {| ID := row_id r; AgentID := row_agent_id r;
             AgentType := row_agent_type r; AgentName := row_agent_name r;
             Directory := default "" (row_directory r);
             ProjectID := default "" (row_project_id r);
             Status := row_status r; StartTime := row_start_time r;
             EndTime := default zeroTime (row_end_time r);
             LastActivity := default zeroTime (row_last_activity r);
             TokensIn := row_tokens_in r; TokensOut := row_tokens_out r;
             ToolCalls := row_tool_calls r; ErrorCount := row_error_count r;
             Output := default "" (row_output r);
             Metadata := default "" (row_metadata r) |}
  end.

(** [AppendOutput]: one more row, under the next id; [now] is the
    server's [CURRENT_TIMESTAMP]. The foreign key is declared but SQLite does
    not enforce it on a connection opened as [New] opens it. *)
Definition AppendOutput (now : Time) (sessionID chunk : string) (db : DB) : DB * option error :=
  let id := chunk_seq db + 1 in
  ({| sessions := sessions db;
      output_chunks := output_chunks db ++
        [{| chunk_id := id; chunk_session_id := sessionID;
            chunk_text := chunk; chunk_timestamp := now |}];
      chunk_seq := id; alerts := alerts db; metrics := metrics db |}, None).

(** [ORDER BY id ASC]. *)
Fixpoint insert_by_id (c : chunk_row) (l : list chunk_row) : list chunk_row :=
  match l with
  | [] => [c]
  | x :: rest =>
      if chunk_id c <? chunk_id x then c :: x :: rest
      else x :: insert_by_id c rest
  end.

Definition order_by_id (l : list chunk_row) : list chunk_row :=
  foldr insert_by_id [] l.

(** [GetOutput]: [output += chunk] over the selected rows. *)
Definition GetOutput (sessionID : string) (db : DB) : error + string :=
  let rows :=
    order_by_id
      (filter (fun c => chunk_session_id c = sessionID) (output_chunks db)) in
  inr (fold_left (fun output c => output +:+ chunk_text c) rows "").

(** [time.Now().AddDate(0, 0, -maxAgeDays)], read in UTC: days of 24 hours. *)
Definition cutoff_of (now : Time) (maxAgeDays : Z) : Time :=
  now - maxAgeDays * 24 * Hour.

(** [end_time < ? AND end_time IS NOT NULL]. Timestamps are compared as the
    instants they denote. *)
Definition ended_before (cutoff : Time) (r : session_row) : bool :=
  match row_end_time r with
  | None => false
  | Some t => t <? cutoff
  end.

(** [Cleanup]: the four [DELETE] statements, in order. *)
Definition Cleanup (now : Time) (maxAgeDays : Z) (db : DB) : DB * option error :=
  let cutoff := cutoff_of now maxAgeDays in
  let old (sid : string) : bool :=
    match sessions db !! sid with
    | Some r => ended_before cutoff r
    | None => false
    end in
  ({| sessions := filter (fun kv => ended_before cutoff kv.2 = false) (sessions db);
      output_chunks :=
        filter (fun c => old (chunk_session_id c) = false) (output_chunks db);
      chunk_seq := chunk_seq db;
      alerts := filter (fun a => (alert_timestamp a <? cutoff) = false) (alerts db);
      metrics := filter (fun m => (metric_timestamp m <? cutoff) = false) (metrics db) |},
   None).

(** Chunk ids grow along the table and stay below the counter: what
    [AUTOINCREMENT] maintains. *)
Definition chunks_wf (db : DB) : Prop :=
  StronglySorted (fun c c' => chunk_id c < chunk_id c') (output_chunks db) /\
  Forall (fun c => chunk_id c <= chunk_seq db) (output_chunks db).

(** A history of calls on the store. *)
Inductive store_call : Type :=
  | DoSaveSession (rec : SessionRecord)
  | DoAppendOutput (now : Time) (sessionID chunk : string)
  | DoCleanup (now : Time) (maxAgeDays : Z).

Definition store_exec (c : store_call) (db : DB) : DB :=
  match c with
  | DoSaveSession rec => (SaveSession rec db).1
  | DoAppendOutput now s chunk => (AppendOutput now s chunk db).1
  | DoCleanup now d => (Cleanup now d db).1
  end.

Definition store_run (cs : list store_call) (db : DB) : DB :=
  fold_left (fun db c => store_exec c db) cs db.

(** No call of the history is a [Cleanup]. *)
Definition no_cleanup (cs : list store_call) : bool :=
  forallb (fun c => match c with DoCleanup _ _ => false | _ => true end) cs.

(** The chunks a history appends for one session, in order. *)
Definition appended (sessionID : string) (cs : list store_call) : list string :=
  omap (fun c => match c with
                 | DoAppendOutput _ s chunk =>
                     if decide (s = sessionID) then Some chunk else None
                 | _ => None
                 end) cs.

(** *** Listing sessions, and the alerts *)




(** [LIMIT ?], added to the query only when [limit > 0]. *)
Definition apply_limit {T : Type} (limit : Z) (l : list T) : list T :=
  if 0 <? limit then take (Z.to_nat limit) l else l.


(** An alert as the callers hand it over. Its [Metadata], a text the store
    writes and reads back and never looks at, is left out, as the column is
    in [alert_row]. *)
Record AlertRecord : Type := {
  Alert_ID : string;
  Alert_AgentID : string;
  Alert_Level : string;
  Alert_Message : string;
  Alert_Timestamp : Time;
  Alert_Read : bool
}.

(** [SaveAlert]: a plain [INSERT]; [id] is the primary key, so a second
    alert under an id fails and writes nothing. *)
Definition SaveAlert (rec : AlertRecord) (db : DB) : DB * option error :=
  if existsb (fun a => String.eqb (alert_id a) (Alert_ID rec)) (alerts db)
  then (db, Some "UNIQUE constraint failed: alerts.id")
  else
    ({| sessions := sessions db; output_chunks := output_chunks db;
        chunk_seq := chunk_seq db;
        alerts := alerts db ++
          [{| alert_id := Alert_ID rec; alert_agent_id := Some (Alert_AgentID rec);
              alert_level := Alert_Level rec; alert_message := Alert_Message rec;
              alert_timestamp := Alert_Timestamp rec; alert_read := Alert_Read rec |}];
        metrics := metrics db |}, None).

Definition scan_alert (a : alert_row) : AlertRecord :=
  {| Alert_ID := alert_id a; Alert_AgentID := default "" (alert_agent_id a);
     Alert_Level := alert_level a; Alert_Message := alert_message a;
     Alert_Timestamp := alert_timestamp a; Alert_Read := alert_read a |}.

(** [ORDER BY timestamp DESC]. *)
Fixpoint insert_by_timestamp (a : alert_row) (l : list alert_row) : list alert_row :=
  match l with
  | [] => [a]
  | x :: rest =>
      if alert_timestamp x <? alert_timestamp a then a :: x :: rest
      else x :: insert_by_timestamp a rest
  end.

Definition order_by_timestamp_desc (l : list alert_row) : list alert_row :=
  foldr insert_by_timestamp [] l.

Definition ListAlerts (limit : Z) (unreadOnly : bool) (db : DB) : error + list AlertRecord :=
  let selected :=
    if unreadOnly then filter (fun a => alert_read a = false) (alerts db)
    else alerts db in
  inr (scan_alert <$> apply_limit limit (order_by_timestamp_desc selected)).

Definition set_read (a : alert_row) : alert_row :=
  {| alert_id := alert_id a; alert_agent_id := alert_agent_id a;
     alert_level := alert_level a; alert_message := alert_message a;
     alert_timestamp := alert_timestamp a; alert_read := true |}.

Definition set_alerts (l : list alert_row) (db : DB) : DB :=
  {| sessions := sessions db; output_chunks := output_chunks db;
     chunk_seq := chunk_seq db; alerts := l; metrics := metrics db |}.

(** [UPDATE alerts SET read = TRUE WHERE id = ?]. *)
Definition MarkAlertRead (id : string) (db : DB) : DB * option error :=
  (set_alerts
     ((fun a => if String.eqb (alert_id a) id then set_read a else a) <$> alerts db) db,
   None).

Definition MarkAllAlertsRead (db : DB) : DB * option error :=
  (set_alerts (set_read <$> alerts db) db, None).

End store.

(** ** Package session (internal/session/manager.go) *)

Module session.
Import agent.

(** [equalFold]: bytewise, with [A]..[Z] lowered. *)
Definition lower (c : ascii) : ascii :=
  let n := nat_of_ascii c in
  if (65 <=? n)%nat && (n <=? 90)%nat then ascii_of_nat (n + 32) else c.

Fixpoint equalFold_bytes (s t : string) : bool :=
  match s, t with
  | String sr s', String tr t' =>
      if Ascii.eqb (lower sr) (lower tr) then equalFold_bytes s' t' else false
  | _, _ => true
  end.

Definition equalFold (s t : string) : bool :=
  if negb (String.length s =? String.length t)%nat then false
  else equalFold_bytes s t.

(** The loop [for i := 0; i <= sl-subl; i++] of [containsIgnoreCase], with
    [n] iterations left from index [i]. *)
Fixpoint contains_from (n i : nat) (s substr : string) : bool :=
  match n with
  | O => false
  | S n' =>
      if equalFold (substring i (String.length substr) s) substr then true
      else contains_from n' (S i) s substr
  end.

Definition containsIgnoreCase (s substr : string) : bool :=
  let sl := String.length s in
  let subl := String.length substr in
  if (sl <? subl)%nat then false
  else contains_from (sl - subl + 1) 0 s substr.

(** A string with every byte [A]..[Z] lowered: what [equalFold] compares. *)
Fixpoint lowered (s : string) : string :=
  match s with
  | EmptyString => EmptyString
  | String c s' => String (lower c) (lowered s')
  end.

Section Manager.
Context {W : Type} {agent_impl : Agent W}.

(** The manager: its registry and the live map. The configuration, the
    store, the alert manager and the callback take no part in what follows. *)
Record Manager : Type := {
  registry : Registry W;
  agents : gmap string loc
}.

Definition NewManager (r : Registry W) : Manager :=
  {| registry := r; agents := ∅ |}.

Definition set_agents (m : Manager) (live : gmap string loc) : Manager :=
  {| registry := registry m; agents := live |}.

(** [List]: the agents of the live map, in the order [range] gives them. *)
Definition List (it : MapIter) (m : Manager) : list loc :=
  fold_left (fun acc kv => acc ++ [kv.2]) (range it (agents m)) [].

Definition Get (m : Manager) (id : string) : option loc := agents m !! id.

(** [Spawn]. With no provider under [config.Type] the first element of
    [registry.List()] is taken; indexing an empty slice panics. *)
Definition Spawn (it : MapIter) (config : SpawnConfig) (m : Manager) (w : W)
    : Manager * W * outcome loc :=
  let selected : outcome (Provider W) :=
    match agent.Get (registry m) (cfg_Type config) with
    | Some provider => Ok provider
    | None =>
        match agent.List it (registry m) with
        | provider :: _ => Ok provider
        | [] => Panic "runtime error: index out of range [0] with length 0"
        end
    end in
  match selected with
  | Panic msg => (m, w, Panic msg)
  | Err e => (m, w, Err e)
  | Ok provider =>
      match agent.Spawn provider config w with
      | (w', inl err) => (m, w', Err err)
      | (w', inr a) => (set_agents m (<[ID a w' := a]> (agents m)), w', Ok a)
      end
  end.

Definition Terminate (m : Manager) (id : string) (w : W) : Manager * W * option error :=
  match agents m !! id with
  | None => (m, w, None)
  | Some a => let '(w', err) := agent.Terminate a w in (m, w', err)
  end.

Definition SendInput (m : Manager) (id input : string) (w : W) : Manager * W * option error :=
  match agents m !! id with
  | None => (m, w, None)
  | Some a => let '(w', err) := agent.SendInput a input w in (m, w', err)
  end.

(** The test of [Search] on one agent. *)
Definition matches (query : string) (a : loc) (w : W) : bool :=
  containsIgnoreCase (Name a w) query ||
  containsIgnoreCase (ID a w) query ||
  containsIgnoreCase (Directory a w) query ||
  containsIgnoreCase (CurrentTask a w) query.

Definition Search (it : MapIter) (query : string) (m : Manager) (w : W) : list loc :=
  fold_left
    (fun result kv => if matches query kv.2 w then result ++ [kv.2] else result)
    (range it (agents m)) [].

(** The first loop of [Refresh]: [m.agents[a.ID()] = a; seen[a.ID()] = true]. *)
Definition refresh_upsert (w : W) (discovered : list loc)
    (live : gmap string loc) : gmap string loc * gset string :=
  fold_left
    (fun (acc : gmap string loc * gset string) a =>
       (<[ID a w := a]> acc.1, {[ID a w]} ∪ acc.2))
    discovered (live, ∅).

(** The second loop: [for id := range m.agents { if !seen[id] { delete(m.agents, id) } }].
    Deleting during the iteration is allowed in Go; an entry deleted before
    it is reached is not produced, and deleting it again would change
    nothing, so the loop is a fold over the keys the map had on entry. *)
Definition refresh_evict (it : MapIter) (seen : gset string)
    (live : gmap string loc) : gmap string loc :=
  fold_left
    (fun acc kv => if decide (kv.1 ∈ seen) then acc else delete kv.1 acc)
    (range it live) live.

(** The map a slice of agents describes: every agent under its id, a later
    agent of the slice replacing an earlier one that has the same id. *)
Definition by_id (w : W) (discovered : list loc) : gmap string loc :=
  list_to_map (reverse ((fun a => (ID a w, a)) <$> discovered)).

(** [Refresh]; [it1] orders the loop of [DiscoverAll] over the providers,
    [it2] the eviction loop. [DiscoverAll] returns no error. *)
Definition Refresh (it1 it2 : MapIter) (m : Manager) (w : W) : Manager * W * option error :=
  let '(w', discovered) := DiscoverAll it1 (registry m) w in
  let '(live, seen) := refresh_upsert w' discovered (agents m) in
  (set_agents m (refresh_evict it2 seen live), w', None).

End Manager.
Arguments Manager : clear implicits.

(** *** Events, statistics, grouping and filters *)

Section Queries.
Context {W : Type} {agent_impl : Agent W} {agent_info : AgentInfo W}.

(** What [handleEvent] does to the live map. Saving to the store, the
    alert and the callback come after and do not touch it. *)
Definition handleEvent (event : Event) (m : Manager W) : Manager W :=
  match ev_Type event with
  | EventAgentDiscovered =>
      match ev_Agent event with
      | Some a => set_agents m (<[ev_AgentID event := a]> (agents m))
      | None => m
      end
  | EventAgentTerminated => set_agents m (delete (ev_AgentID event) (agents m))
  | _ =>
      match ev_Agent event with
      | Some a => set_agents m (<[ev_AgentID event := a]> (agents m))
      | None => m
      end
  end.

(** What [Start] does to the live map: every discovered agent is entered
    under its id. Neither [DiscoverAll] nor [WatchAll] returns an error. *)
Definition Start (it : MapIter) (m : Manager W) (w : W) : Manager W * W * option error :=
  let '(w', discovered) := DiscoverAll it (registry m) w in
  (set_agents m (fold_left (fun live a => <[ID a w' := a]> live) discovered (agents m)),
   w', None).

(** [counts[key]++] on a Go map of counters. *)
Definition incr `{Countable K} (key : K) (counts : gmap K nat) : gmap K nat :=
  <[key := S (default 0%nat (counts !! key))]> counts.

(** An [int64] or [int] sum wraps around. *)
Definition wrap64 (z : Z) : Z := (z + 2 ^ 63) mod 2 ^ 64 - 2 ^ 63.

Record Stats : Type := {
  Total : nat;
  ByStatus : gmap Status nat;
  ByType : gmap string nat;
  ByProject : gmap string nat;
  TotalTokensIn : Z;
  TotalTokensOut : Z;
  TotalToolCalls : Z;
  TotalErrors : Z
}.

(** [Stats], without the float [TotalCost]. *)
Definition Manager_Stats (it : MapIter) (m : Manager W) (w : W) : Stats :=
  fold_left
    (fun stats kv =>
       let a := kv.2 in
       let metrics := Metrics_of a w in
       {| Total := Total stats;
          ByStatus := incr (Status_of a w) (ByStatus stats);
          ByType := incr (Type_of a w) (ByType stats);
          ByProject := incr (ProjectID a w) (ByProject stats);
          TotalTokensIn := wrap64 (TotalTokensIn stats + TokensIn metrics);
          TotalTokensOut := wrap64 (TotalTokensOut stats + TokensOut metrics);
          TotalToolCalls := wrap64 (TotalToolCalls stats + ToolCalls metrics);
          TotalErrors := wrap64 (TotalErrors stats + ErrorCount metrics) |})
    (range it (agents m))
    {| Total := size (agents m); ByStatus := ∅; ByType := ∅; ByProject := ∅;
       TotalTokensIn := 0; TotalTokensOut := 0; TotalToolCalls := 0;
       TotalErrors := 0 |}.

(** The sum of the counters of a map. *)
Definition sum_counts `{Countable K} (counts : gmap K nat) : nat :=
  map_fold (fun _ n acc => (n + acc)%nat) 0%nat counts.

(** [GroupMode] is a string; only three values select a key. *)
Definition group_key (mode : string) (a : loc) (w : W) : string :=
  if String.eqb mode "type" then Type_of a w
  else if String.eqb mode "project" then ProjectID a w
  else if String.eqb mode "status" then Status_String (Status_of a w)
  else "all".

Record Group : Type := { Group_Name : string; Group_Agents : list loc }.

(** The first loop of [GroupBy]: [groups[key] = append(groups[key], a)]. *)
Definition group_agents (it : MapIter) (mode : string) (m : Manager W) (w : W)
    : gmap string (list loc) :=
  fold_left
    (fun groups kv =>
       let key := group_key mode kv.2 w in
       <[key := default [] (groups !! key) ++ [kv.2]]> groups)
    (range it (agents m)) ∅.

(** [GroupBy]; [it1] orders the loop over the agents, [it2] the loop over
    the groups. *)
Definition GroupBy (it1 it2 : MapIter) (mode : string) (m : Manager W) (w : W) : list Group :=
  fold_left
    (fun result kv => result ++ [{| Group_Name := kv.1; Group_Agents := kv.2 |}])
    (range it2 (group_agents it1 mode m w)) [].

Definition FilterByStatus (it : MapIter) (status : Status) (m : Manager W) (w : W) : list loc :=
  fold_left
    (fun result kv =>
       if decide (Status_of kv.2 w = status) then result ++ [kv.2] else result)
    (range it (agents m)) [].

Definition FilterByType (it : MapIter) (agentType : string) (m : Manager W) (w : W) : list loc :=
  fold_left
    (fun result kv =>
       if decide (Type_of kv.2 w = agentType) then result ++ [kv.2] else result)
    (range it (agents m)) [].

Definition ActiveCount (it : MapIter) (m : Manager W) (w : W) : nat :=
  fold_left
    (fun count kv =>
       if decide (Status_of kv.2 w = StatusRunning) then S count else count)
    (range it (agents m)) 0%nat.

(** [LastActivityTime]: [latest] starts as the zero time. *)
Definition LastActivityTime (it : MapIter) (m : Manager W) (w : W) : Time :=
  fold_left
    (fun latest kv =>
       if latest <? LastActivity kv.2 w then LastActivity kv.2 w else latest)
    (range it (agents m)) zeroTime.

End Queries.

End session.

(** * Concrete states

    The states the examples and counterexamples below are evaluated on. *)

(** ** A world of mock agents *)

(** Two mock agents on the heap, both in the live map. *)
Definition mock_world : gmap loc agent.MockAgent :=
  <[1%nat := agent.NewMockAgent "agent-1" "Alpha"]>
    (<[2%nat := agent.NewMockAgent "agent-2" "Beta"]> ∅).

Definition mock_manager : session.Manager (gmap loc agent.MockAgent) :=
  {| session.registry := agent.NewRegistry;
     session.agents := <["agent-1" := 1%nat]> (<["agent-2" := 2%nat]> ∅) |}.

(** A provider that discovers the second agent only, and whose [Spawn] fails. *)
Definition mock_provider  : agent.Provider (gmap loc agent.MockAgent) :=
  {| agent.Provider_Type := "mock";
     agent.Discover := fun w => (w, inr [2%nat]);
     agent.Spawn := fun _ w => (w, inl "spawn refused") |}.

Definition mock_manager_with_provider : session.Manager (gmap loc agent.MockAgent) :=
  {| session.registry := agent.Register mock_provider agent.NewRegistry;
     session.agents := session.agents mock_manager |}.

(** A registry of two providers, registered in the order [alpha], [beta]. *)
Definition provider_alpha : agent.Provider (gmap loc agent.MockAgent) :=
  {| agent.Provider_Type := "alpha";
     agent.Discover := fun w => (w, inr []);
     agent.Spawn := fun _ w => (w, inl "alpha refused") |}.

Definition provider_beta : agent.Provider (gmap loc agent.MockAgent) :=
  {| agent.Provider_Type := "beta";
     agent.Discover := fun w => (w, inr []);
     agent.Spawn := fun _ w => (w, inl "beta refused") |}.

Definition two_providers : agent.Registry (gmap loc agent.MockAgent) :=
  agent.Register provider_beta (agent.Register provider_alpha agent.NewRegistry).

(** ** A cancelled watch

    One provider; the context is cancelled, the provider's goroutine closes
    its channel, the forwarding goroutine sees the closed channel and
    returns. *)

Definition watch_started : agent.WatchState :=
  agent.WatchAll [agent.make_chan agent.Event 100].

Definition watch_cancelled : agent.WatchState := agent.cancel watch_started.

Definition watch_upstream_closed : agent.WatchState :=
  agent.set_upstream 0
    (agent.chan_close (agent.make_chan agent.Event 100)) watch_cancelled.

Definition watch_drained : agent.WatchState :=
  agent.set_forwarder 0 agent.Returned watch_upstream_closed.

(** ** A session on disk

    Storage [/s] holds session [ses_A] with one message, created at
    millisecond 1000000, that has two parts: the first in state [error], the
    second in state [running]. The clock reads ten seconds after the
    message. *)

Definition msg_1 : opencode.MessageData :=
  {| opencode.md_ID := "msg_1"; opencode.md_SessionID := "ses_A";
     opencode.md_Role := "user"; opencode.md_Created := 1000000;
     opencode.md_Title := "Fix bug" |}.

Definition prt_1 : opencode.PartData :=
  {| opencode.pd_ID := "prt_1"; opencode.pd_MessageID := "msg_1";
     opencode.pd_SessionID := "ses_A"; opencode.pd_Type := "tool-invocation";
     opencode.pd_Created := 1000000; opencode.pd_Text := "";
     opencode.pd_State := "error" |}.

Definition prt_2 : opencode.PartData :=
  {| opencode.pd_ID := "prt_2"; opencode.pd_MessageID := "msg_1";
     opencode.pd_SessionID := "ses_A"; opencode.pd_Type := "tool-invocation";
     opencode.pd_Created := 1000000; opencode.pd_Text := "";
     opencode.pd_State := "running" |}.

Definition ses_A : opencode.SessionData :=
  {| opencode.sd_ID := "ses_A"; opencode.sd_ProjectID := "global";
     opencode.sd_Directory := "/project"; opencode.sd_ParentID := "";
     opencode.sd_Title := "Fix bug"; opencode.sd_Created := 1000000;
     opencode.sd_Updated := 1000000 |}.

Definition json (name : string) : opencode.DirEntry :=
  {| opencode.de_Name := name; opencode.de_IsDir := false |}.

Definition folder (name : string) : opencode.DirEntry :=
  {| opencode.de_Name := name; opencode.de_IsDir := true |}.

Definition disk_A : opencode.Disk :=
  {| opencode.ReadDir := fun path =>
       if String.eqb path "/s/session" then opencode.DirEntries [folder "global"]
       else if String.eqb path "/s/session/global"
       then opencode.DirEntries [json "ses_A.json"]
       else if String.eqb path "/s/message/ses_A"
       then opencode.DirEntries [json "msg_1.json"]
       else if String.eqb path "/s/part/msg_1"
       then opencode.DirEntries [json "prt_1.json"; json "prt_2.json"]
       else opencode.DirNotExist;
     opencode.read_session := fun path =>
       if String.eqb path "/s/session/global/ses_A.json" then inr ses_A
       else inl "open: no such file or directory";
     opencode.read_message := fun path =>
       if String.eqb path "/s/message/ses_A/msg_1.json" then Some msg_1 else None;
     opencode.read_part := fun path =>
       if String.eqb path "/s/part/msg_1/prt_1.json" then Some prt_1
       else if String.eqb path "/s/part/msg_1/prt_2.json" then Some prt_2
       else None |}.

Definition now_A : Time := UnixMilli 1000000 + 10 * Second.

(** The agent as [NewOpenCodeAgent] builds it, with its history loaded. *)
Definition agent_A : opencode.OpenCodeAgent :=
  match opencode.NewOpenCodeAgent disk_A now_A "/s" "/s/session/global/ses_A.json" with
  | inr a => (opencode.loadMessages disk_A a).1
  | inl _ =>
      {| opencode.id := ""; opencode.name := ""; opencode.directory := "";
         opencode.projectID := ""; opencode.parentID := "";
         opencode.storagePath := ""; opencode.sessionFile := "";
         opencode.status := agent.StatusPending; opencode.startTime := 0;
         opencode.lastActivity := 0; opencode.messages := [];
         opencode.loaded := false |}
  end.

(** The agent as [NewOpenCodeAgent] returns it, before its history is loaded. *)
Definition new_agent_A : opencode.OpenCodeAgent :=
  opencode.determineStatusFast now_A
    (opencode.set_status agent.StatusIdle (opencode.set_messages [] agent_A)).

(** A disk on which the session file of [ses_A] can no longer be read. *)
Definition disk_gone : opencode.Disk :=
  {| opencode.ReadDir := fun _ => opencode.DirNotExist;
     opencode.read_session := fun _ => inl "open: no such file or directory";
     opencode.read_message := fun _ => None;
     opencode.read_part := fun _ => None |}.

(** The session [ses_A] as the CLI lists it, and the agent made from it. *)
Definition cli_ses_A : opencode_cli.CLISession :=
  {| opencode_cli.cs_ID := "ses_A"; opencode_cli.cs_Title := "Fix bug";
     opencode_cli.cs_Updated := 1000000; opencode_cli.cs_Created := 1000000;
     opencode_cli.cs_ProjectID := "global";
     opencode_cli.cs_Directory := "/project" |}.

Definition cli_agent_A : opencode_cli.OpenCodeAgent :=
  opencode_cli.NewOpenCodeAgentFromCLI now_A cli_ses_A.

(** The CLI provider after a first discovery that listed [ses_A]. *)
Definition cli_first_discovery :
    opencode_cli.Provider * Heap opencode_cli.OpenCodeAgent * (error + list loc) :=
  opencode_cli.Discover (inr [cli_ses_A]) now_A
    (opencode_cli.NewProvider (5 * Second) 0) empty_heap.

(** The file-watch provider over storage [/s], and its first two
    discoveries on [disk_A] from an empty heap. *)
Definition provider_A : opencode.Provider := opencode.NewProvider "/s" (5 * Second) 0.

Definition first_discovery :
    opencode.Provider * Heap opencode.OpenCodeAgent * (error + list loc) :=
  opencode.Discover disk_A now_A provider_A empty_heap.

Definition second_discovery :
    opencode.Provider * Heap opencode.OpenCodeAgent * (error + list loc) :=
  opencode.Discover disk_A now_A first_discovery.1.1 first_discovery.1.2.

(** ** A stored session

    The record the manager saves for a running agent: [EndTime] is not set,
    so it is the zero time. One chunk of output is stored for it. The
    clock reads some instant of the year 2026. *)

Definition record_A : store.SessionRecord :=
  {| store.ID := "ses_A"; store.AgentID := "ses_A"; store.AgentType := "opencode";
     store.AgentName := "Fix bug"; store.Directory := "/project";
     store.ProjectID := "global"; store.Status := "running";
     store.StartTime := UnixMilli 1000000; store.EndTime := zeroTime;
     store.LastActivity := UnixMilli 1000000;
     store.TokensIn := 0; store.TokensOut := 0; store.ToolCalls := 0;
     store.ErrorCount := 0; store.Output := ""; store.Metadata := "" |}.

Definition now_2026 : Time := 1790000000 * Second.

(** An alert about that agent. *)
Definition alert_A : store.AlertRecord :=
  {| store.Alert_ID := "alert_1"; store.Alert_AgentID := "ses_A";
     store.Alert_Level := "error"; store.Alert_Message := "agent failed";
     store.Alert_Timestamp := now_2026; store.Alert_Read := false |}.

Definition db_A : store.DB :=
  (store.AppendOutput now_2026 "ses_A" "hello"
     (store.SaveSession record_A store.empty_db).1).1.

(** * Properties *)

(** ** Loops over maps and slices *)

Lemma range_nil (it : MapIter) (V : Type) : range it (∅ : gmap string V) = [].
Proof.
  apply Permutation_nil_r. rewrite range_perm, map_to_list_empty. reflexivity.
Qed.

Lemma range_lookup (it : MapIter) (V : Type) (m : gmap string V) k v :
  (k, v) ∈ range it m <-> m !! k = Some v.
Proof. rewrite range_perm. apply elem_of_map_to_list. Qed.

Lemma fold_left_snoc {A B : Type} (f : A -> B) (l : list A) (acc : list B) :
  fold_left (fun acc x => acc ++ [f x]) l acc = acc ++ map f l.
Proof.
  revert acc. induction l as [|x l IH]; intros acc; simpl.
  - by rewrite app_nil_r.
  - by rewrite IH, <- app_assoc.
Qed.

Lemma fold_left_snoc_if {A B : Type} (p : A -> bool) (f : A -> B)
    (l : list A) (acc : list B) :
  (forall x, x ∈ l -> p x = true) ->
  fold_left (fun acc x => if p x then acc ++ [f x] else acc) l acc = acc ++ map f l.
Proof.
  revert acc. induction l as [|x l IH]; intros acc Hp; simpl.
  - by rewrite app_nil_r.
  - rewrite (Hp x) by left. rewrite IH; [by rewrite <- app_assoc |].
    intros y Hy. apply Hp. by right.
Qed.

(** ** The session manager: queries and commands *)

Section ManagerFacts.
Context {W : Type} {agent_impl : agent.Agent W}.
Import agent session.

Lemma List_values (it : MapIter) (m : Manager W) :
  List it m ≡ₚ (map_to_list (agents m)).*2.
Proof.
  unfold List. rewrite fold_left_snoc. simpl.
  apply fmap_Permutation, range_perm.
Qed.

Lemma substring_0_0 (s : string) : substring 0 0 s = "".
Proof. by destruct s. Qed.

Lemma containsIgnoreCase_empty (s : string) : containsIgnoreCase s "" = true.
Proof.
  unfold containsIgnoreCase. simpl.
  replace (String.length s - 0 + 1)%nat with (S (String.length s)) by lia.
  simpl. by rewrite substring_0_0.
Qed.

Lemma matches_empty (a : loc) (w : W) : matches "" a w = true.
Proof. unfold matches. by rewrite containsIgnoreCase_empty. Qed.

(** C10. [Search] with the empty query filters nothing out: whatever the
    order of the loop, its result is the agents of the live map, each as
    often as the map holds it, which is also what [List] returns. *)
Theorem Search_empty_query_returns_all :
  forall (it it' : MapIter) (m : Manager W) (w : W),
    Search it "" m w ≡ₚ (map_to_list (agents m)).*2 /\
    Search it "" m w ≡ₚ List it' m /\
    Search it "" m w = List it m.
Proof.
  intros it it' m w.
  assert (Heq : Search it "" m w = List it m).
  { unfold Search, List.
    rewrite (fold_left_snoc_if (fun kv => matches "" kv.2 w) snd).
    - by rewrite fold_left_snoc.
    - intros kv _. apply matches_empty. }
  rewrite Heq. split; [apply List_values |].
  split; [| done].
  by rewrite !List_values.
Qed.

(** C9. For an id the live map does not hold, [Terminate] and [SendInput]
    return [nil] and change neither the manager nor any agent; for an id it
    holds they are the agent's own [Terminate] and [SendInput], and the
    manager, its live map included, is as before. *)
Theorem Terminate_SendInput_unknown_noop_known_delegate :
  forall (m : Manager W) (id input : string) (w : W),
    (agents m !! id = None ->
       Terminate m id w = (m, w, None) /\
       SendInput m id input w = (m, w, None)) /\
    (forall a, agents m !! id = Some a ->
       Terminate m id w = (m, (agent.Terminate a w).1, (agent.Terminate a w).2) /\
       SendInput m id input w =
         (m, (agent.SendInput a input w).1, (agent.SendInput a input w).2)).
Proof.
  intros m id input w. unfold Terminate, SendInput. split.
  - by intros ->.
  - intros a ->.
    by destruct (agent.Terminate a w), (agent.SendInput a input w).
Qed.

Lemma List_of_empty_registry (it : MapIter) :
  agent.List it (NewRegistry (W := W)) = [].
Proof. unfold agent.List. simpl. by rewrite range_nil. Qed.

(** C3, at the input it fails on. With no provider registered, [Spawn]
    finds none under the type of the config, indexes the empty list of
    providers and panics; no error is returned. *)
Theorem Spawn_without_providers_panics :
  forall (it : MapIter) (config : SpawnConfig) (live : gmap string loc) (w : W),
    Spawn it config {| registry := NewRegistry; agents := live |} w =
      ({| registry := NewRegistry; agents := live |}, w,
       Panic "runtime error: index out of range [0] with length 0").
Proof.
  intros it config live w. unfold Spawn. simpl.
  unfold agent.Get. simpl. rewrite lookup_empty.
  by rewrite List_of_empty_registry.
Qed.

(** The fallback of [Spawn]: with no provider under the type of the config
    and a non-empty registry, the provider that [List] puts first spawns. *)
Lemma Spawn_fallback (it : MapIter) (config : SpawnConfig) (m : Manager W) (w : W)
    (provider : Provider W) (rest : list (Provider W)) :
  agent.Get (registry m) (cfg_Type config) = None ->
  agent.List it (registry m) = provider :: rest ->
  Spawn it config m w =
    match agent.Spawn provider config w with
    | (w', inl err) => (m, w', Err err)
    | (w', inr a) => (set_agents m (<[ID a w' := a]> (agents m)), w', Ok a)
    end.
Proof. intros Hget Hlist. unfold Spawn. by rewrite Hget, Hlist. Qed.

(** With exactly one provider registered there is no choice to make: a
    config of any other type is spawned by that provider, whatever the
    order of the loop in [List]. *)
Lemma Spawn_fallback_single (it : MapIter) (config : SpawnConfig)
    (provider : Provider W) (live : gmap string loc) (w : W) :
  cfg_Type config <> Provider_Type provider ->
  Spawn it config {| registry := Register provider NewRegistry; agents := live |} w =
    match agent.Spawn provider config w with
    | (w', inl err) =>
        ({| registry := Register provider NewRegistry; agents := live |}, w', Err err)
    | (w', inr a) =>
        ({| registry := Register provider NewRegistry;
            agents := <[ID a w' := a]> live |}, w', Ok a)
    end.
Proof.
  intros Hne.
  rewrite (Spawn_fallback it config _ w provider []); [done | |].
  - unfold agent.Get, Register. simpl. by rewrite lookup_insert_ne.
  - unfold agent.List, Register. simpl. rewrite fold_left_snoc. simpl.
    assert (Hr : range it (<[Provider_Type provider := provider]> ∅ : gmap string (Provider W))
                 = [(Provider_Type provider, provider)]).
    { apply Permutation_singleton_r.
      by rewrite range_perm, insert_empty, map_to_list_singleton. }
    by rewrite Hr.
Qed.

Lemma refresh_upsert_fold (w : W) (discovered : list loc)
    (live : gmap string loc) (seen : gset string) :
  fold_left
    (fun (acc : gmap string loc * gset string) a =>
       (<[ID a w := a]> acc.1, {[ID a w]} ∪ acc.2))
    discovered (live, seen) =
  (by_id w discovered ∪ live,
   list_to_set ((fun a => ID a w) <$> discovered) ∪ seen).
Proof.
  unfold by_id. revert live seen.
  induction discovered as [|a S IH]; intros live seen.
  - simpl. by rewrite !(left_id_L ∅ (∪)).
  - rewrite !fmap_cons, reverse_cons, list_to_map_app, list_to_set_cons.
    cbn [fold_left fst snd]. rewrite IH. f_equal.
    + rewrite <- (assoc_L (∪)). f_equal.
      rewrite (insert_union_singleton_l live). f_equal.
    + apply set_eq. intros k. rewrite !elem_of_union. tauto.
Qed.

Lemma refresh_evict_fold (seen : gset string) (l : list (string * loc))
    (acc : gmap string loc) (k : string) :
  fold_left
    (fun acc kv => if decide (kv.1 ∈ seen) then acc else delete kv.1 acc)
    l acc !! k =
  if decide (k ∈ l.*1 /\ k ∉ seen) then None else acc !! k.
Proof.
  revert acc. induction l as [|[k' a] l IH]; intros acc.
  - simpl fold_left. rewrite decide_False; [done |].
    intros [H _]. by apply elem_of_nil in H.
  - cbn [fold_left fst snd]. rewrite IH. clear IH. rewrite fmap_cons. simpl fst.
    destruct (decide (k' ∈ seen)) as [Hs|Hs].
    + destruct (decide (k ∈ l.*1 /\ k ∉ seen)) as [[H1 H2]|H].
      * rewrite decide_True; [done |]. split; [by right | done].
      * rewrite decide_False; [done |]. intros [H1 H2]. apply H.
        split; [| done]. apply elem_of_cons in H1 as [->|H1]; [done | done].
    + destruct (decide (k = k')) as [->|Hne].
      * rewrite lookup_delete_eq. rewrite (decide_True (P := _ ∈ (k' :: _) /\ _)).
        -- by destruct (decide _).
        -- split; [by left | done].
      * rewrite lookup_delete_ne by done.
        destruct (decide (k ∈ l.*1 /\ k ∉ seen)) as [[H1 H2]|H].
        -- rewrite decide_True; [done |]. split; [by right | done].
        -- rewrite decide_False; [done |]. intros [H1 H2]. apply H.
           split; [| done]. by apply elem_of_cons in H1 as [->|H1].
Qed.

Lemma refresh_evict_lookup (it : MapIter) (seen : gset string)
    (live : gmap string loc) (k : string) :
  refresh_evict it seen live !! k = if decide (k ∈ seen) then live !! k else None.
Proof.
  unfold refresh_evict. rewrite refresh_evict_fold.
  destruct (decide (k ∈ seen)) as [Hs|Hs].
  - case_decide as H; [by destruct H | done].
  - case_decide as H; [done |].
    destruct (live !! k) as [a|] eqn:Hk; [| done].
    exfalso. apply H. split; [| done].
    apply list_elem_of_fmap. exists (k, a). split; [done |].
    by apply range_lookup.
Qed.

Lemma by_id_dom (w : W) (discovered : list loc) (k : string) :
  is_Some (by_id w discovered !! k) <->
  k ∈ (list_to_set ((fun a => ID a w) <$> discovered) : gset string).
Proof.
  unfold by_id. rewrite elem_of_list_to_set.
  rewrite <- not_eq_None_Some, <- not_elem_of_list_to_map.
  rewrite fmap_reverse, elem_of_reverse, <- list_fmap_compose.
  split; [apply dec_stable | by intros ? ?].
Qed.

(** C6. [Refresh] returns no error and leaves in the live map exactly what
    discovery returned: every discovered agent under its id (where two
    discovered agents share an id, the later one), whatever the map held
    before; an id of the previous map that no discovered agent carries is
    gone. *)
Theorem Refresh_reconciles_live_map :
  forall (it1 it2 : MapIter) (m : Manager W) (w : W),
    let w' := (DiscoverAll it1 (registry m) w).1 in
    let S := (DiscoverAll it1 (registry m) w).2 in
    let m' := (Refresh it1 it2 m w).1.1 in
    (Refresh it1 it2 m w).2 = None /\
    agents m' = by_id w' S /\
    (forall id, id ∈ dom (agents m') <-> exists a, a ∈ S /\ ID a w' = id) /\
    (NoDup ((fun a => ID a w') <$> S) ->
       forall a, a ∈ S -> agents m' !! ID a w' = Some a) /\
    (forall id, is_Some (agents m !! id) ->
       (forall a, a ∈ S -> ID a w' <> id) -> agents m' !! id = None).
Proof.
  intros it1 it2 m w. unfold Refresh, refresh_upsert.
  destruct (DiscoverAll it1 (registry m) w) as [w' S] eqn:HD.
  rewrite refresh_upsert_fold. simpl.
  assert (Hmap : refresh_evict it2
            (list_to_set ((fun a => ID a w') <$> S) ∪ ∅)
            (by_id w' S ∪ agents m) = by_id w' S).
  { apply map_eq. intros k. rewrite refresh_evict_lookup.
    rewrite (right_id_L ∅ (∪)).
    case_decide as Hk.
    - apply by_id_dom in Hk. by apply lookup_union_l'.
    - symmetry. apply eq_None_not_Some. by rewrite by_id_dom. }
  rewrite Hmap.
  assert (Hdom : forall id, id ∈ dom (by_id w' S) <-> exists a, a ∈ S /\ ID a w' = id).
  { intros k. rewrite elem_of_dom, by_id_dom, elem_of_list_to_set, list_elem_of_fmap.
    split; intros (a & H1 & H2); exists a; by split. }
  split; [done |]. split; [done |]. split; [exact Hdom |]. split.
  - intros Hnd a Ha. unfold by_id.
    apply elem_of_list_to_map.
    + rewrite fmap_reverse, <- list_fmap_compose, reverse_Permutation.
      exact Hnd.
    + apply elem_of_reverse, list_elem_of_fmap. by exists a.
  - intros k _ Hk. apply not_elem_of_dom. rewrite Hdom.
    intros (a & Ha & Hid). by apply (Hk a).
Qed.

End ManagerFacts.

(** ** The manager over a world of mock agents *)

Section MockInstances.
Import agent session.

Lemma Terminate_SendInput_witness :
  (Terminate mock_manager "ghost" mock_world = (mock_manager, mock_world, None) /\
   SendInput mock_manager "ghost" "hi" mock_world = (mock_manager, mock_world, None)) /\
  (Terminate mock_manager "agent-1" mock_world =
     (mock_manager, (agent.Terminate 1%nat mock_world).1,
      (agent.Terminate 1%nat mock_world).2) /\
   SendInput mock_manager "agent-1" "hi" mock_world =
     (mock_manager, (agent.SendInput 1%nat "hi" mock_world).1,
      (agent.SendInput 1%nat "hi" mock_world).2)).
Proof.
  destruct (Terminate_SendInput_unknown_noop_known_delegate
              mock_manager "ghost" "hi" mock_world) as [Hunknown _].
  destruct (Terminate_SendInput_unknown_noop_known_delegate
              mock_manager "agent-1" "hi" mock_world) as [_ Hknown].
  split.
  - apply Hunknown. vm_compute. reflexivity.
  - apply (Hknown 1%nat). vm_compute. reflexivity.
Defined.

Lemma Refresh_reconciles_witness :
  session.agents
    (Refresh canonical_iter canonical_iter mock_manager_with_provider mock_world).1.1
    !! "agent-2" = Some 2%nat /\
  session.agents
    (Refresh canonical_iter canonical_iter mock_manager_with_provider mock_world).1.1
    !! "agent-1" = None.
Proof.
  destruct (Refresh_reconciles_live_map canonical_iter canonical_iter
              mock_manager_with_provider mock_world)
    as (_ & _ & _ & Hkept & Hgone).
  split.
  - apply (Hkept (NoDup_singleton "agent-2") 2%nat). vm_compute.
    apply list_elem_of_here.
  - apply Hgone.
    + exists 1%nat. vm_compute. reflexivity.
    + intros a Ha. vm_compute in Ha. apply list_elem_of_singleton in Ha.
      subst a. vm_compute. discriminate.
Defined.

(** Which provider [List] puts first, and so which one [Spawn] falls back
    to among several, follows the order of the loop over the map and not the
    order of registration. *)
Lemma List_order_is_range_order :
  Provider_Type <$> agent.List canonical_iter two_providers = ["alpha"; "beta"] /\
  Provider_Type <$> agent.List reversed_iter two_providers = ["beta"; "alpha"] /\
  (Spawn canonical_iter
     {| cfg_Type := "claude"; cfg_Name := "n"; cfg_Directory := "/d"; cfg_Prompt := "" |}
     {| registry := two_providers; agents := ∅ |} mock_world).2 = Err "alpha refused" /\
  (Spawn reversed_iter
     {| cfg_Type := "claude"; cfg_Name := "n"; cfg_Directory := "/d"; cfg_Prompt := "" |}
     {| registry := two_providers; agents := ∅ |} mock_world).2 = Err "beta refused".
Proof. vm_compute. repeat split. Qed.

End MockInstances.

(** ** Event fan-in *)

Section FanIn.
Import agent.

Lemma step_merged_closed (s s' : WatchState) :
  step s s' -> closed (merged s') = closed (merged s).
Proof. intros Hstep. destruct Hstep; reflexivity. Qed.

Lemma steps_merged_closed (s s' : WatchState) :
  steps s s' -> closed (merged s') = closed (merged s).
Proof.
  intros Hsteps. induction Hsteps as [|s1 s2 s3 Hstep _ IH]; [done |].
  rewrite IH. by apply step_merged_closed.
Qed.

Lemma watch_drained_reachable : steps watch_started watch_drained.
Proof.
  eapply rtc_l; [apply step_cancel |].
  eapply rtc_l;
    [apply (step_upstream_close watch_cancelled 0 (make_chan Event 100)); reflexivity |].
  eapply rtc_l;
    [apply (step_range_end watch_upstream_closed 0
              (chan_close (make_chan Event 100))); reflexivity |].
  apply rtc_refl.
Qed.

(** C4, on the code. Whatever the providers, the forwarding goroutines,
    the consumer and the owner of the context do after [WatchAll] returned,
    the merged channel is open: no transition closes it, also not after the
    context is cancelled and every upstream channel is closed and drained. *)
Theorem WatchAll_never_closes_merged :
  forall (chs : list (chan Event)) (s : WatchState),
    steps (WatchAll chs) s -> closed (merged s) = false.
Proof.
  intros chs s Hsteps. by rewrite (steps_merged_closed _ _ Hsteps).
Qed.

Lemma WatchAll_never_closes_merged_witness :
  ctx_done watch_drained = true /\
  drained watch_drained /\
  closed (merged watch_drained) = false.
Proof.
  split; [reflexivity |]. split.
  - split; repeat constructor.
  - exact (WatchAll_never_closes_merged _ watch_drained watch_drained_reachable).
Defined.

End FanIn.

(** ** The file-watch agent: status derivation *)

Section StatusDerivation.
Import agent opencode.

Lemma window_spec (d : Duration) :
  (d < 60 * Second -> window d = StatusRunning) /\
  (60 * Second <= d < 30 * Minute -> window d = StatusIdle) /\
  (30 * Minute <= d -> window d = StatusCompleted).
Proof.
  unfold window. repeat split; intros Hd.
  - by rewrite (proj2 (Z.ltb_lt _ _)).
  - rewrite (proj2 (Z.ltb_ge _ _)) by lia. by rewrite (proj2 (Z.ltb_lt _ _)) by lia.
  - rewrite (proj2 (Z.ltb_ge d (60 * Second))).
    + by rewrite (proj2 (Z.ltb_ge _ _)).
    + unfold Minute in Hd. unfold Second, Millisecond in *. lia.
Qed.

Lemma scan_parts_find (now : Time) (d : Duration) (parts : list PartData) :
  scan_parts now d parts = verdict now <$> List.find (deciding d) parts.
Proof.
  induction parts as [|part rest IH]; [done |].
  cbn [scan_parts List.find]. unfold deciding at 1.
  destruct (is_running part) eqn:Hrun.
  - simpl. unfold verdict. by rewrite Hrun.
  - simpl. destruct (is_error part && (d <? 5 * Minute)).
    + simpl. unfold verdict. by rewrite Hrun.
    + exact IH.
Qed.

Lemma find_app_bool {A : Type} (f : A -> bool) (l1 l2 : list A) :
  List.find f (l1 ++ l2) =
  match List.find f l1 with Some x => Some x | None => List.find f l2 end.
Proof.
  induction l1 as [|x l1 IH]; [done |]. simpl. by destruct (f x).
Qed.

Lemma scan_messages_find (disk : Disk) (sp : string) (now : Time) (d : Duration)
    (msgs : list MessageData) :
  scan_messages disk sp now d msgs =
  verdict now <$> List.find (deciding d) (flat_map (parts_of disk sp) msgs).
Proof.
  induction msgs as [|msg rest IH]; [done |].
  simpl. rewrite find_app_bool, scan_parts_find, IH.
  by destruct (List.find (deciding d) (parts_of disk sp msg)).
Qed.

(** C5, as the code has it. With no message the status is pending.
    Otherwise, with [d] the time since the last message was created, the
    first part in scan order that is running, or in error while [d] is under
    five minutes, decides: running gives running and sets the last activity
    to now, error gives errored and sets it to the creation time of the
    part. When no part decides, the time window on [d] gives the status and
    the last activity becomes the creation time of the last message. The
    fast derivation is the time window on the time since the last
    activity. *)
Theorem determineStatus_first_deciding_part :
  forall (disk : Disk) (now : Time) (a : OpenCodeAgent),
    match last (messages a) with
    | None =>
        status (determineStatus disk now a) = StatusPending /\
        lastActivity (determineStatus disk now a) = lastActivity a
    | Some lastMsg =>
        let d := now - UnixMilli (md_Created lastMsg) in
        match List.find (deciding d) (all_parts disk a) with
        | Some part =>
            if is_running part
            then status (determineStatus disk now a) = StatusRunning /\
                 lastActivity (determineStatus disk now a) = now
            else status (determineStatus disk now a) = StatusErrored /\
                 lastActivity (determineStatus disk now a) =
                   UnixMilli (pd_Created part)
        | None =>
            status (determineStatus disk now a) = window d /\
            lastActivity (determineStatus disk now a) =
              UnixMilli (md_Created lastMsg)
        end
    end /\
    status (determineStatusFast now a) = window (now - lastActivity a).
Proof.
  intros disk now a. split; [| reflexivity].
  unfold determineStatus, all_parts.
  destruct (last (messages a)) as [lastMsg|]; [| done].
  cbv zeta. rewrite scan_messages_find.
  destruct (List.find _ _) as [part|]; [| done].
  simpl. unfold verdict. by destruct (is_running part).
Qed.

(** C5, as stated, fails: an error part read before a running part, with
    the last message ten seconds old, gives errored, where the reference
    policy gives running. *)
Lemma determineStatus_error_part_before_running_part :
  all_parts disk_A agent_A = [prt_1; prt_2] /\
  status (determineStatus disk_A now_A agent_A) = StatusErrored /\
  reference_policy (now_A - UnixMilli 1000000) (messages agent_A)
    (all_parts disk_A agent_A) = StatusRunning.
Proof. vm_compute. repeat split. Qed.

End StatusDerivation.

(** ** The cancelled status *)

Section Cancelled.
Import agent opencode.

Lemma window_not_cancelled (d : Duration) : window d <> StatusCancelled.
Proof. unfold window. by repeat case_match. Qed.

Lemma determineStatus_not_cancelled (disk : Disk) (now : Time) (a : OpenCodeAgent) :
  status (determineStatus disk now a) <> StatusCancelled.
Proof.
  unfold determineStatus.
  destruct (last (messages a)) as [lastMsg|]; [| done].
  cbv zeta. rewrite scan_messages_find.
  destruct (List.find _ _) as [part|]; simpl.
  - unfold verdict. by destruct (is_running part).
  - apply window_not_cancelled.
Qed.

Lemma exec_quiet_keeps_cancelled (c : call) (a : OpenCodeAgent) :
  status a = StatusCancelled -> rederives c a = false ->
  status (exec c a) = StatusCancelled.
Proof.
  intros Hc Hq. destruct c as [disk now|disk now|disk now|run input| | |]; simpl in *.
  - unfold Refresh, loadMessages. simpl.
    destruct (read_session disk (sessionFile a)) as [e|session]; [done |].
    destruct (ReadDir disk _); [done | done | done].
  - unfold LoadFullHistory. by destruct (loaded a).
  - unfold LoadFullHistory. by destruct (loaded a).
  - unfold SendInput. by destruct (String.eqb input "").
  - done.
  - done.
  - done.
Qed.

Lemma exec_rederives_not_cancelled (c : call) (a : OpenCodeAgent) :
  rederives c a = true -> status (exec c a) <> StatusCancelled.
Proof.
  intros Hr. destruct c as [disk now|disk now|disk now|run input| | |];
    simpl in *; try done.
  - unfold Refresh, loadMessages. simpl.
    destruct (read_session disk (sessionFile a)) as [e|session]; [done |].
    destruct (ReadDir disk _); [| | done]; apply determineStatus_not_cancelled.
  - unfold LoadFullHistory. destruct (loaded a); [done |].
    apply determineStatus_not_cancelled.
  - unfold LoadFullHistory. destruct (loaded a); [done |].
    apply determineStatus_not_cancelled.
Qed.

Lemma cli_determineStatus_not_cancelled (now : Time) (a : opencode_cli.OpenCodeAgent) :
  opencode_cli.status (opencode_cli.determineStatus now a) <> StatusCancelled.
Proof. unfold opencode_cli.determineStatus. by repeat case_match. Qed.

(** C1, as the code has it. [Terminate] sets the status to cancelled on
    both agents. On the file-watch agent the status then stays cancelled over
    any sequence of calls none of which re-derives the status ([SendInput],
    [Pause], [Resume], [Terminate], a [Refresh] that fails before the
    derivation, history loading on a loaded agent); a call that does
    re-derive it leaves a status other than cancelled. On the CLI agent
    [Refresh] keeps the status and [Update] leaves a status other than
    cancelled. *)
Theorem cancelled_holds_until_status_is_rederived :
  (forall a, status (Terminate a).1 = StatusCancelled) /\
  (forall a cs, status a = StatusCancelled -> quiet cs a = true ->
     status (run_calls cs a) = StatusCancelled) /\
  (forall a c, rederives c a = true -> status (exec c a) <> StatusCancelled) /\
  (forall a, opencode_cli.status (opencode_cli.Terminate a).1 = StatusCancelled) /\
  (forall a, opencode_cli.status (opencode_cli.Refresh a).1 = opencode_cli.status a) /\
  (forall now session a,
     opencode_cli.status (opencode_cli.Update now session a) <> StatusCancelled).
Proof.
  split; [done |]. split; [| split; [| split; [done | split; [done |]]]].
  - intros a cs. revert a. induction cs as [|c cs IH]; intros a Hc Hq; [done |].
    simpl in Hq. apply andb_prop in Hq as [Hq1 Hq2].
    apply negb_true_iff in Hq1.
    unfold run_calls. simpl. apply IH; [| done].
    by apply exec_quiet_keeps_cancelled.
  - intros a c. apply exec_rederives_not_cancelled.
  - intros now session a. apply cli_determineStatus_not_cancelled.
Qed.

Lemma cancelled_holds_witness :
  status (run_calls [CallSendInput (fun _ _ _ => None) "go on"; CallPause;
                     CallRefresh disk_gone now_A]
            (Terminate agent_A).1) = StatusCancelled.
Proof.
  destruct cancelled_holds_until_status_is_rederived as (_ & Hkeep & _).
  apply Hkeep; vm_compute; reflexivity.
Defined.

(** C1, as stated, fails on both agents: after [Terminate], a [Refresh] of
    the file-watch agent that finds its files, and an [Update] of the CLI
    agent, replace cancelled by a derived status. *)
Lemma cancelled_lost_on_Refresh_and_Update :
  status (Terminate agent_A).1 = StatusCancelled /\
  status (Refresh disk_A now_A (Terminate agent_A).1).1 = StatusErrored /\
  opencode_cli.status (opencode_cli.Terminate cli_agent_A).1 = StatusCancelled /\
  opencode_cli.status
    (opencode_cli.Update now_A cli_ses_A (opencode_cli.Terminate cli_agent_A).1) =
    StatusRunning.
Proof. vm_compute. repeat split. Qed.

End Cancelled.

(** ** Discovery and the identity of agents *)

Section Discovery.
Import agent opencode.

Lemma extends_refl (d : discovery) : extends d d.
Proof.
  split; [lia | done | | by left].
  exists []. by rewrite app_nil_r.
Qed.

Lemma extends_trans (d1 d2 d3 : discovery) :
  extends d1 d2 -> extends d2 d3 -> extends d1 d3.
Proof.
  intros [Hn1 Ho1 (new1 & Ha1 & Hf1) Hi1] [Hn2 Ho2 (new2 & Ha2 & Hf2) Hi2].
  split.
  - lia.
  - intros l Hl. rewrite Ho2 by lia. by apply Ho1.
  - exists (new1 ++ new2). split; [by rewrite Ha2, Ha1, app_assoc |].
    apply Forall_app. split.
    + eapply Forall_impl; [exact Hf1 |]. simpl. intros l Hl. lia.
    + eapply Forall_impl; [exact Hf2 |]. simpl. intros l Hl. lia.
  - intros k l Hk. destruct (Hi2 k l Hk) as [Hold|Hnew]; [| right; lia].
    destruct (Hi1 k l Hold) as [Hold'|Hnew]; [by left | right; lia].
Qed.

Lemma extends_skip (a : OpenCodeAgent) (d : discovery) :
  extends d {| d_index := d_index d; d_heap := (alloc a (d_heap d)).2;
               d_agents := d_agents d |}.
Proof.
  split; simpl.
  - lia.
  - intros l Hl. apply lookup_insert_ne. lia.
  - exists []. by rewrite app_nil_r.
  - intros k l Hk. by left.
Qed.

Lemma extends_keep (a : OpenCodeAgent) (d : discovery) :
  extends d {| d_index := <[id a := next (d_heap d)]> (d_index d);
               d_heap := (alloc a (d_heap d)).2;
               d_agents := d_agents d ++ [next (d_heap d)] |}.
Proof.
  split; simpl.
  - lia.
  - intros l Hl. apply lookup_insert_ne. lia.
  - exists [next (d_heap d)]. split; [done |]. constructor; [lia | done].
  - intros k l Hk. destruct (decide (k = id a)) as [->|Hne].
    + rewrite lookup_insert_eq in Hk. injection Hk as <-. right. lia.
    + rewrite lookup_insert_ne in Hk by done. by left.
Qed.

Lemma discover_sessions_extends (disk : Disk) (now : Time) (p : Provider)
    (projectPath : string) (sessionFiles : list DirEntry) (d : discovery) :
  extends d (discover_sessions disk now p projectPath sessionFiles d).
Proof.
  revert d. induction sessionFiles as [|f rest IH]; intros d; simpl.
  - apply extends_refl.
  - destruct (de_IsDir f || negb (HasSuffix (de_Name f) ".json")); [apply IH |].
    destruct (NewOpenCodeAgent disk now (p_storagePath p) _) as [e|a]; [apply IH |].
    destruct ((0 <? p_maxAge p) && (p_maxAge p <? now - lastActivity a)).
    + eapply extends_trans; [apply (extends_skip a) | apply IH].
    + eapply extends_trans; [apply (extends_keep a) | apply IH].
Qed.

Lemma discover_projects_extends (disk : Disk) (now : Time) (p : Provider)
    (sessionBasePath : string) (projectDirs : list DirEntry) (d : discovery) :
  extends d (discover_projects disk now p sessionBasePath projectDirs d).
Proof.
  revert d. induction projectDirs as [|dir rest IH]; intros d; simpl.
  - apply extends_refl.
  - destruct (negb (de_IsDir dir)); [apply IH |].
    destruct (ReadDir disk _); [| apply IH | apply IH].
    eapply extends_trans; [apply discover_sessions_extends | apply IH].
Qed.

Lemma NewOpenCodeAgent_clock (disk : Disk) (now1 now2 : Time) (sp path : string) :
  match NewOpenCodeAgent disk now1 sp path, NewOpenCodeAgent disk now2 sp path with
  | inl e1, inl e2 => e1 = e2
  | inr a1, inr a2 => id a1 = id a2 /\ lastActivity a1 = lastActivity a2
  | _, _ => False
  end.
Proof.
  unfold NewOpenCodeAgent. by destruct (read_session disk path).
Qed.

Lemma ids_of_alloc (a : OpenCodeAgent) (h : Heap OpenCodeAgent) (ls : list loc) :
  Forall (fun l => (l < next h)%nat) ls ->
  ids_of (alloc a h).2 ls = ids_of h ls.
Proof.
  intros Hls. unfold ids_of. apply list_omap_ext.
  induction Hls as [|l ls Hl _ IH]; constructor; [| done].
  simpl. rewrite lookup_insert_ne by lia. done.
Qed.

Lemma ids_of_app (h : Heap OpenCodeAgent) (l1 l2 : list loc) :
  ids_of h (l1 ++ l2) = ids_of h l1 ++ ids_of h l2.
Proof. unfold ids_of. apply omap_app. Qed.

Lemma ids_of_alloc_snoc (a : OpenCodeAgent) (h : Heap OpenCodeAgent) (ls : list loc) :
  Forall (fun l => (l < next h)%nat) ls ->
  ids_of (alloc a h).2 (ls ++ [next h]) = ids_of h ls ++ [id a].
Proof.
  intros Hls. rewrite ids_of_app, ids_of_alloc by done. f_equal.
  unfold ids_of. simpl. by rewrite lookup_insert_eq.
Qed.

Lemma allocated_skip (a : OpenCodeAgent) (d : discovery) :
  allocated d ->
  allocated {| d_index := d_index d; d_heap := (alloc a (d_heap d)).2;
               d_agents := d_agents d |}.
Proof.
  unfold allocated. simpl. intros Hd.
  eapply Forall_impl; [exact Hd |]. simpl. intros l Hl. lia.
Qed.

Lemma allocated_keep (a : OpenCodeAgent) (d : discovery) :
  allocated d ->
  allocated {| d_index := <[id a := next (d_heap d)]> (d_index d);
               d_heap := (alloc a (d_heap d)).2;
               d_agents := d_agents d ++ [next (d_heap d)] |}.
Proof.
  unfold allocated. simpl. intros Hd. apply Forall_app. split.
  - eapply Forall_impl; [exact Hd |]. simpl. intros l Hl. lia.
  - constructor; [lia | done].
Qed.

(** Two runs of the inner loop over the same files of the same disk list
    the same ids when the age filter is off or the clock reads the same. *)
Lemma discover_sessions_same_ids (disk : Disk) (now1 now2 : Time) (p1 p2 : Provider)
    (projectPath : string) (sessionFiles : list DirEntry) (d1 d2 : discovery) :
  p_storagePath p1 = p_storagePath p2 -> p_maxAge p1 = p_maxAge p2 ->
  p_maxAge p1 <= 0 \/ now1 = now2 ->
  allocated d1 -> allocated d2 ->
  ids_of (d_heap d1) (d_agents d1) = ids_of (d_heap d2) (d_agents d2) ->
  let d1' := discover_sessions disk now1 p1 projectPath sessionFiles d1 in
  let d2' := discover_sessions disk now2 p2 projectPath sessionFiles d2 in
  allocated d1' /\ allocated d2' /\
  ids_of (d_heap d1') (d_agents d1') = ids_of (d_heap d2') (d_agents d2').
Proof.
  intros Hsp Hage Hclock. cbv zeta. revert d1 d2.
  induction sessionFiles as [|f rest IH]; intros d1 d2 H1 H2 Hids; [done |].
  simpl. destruct (de_IsDir f || negb (HasSuffix (de_Name f) ".json")); [by apply IH |].
  rewrite <- Hsp, <- Hage.
  pose proof (NewOpenCodeAgent_clock disk now1 now2 (p_storagePath p1)
                (Join projectPath (de_Name f))) as Hnew.
  destruct (NewOpenCodeAgent disk now1 _ _) as [e1|a1],
           (NewOpenCodeAgent disk now2 _ _) as [e2|a2]; try done; [by apply IH |].
  destruct Hnew as [Hid Hla].
  assert (Hsame : (0 <? p_maxAge p1) && (p_maxAge p1 <? now1 - lastActivity a1) =
                  (0 <? p_maxAge p1) && (p_maxAge p1 <? now2 - lastActivity a2)).
  { destruct Hclock as [Hoff| ->].
    - by rewrite (proj2 (Z.ltb_ge 0 (p_maxAge p1))).
    - by rewrite Hla. }
  rewrite <- Hsame.
  destruct ((0 <? p_maxAge p1) && (p_maxAge p1 <? now1 - lastActivity a1)).
  - apply IH; [by apply allocated_skip | by apply allocated_skip |].
    etrans; [by apply (ids_of_alloc a1 (d_heap d1)) |].
    etrans; [exact Hids |].
    symmetry. by apply (ids_of_alloc a2 (d_heap d2)).
  - apply IH; [by apply allocated_keep | by apply allocated_keep |].
    etrans; [by apply (ids_of_alloc_snoc a1 (d_heap d1)) |].
    rewrite Hids, Hid.
    symmetry. by apply (ids_of_alloc_snoc a2 (d_heap d2)).
Qed.

Lemma discover_projects_same_ids (disk : Disk) (now1 now2 : Time) (p1 p2 : Provider)
    (sessionBasePath : string) (projectDirs : list DirEntry) (d1 d2 : discovery) :
  p_storagePath p1 = p_storagePath p2 -> p_maxAge p1 = p_maxAge p2 ->
  p_maxAge p1 <= 0 \/ now1 = now2 ->
  allocated d1 -> allocated d2 ->
  ids_of (d_heap d1) (d_agents d1) = ids_of (d_heap d2) (d_agents d2) ->
  let d1' := discover_projects disk now1 p1 sessionBasePath projectDirs d1 in
  let d2' := discover_projects disk now2 p2 sessionBasePath projectDirs d2 in
  allocated d1' /\ allocated d2' /\
  ids_of (d_heap d1') (d_agents d1') = ids_of (d_heap d2') (d_agents d2').
Proof.
  intros Hsp Hage Hclock. cbv zeta. revert d1 d2.
  induction projectDirs as [|dir rest IH]; intros d1 d2 H1 H2 Hids; [done |].
  simpl. destruct (negb (de_IsDir dir)); [by apply IH |].
  destruct (ReadDir disk _) as [sessionFiles| |]; [| by apply IH | by apply IH].
  destruct (discover_sessions_same_ids disk now1 now2 p1 p2
              (Join sessionBasePath (de_Name dir)) sessionFiles d1 d2)
    as (H1' & H2' & Hids'); try done.
  by apply IH.
Qed.

(** C7, as the code has it. Two successive [Discover] calls of the
    file-watch provider on an unchanged disk end alike, and when both
    succeed they list the same ids in the same order (with the age filter
    off, or the clock unchanged); but every agent the second call returns is
    a new object, none of those the first call returned, and the index maps
    no id to the object it mapped it to after the first call. *)
Theorem Discover_twice_same_ids_fresh_instances :
  forall (disk : Disk) (now1 now2 : Time) (p : Provider) (h : Heap OpenCodeAgent),
    let first := Discover disk now1 p h in
    let second := Discover disk now2 first.1.1 first.1.2 in
    (p_maxAge p <= 0 \/ now1 = now2 ->
       match first.2, second.2 with
       | inr agents1, inr agents2 =>
           ids_of first.1.2 agents1 = ids_of second.1.2 agents2
       | inl e1, inl e2 => e1 = e2
       | _, _ => False
       end) /\
    (forall agents1 agents2, first.2 = inr agents1 -> second.2 = inr agents2 ->
       forall l, l ∈ agents2 -> l ∉ agents1) /\
    (forall k l1 l2, p_agents first.1.1 !! k = Some l1 ->
       p_agents second.1.1 !! k = Some l2 -> l1 <> l2).
Proof.
  intros disk now1 now2 p h. cbv zeta. unfold Discover. simpl.
  destruct (ReadDir disk (Join (p_storagePath p) "session"))
    as [projectDirs| |e] eqn:Hrd;
    simpl; rewrite Hrd; simpl.
  2: { split; [done |]. split.
       - intros agents1 agents2 _ [= <-] l Hl. by apply elem_of_nil in Hl.
       - intros k l1 l2 Hk. by rewrite lookup_empty in Hk. }
  2: { split; [done |]. split.
       - intros agents1 agents2 [=].
       - intros k l1 l2 Hk. by rewrite lookup_empty in Hk. }
  set (d0 := {| d_index := ∅; d_heap := h; d_agents := [] |}).
  set (d1 := discover_projects disk now1 p _ projectDirs d0).
  set (d0' := {| d_index := ∅; d_heap := d_heap d1; d_agents := [] |}).
  set (d2 := discover_projects disk now2 (set_agents (d_index d1) p) _ projectDirs d0').
  pose proof (discover_projects_extends disk now1 p
                (Join (p_storagePath p) "session") projectDirs d0) as E1.
  pose proof (discover_projects_extends disk now2 (set_agents (d_index d1) p)
                (Join (p_storagePath p) "session") projectDirs d0') as E2.
  fold d1 in E1. fold d2 in E2.
  destruct E1 as [_ _ (new1 & Ha1 & Hf1) Hi1].
  destruct E2 as [_ _ (new2 & Ha2 & Hf2) Hi2].
  simpl in *. split; [| split].
  - intros Hclock.
    destruct (discover_projects_same_ids disk now1 now2 p
                (set_agents (d_index d1) p) (Join (p_storagePath p) "session")
                projectDirs d0 d0') as (_ & _ & Hids); try done.
    + constructor.
    + constructor.
  - intros agents1 agents2 [= <-] [= <-] l Hl2 Hl1.
    rewrite Ha1 in Hl1. rewrite Ha2 in Hl2.
    rewrite Forall_forall in Hf1, Hf2.
    apply Hf1 in Hl1. apply Hf2 in Hl2. lia.
  - intros k l1 l2 Hk1 Hk2 <-.
    destruct (Hi1 k l1 Hk1) as [Hold|Hnew1]; [by rewrite lookup_empty in Hold |].
    destruct (Hi2 k l1 Hk2) as [Hold|Hnew2]; [by rewrite lookup_empty in Hold |].
    lia.
Qed.

Lemma Discover_twice_witness :
  ids_of first_discovery.1.2 [0%nat] = ids_of second_discovery.1.2 [1%nat].
Proof.
  destruct (Discover_twice_same_ids_fresh_instances disk_A now_A now_A
              provider_A empty_heap) as (Hids & _ & _).
  exact (Hids (or_intror eq_refl)).
Defined.

(** C7, as stated, fails: the session is discovered twice under the same
    id, and the second discovery returns, and enters in the index, another
    object than the first. *)
Lemma Discover_twice_rebuilds_agent :
  first_discovery.2 = inr [0%nat] /\
  second_discovery.2 = inr [1%nat] /\
  ids_of first_discovery.1.2 [0%nat] = ["ses_A"] /\
  ids_of second_discovery.1.2 [1%nat] = ["ses_A"] /\
  p_agents first_discovery.1.1 !! "ses_A" = Some 0%nat /\
  p_agents second_discovery.1.1 !! "ses_A" = Some 1%nat.
Proof. vm_compute. repeat split. Qed.

End Discovery.

(** ** Discovery by the CLI provider *)

Section CLIDiscovery.
Import agent opencode_cli.

Lemma cli_discover_sessions_index (now : Time) (maxAge : Duration)
    (sessions : list CLISession) (d : discovery) (k : string) (l : loc) :
  d_index d !! k = Some l ->
  d_index (discover_sessions now maxAge sessions d) !! k = Some l.
Proof.
  revert d. induction sessions as [|session rest IH]; intros d Hk; [done |].
  simpl. destruct ((0 <? maxAge) && _); [by apply IH |].
  destruct (d_index d !! cs_ID session) as [existing|] eqn:Hid.
  - by apply IH.
  - apply IH. simpl. rewrite lookup_insert_ne; [done |]. congruence.
Qed.

Lemma cli_discover_sessions_agents (now : Time) (maxAge : Duration)
    (sessions : list CLISession) (d : discovery) (l : loc) :
  l ∈ d_agents d -> l ∈ d_agents (discover_sessions now maxAge sessions d).
Proof.
  revert d. induction sessions as [|session rest IH]; intros d Hl; [done |].
  simpl. destruct ((0 <? maxAge) && _); [by apply IH |].
  destruct (d_index d !! cs_ID session) as [existing|].
  - apply IH. simpl. apply elem_of_app. by left.
  - apply IH. simpl. apply elem_of_app. by left.
Qed.

(** The CLI provider keeps identity across [Discover] calls: an id of the
    index stays on its object, and that object is what the call returns for
    a listed session of that id that passes the age filter. *)
Lemma cli_Discover_preserves_identity (now : Time) (sessions : list CLISession)
    (p : Provider) (h : Heap OpenCodeAgent) (k : string) (l : loc) :
  p_agents p !! k = Some l ->
  let result := Discover (inr sessions) now p h in
  p_agents result.1.1 !! k = Some l /\
  (forall session, session ∈ sessions -> cs_ID session = k ->
     (0 <? p_maxAge p) && (UnixMilli (cs_Updated session) <? now - p_maxAge p) = false ->
     exists agents, result.2 = inr agents /\ l ∈ agents).
Proof.
  intros Hk. cbv zeta. unfold Discover. simpl. split.
  - by apply cli_discover_sessions_index.
  - intros session Hin Hid Hage. eexists. split; [done |].
    set (d := {| d_index := p_agents p; d_heap := h; d_agents := [] |}).
    assert (Hd : d_index d !! k = Some l) by done.
    clearbody d. revert d Hd.
    induction sessions as [|s rest IH]; intros d Hd; [by apply elem_of_nil in Hin |].
    simpl. apply elem_of_cons in Hin as [<-|Hin].
    + rewrite Hage, Hid, Hd. apply cli_discover_sessions_agents.
      simpl. apply elem_of_app. right. by apply list_elem_of_singleton.
    + destruct ((0 <? p_maxAge p) &&
                (UnixMilli (cs_Updated s) <? now - p_maxAge p)); [by apply IH |].
      destruct (d_index d !! cs_ID s) as [existing|] eqn:Hs.
      * by apply IH.
      * apply IH; [done |]. simpl. rewrite lookup_insert_ne; [done |]. congruence.
Qed.

End CLIDiscovery.

(** ** The store *)

Section Store.
Import store.

Lemma StronglySorted_filter_rows (R : relation chunk_row) (P : chunk_row -> Prop)
    `{!forall c, Decision (P c)} (l : list chunk_row) :
  StronglySorted R l -> StronglySorted R (filter P l).
Proof.
  induction 1 as [|c l Hl IH Hc]; [constructor |].
  rewrite filter_cons. destruct (decide (P c)); [| done].
  constructor; [done |].
  apply Forall_forall. intros c' Hc'. apply list_elem_of_filter in Hc' as [_ Hc'].
  rewrite Forall_forall in Hc. by apply Hc.
Qed.

Lemma insert_by_id_least (c : chunk_row) (l : list chunk_row) :
  Forall (fun c' => chunk_id c < chunk_id c') l -> insert_by_id c l = c :: l.
Proof.
  intros Hl. destruct Hl as [|c' l Hc' _]; [done |].
  simpl. by rewrite (proj2 (Z.ltb_lt _ _) Hc').
Qed.

(** [ORDER BY id ASC] changes nothing on rows that are in id order. *)
Lemma order_by_id_sorted (l : list chunk_row) :
  StronglySorted (fun c c' => chunk_id c < chunk_id c') l -> order_by_id l = l.
Proof.
  induction 1 as [|c l Hl IH Hc]; [done |].
  unfold order_by_id in *. simpl. rewrite IH. by apply insert_by_id_least.
Qed.

Lemma fold_left_append (chunks : list string) (out : string) (chunk : string) :
  fold_left (fun o c => o +:+ c) (chunks ++ [chunk]) out =
  fold_left (fun o c => o +:+ c) chunks out +:+ chunk.
Proof. by rewrite fold_left_app. Qed.

Lemma append_assoc (a b c : string) : (a +:+ b) +:+ c = a +:+ (b +:+ c).
Proof.
  induction a as [|x a IH]; [done |].
  change (String x ((a +:+ b) +:+ c) = String x (a +:+ (b +:+ c))).
  by rewrite IH.
Qed.

Lemma append_nil_r (a : string) : a +:+ "" = a.
Proof.
  induction a as [|x a IH]; [done |].
  change (String x (a +:+ "") = String x a). by rewrite IH.
Qed.

Lemma fold_left_append_from (chunks : list string) (out : string) :
  fold_left (fun o c => o +:+ c) chunks out =
  out +:+ fold_left (fun o c => o +:+ c) chunks "".
Proof.
  revert out. induction chunks as [|c chunks IH]; intros out; cbn [fold_left].
  - by rewrite append_nil_r.
  - rewrite (IH (out +:+ c)), (IH ("" +:+ c)). by rewrite append_assoc.
Qed.

(** [GetOutput] on a well-formed table: the chunks of the session, in table
    order, concatenated. *)
Lemma GetOutput_rows (s : string) (db : DB) :
  chunks_wf db ->
  GetOutput s db =
    inr (fold_left (fun o c => o +:+ c)
           (chunk_text <$> filter (fun c => chunk_session_id c = s) (output_chunks db))
           "").
Proof.
  intros [Hsorted _]. unfold GetOutput. f_equal.
  rewrite order_by_id_sorted by by apply StronglySorted_filter_rows.
  generalize "". induction (filter _ _) as [|c l IH]; intros out; [done |].
  simpl. apply IH.
Qed.

Lemma AppendOutput_wf (now : Time) (s chunk : string) (db : DB) :
  chunks_wf db -> chunks_wf (AppendOutput now s chunk db).1.
Proof.
  intros [Hsorted Hseq]. unfold chunks_wf. simpl. split.
  - apply StronglySorted_app_2; [| done | repeat constructor].
    intros c c' Hc Hc'. apply list_elem_of_singleton in Hc' as ->. simpl.
    rewrite Forall_forall in Hseq. specialize (Hseq c Hc). lia.
  - apply Forall_app. split.
    + eapply Forall_impl; [exact Hseq |]. simpl. intros c Hc. lia.
    + constructor; [simpl; lia | done].
Qed.

Lemma SaveSession_wf (rec : SessionRecord) (db : DB) :
  chunks_wf db -> chunks_wf (SaveSession rec db).1.
Proof. done. Qed.

Lemma Cleanup_wf (now : Time) (maxAgeDays : Z) (db : DB) :
  chunks_wf db -> chunks_wf (Cleanup now maxAgeDays db).1.
Proof.
  intros [Hsorted Hseq]. unfold chunks_wf. simpl. split.
  - by apply StronglySorted_filter_rows.
  - apply Forall_forall. intros c Hc. apply list_elem_of_filter in Hc as [_ Hc].
    rewrite Forall_forall in Hseq. by apply Hseq.
Qed.

Lemma store_exec_wf (c : store_call) (db : DB) :
  chunks_wf db -> chunks_wf (store_exec c db).
Proof.
  destruct c; simpl; [apply SaveSession_wf | apply AppendOutput_wf | apply Cleanup_wf].
Qed.

Lemma empty_db_wf : chunks_wf empty_db.
Proof. split; constructor. Qed.

(** The rows of one session after a history without [Cleanup]. *)
Lemma store_run_rows (s : string) (cs : list store_call) (db : DB) :
  no_cleanup cs = true ->
  chunk_text <$> filter (fun c => chunk_session_id c = s) (output_chunks (store_run cs db)) =
  (chunk_text <$> filter (fun c => chunk_session_id c = s) (output_chunks db)) ++
  appended s cs.
Proof.
  revert db. induction cs as [|c cs IH]; intros db Hcs.
  - simpl. by rewrite app_nil_r.
  - simpl in Hcs. apply andb_prop in Hcs as [Hc Hcs].
    unfold store_run in *. simpl. rewrite IH by done. clear IH.
    destruct c as [rec|now s' chunk|now d]; [done | | done].
    simpl. rewrite filter_app, fmap_app, <- app_assoc. f_equal.
    unfold appended. simpl. destruct (decide (s' = s)) as [->|Hne].
    + by rewrite filter_cons_True.
    + by rewrite filter_cons_False.
Qed.

Lemma store_run_wf (cs : list store_call) (db : DB) :
  chunks_wf db -> chunks_wf (store_run cs db).
Proof.
  revert db. induction cs as [|c cs IH]; intros db Hdb; [done |].
  apply IH. by apply store_exec_wf.
Qed.

(** C8. On a table as [AUTOINCREMENT] keeps it, [GetOutput] after
    [AppendOutput(s, c1)] and [AppendOutput(s, c2)] returns what it returned
    before followed by [c1] and then [c2], so [c1] followed by [c2] for a
    session without output; and after any history of saves and appends (to
    this and to other sessions) it returns what it returned before followed
    by the chunks appended for the session, in the order of the calls. *)
Theorem GetOutput_concatenates_in_insertion_order :
  forall (db : DB) (s : string),
    chunks_wf db ->
    exists before,
      GetOutput s db = inr before /\
      (forall now1 now2 c1 c2,
         GetOutput s (AppendOutput now2 s c2 (AppendOutput now1 s c1 db).1).1 =
           inr ((before +:+ c1) +:+ c2)) /\
      (forall cs, no_cleanup cs = true ->
         GetOutput s (store_run cs db) =
           inr (before +:+ fold_left (fun o c => o +:+ c) (appended s cs) "")).
Proof.
  intros db s Hwf. eexists. split; [by apply GetOutput_rows |]. split.
  - intros now1 now2 c1 c2.
    rewrite GetOutput_rows by by do 2 apply AppendOutput_wf.
    simpl. rewrite !filter_app, !filter_cons_True, !filter_nil by done.
    rewrite !fmap_app, !list_fmap_singleton. simpl chunk_text.
    by rewrite !fold_left_append.
  - intros cs Hcs. rewrite GetOutput_rows by by apply store_run_wf.
    rewrite store_run_rows by done.
    by rewrite fold_left_app, fold_left_append_from.
Qed.

Lemma GetOutput_concatenates_witness :
  GetOutput "ses_A" (AppendOutput 2 "ses_A" "c2"
                       (AppendOutput 1 "ses_A" "c1" empty_db).1).1 = inr "c1c2" /\
  GetOutput "ses_A"
    (store_run [DoAppendOutput 1 "ses_A" "a"; DoAppendOutput 2 "ses_B" "x";
                DoSaveSession record_A; DoAppendOutput 3 "ses_A" "b"] empty_db) =
    inr "ab".
Proof.
  destruct (GetOutput_concatenates_in_insertion_order empty_db "ses_A" empty_db_wf)
    as (before & Hbefore & Htwo & Hall).
  injection Hbefore as <-. split.
  - exact (Htwo 1 2 "c1" "c2").
  - exact (Hall [DoAppendOutput 1 "ses_A" "a"; DoAppendOutput 2 "ses_B" "x";
                 DoSaveSession record_A; DoAppendOutput 3 "ses_A" "b"] eq_refl).
Defined.

Lemma filter_none {A : Type} (P : A -> Prop) `{!forall x, Decision (P x)} (l : list A) :
  (forall x, ~ P x) -> filter P l = [].
Proof.
  intros HP. induction l as [|x l IH]; [done |].
  by rewrite filter_cons_False.
Qed.

(** [SaveSession] leaves no [NULL] in [end_time]: the column holds the
    record's [EndTime], the zero time when the field was not set. *)
Lemma SaveSession_end_time (rec : SessionRecord) (db : DB) :
  exists r, sessions (SaveSession rec db).1 !! ID rec = Some r /\
            row_end_time r = Some (EndTime rec).
Proof.
  unfold SaveSession. simpl. rewrite lookup_insert_eq.
  eexists. split; [done |]. by destruct (sessions db !! ID rec).
Qed.

(** What the statements of [Cleanup] promise: a row whose [end_time] is
    [NULL] stays, and so do the chunks that refer to it. *)
Lemma Cleanup_keeps_null_end_time (now : Time) (maxAgeDays : Z) (db : DB)
    (id : string) (r : session_row) :
  sessions db !! id = Some r -> row_end_time r = None ->
  sessions (Cleanup now maxAgeDays db).1 !! id = Some r /\
  filter (fun c => chunk_session_id c = id) (output_chunks (Cleanup now maxAgeDays db).1) =
  filter (fun c => chunk_session_id c = id) (output_chunks db).
Proof.
  intros Hr Hnull. simpl. split.
  - apply map_lookup_filter_Some. split; [done |].
    simpl. unfold ended_before. by rewrite Hnull.
  - rewrite list_filter_filter. apply list_filter_iff. intros c. split.
    + by intros [? _].
    + intros Hc. split; [done |]. rewrite Hc, Hr. unfold ended_before. by rewrite Hnull.
Qed.

(** C2, at the input it fails on. A session saved with [EndTime] not set
    (still active) is deleted by [Cleanup], with its chunks, for every
    [maxAgeDays] whose cutoff lies after the zero time, 0 included: the row
    that [SaveSession] wrote carries the zero time in [end_time], not
    [NULL], and the zero time is before the cutoff. *)
Theorem Cleanup_deletes_active_session :
  forall (db : DB) (rec : SessionRecord) (now : Time) (maxAgeDays : Z),
    EndTime rec = zeroTime ->
    zeroTime < cutoff_of now maxAgeDays ->
    let saved := (SaveSession rec db).1 in
    let cleaned := (Cleanup now maxAgeDays saved).1 in
    is_Some (sessions saved !! ID rec) /\
    sessions cleaned !! ID rec = None /\
    GetSession (ID rec) cleaned = inl "sql: no rows in result set" /\
    filter (fun c => chunk_session_id c = ID rec) (output_chunks cleaned) = [].
Proof.
  intros db rec now maxAgeDays Hend Hcut. cbv zeta.
  destruct (SaveSession_end_time rec db) as (r & Hr & Hr_end).
  assert (Hold : ended_before (cutoff_of now maxAgeDays) r = true).
  { unfold ended_before. rewrite Hr_end, Hend. by apply Z.ltb_lt. }
  assert (Hgone : sessions (Cleanup now maxAgeDays (SaveSession rec db).1).1 !! ID rec = None).
  { simpl. apply map_lookup_filter_None. right. intros r' Hr'. simpl.
    simpl in Hr. rewrite Hr in Hr'. injection Hr' as <-. by rewrite Hold. }
  split; [by rewrite Hr |]. split; [exact Hgone |]. split.
  - unfold GetSession. by rewrite Hgone.
  - cbn [Cleanup fst output_chunks]. rewrite list_filter_filter.
    apply filter_none. intros c [Hc Hkept].
    rewrite Hc, Hr, Hold in Hkept. discriminate.
Qed.

Lemma Cleanup_deletes_active_session_witness :
  is_Some (sessions db_A !! "ses_A") /\
  GetOutput "ses_A" db_A = inr "hello" /\
  sessions (Cleanup now_2026 0 db_A).1 !! "ses_A" = None /\
  GetOutput "ses_A" (Cleanup now_2026 0 db_A).1 = inr "".
Proof.
  destruct (Cleanup_deletes_active_session
              (AppendOutput now_2026 "ses_A" "hello" empty_db).1 record_A now_2026 0
              eq_refl eq_refl) as (Hsaved & Hgone & _ & Hchunks).
  split; [exact Hsaved |]. split; [vm_compute; reflexivity |].
  split; [exact Hgone |]. vm_compute. reflexivity.
Defined.

End Store.

(** * Further properties of the code *)

(** Membership in a list that is written out. *)
Ltac in_list := repeat first [apply list_elem_of_here | apply list_elem_of_further].
Ltac not_in_list H :=
  repeat (apply elem_of_cons in H as [H|H]; [discriminate H |]);
  by apply elem_of_nil in H.

(** ** The session manager: events, statistics, filters *)

Section ManagerQueries.
Context {W : Type} {agent_impl : agent.Agent W} {agent_info : agent.AgentInfo W}.
Import agent session.

(** [handleEvent] and the live map: a terminated event removes the entry
    of its id; any other event that carries an agent puts that agent under
    the id of the event, replacing what was there; any other event without
    agent changes nothing; entries under other ids are never touched. *)
Theorem handleEvent_live_map :
  forall (event : Event) (m : Manager W),
    (ev_Type event = EventAgentTerminated ->
       Get (handleEvent event m) (ev_AgentID event) = None) /\
    (ev_Type event <> EventAgentTerminated ->
       forall a, ev_Agent event = Some a ->
         Get (handleEvent event m) (ev_AgentID event) = Some a) /\
    (ev_Type event <> EventAgentTerminated -> ev_Agent event = None ->
       handleEvent event m = m) /\
    (forall id, id <> ev_AgentID event ->
       Get (handleEvent event m) id = Get m id).
Proof.
  intros event m. unfold handleEvent, Get. repeat split.
  - intros ->. simpl. apply lookup_delete_eq.
  - intros Hty a ->. destruct (ev_Type event); simpl; try apply lookup_insert_eq. done.
  - intros Hty ->. by destruct (ev_Type event).
  - intros id Hid.
    destruct (ev_Type event), (ev_Agent event); simpl;
      rewrite ?lookup_insert_ne, ?lookup_delete_ne by done; done.
Qed.

Lemma upsert_fold (w : W) (discovered : list loc) (live : gmap string loc) :
  fold_left (fun live a => <[ID a w := a]> live) discovered live =
  by_id w discovered ∪ live.
Proof.
  unfold by_id. revert live.
  induction discovered as [|a S IH]; intros live.
  - simpl. by rewrite (left_id_L ∅ (∪)).
  - rewrite fmap_cons, reverse_cons, list_to_map_app.
    cbn [fold_left]. rewrite IH. rewrite <- (assoc_L (∪)). f_equal.
    rewrite (insert_union_singleton_l live). f_equal.
Qed.

(** [Start] returns no error and enters every discovered agent under its
    id, a later one replacing an earlier one of the same id; unlike
    [Refresh] it evicts nothing: an entry whose id no discovered agent
    carries stays as it was. *)
Theorem Start_enters_discovered_agents :
  forall (it : MapIter) (m : Manager W) (w : W),
    let w' := (DiscoverAll it (registry m) w).1 in
    let S := (DiscoverAll it (registry m) w).2 in
    let m' := (Start it m w).1.1 in
    (Start it m w).2 = None /\
    agents m' = by_id w' S ∪ agents m /\
    (forall a, a ∈ S -> is_Some (agents m' !! ID a w')) /\
    (forall id, (forall a, a ∈ S -> ID a w' <> id) ->
       agents m' !! id = agents m !! id).
Proof.
  intros it m w. unfold Start.
  destruct (DiscoverAll it (registry m) w) as [w' S]. simpl.
  rewrite upsert_fold. split; [done |]. split; [done |]. split.
  - intros a Ha. apply lookup_union_is_Some. left.
    apply by_id_dom, elem_of_list_to_set, list_elem_of_fmap. by exists a.
  - intros id Hid. apply lookup_union_r.
    apply eq_None_not_Some. rewrite by_id_dom, elem_of_list_to_set, list_elem_of_fmap.
    intros (a & -> & Ha). by apply (Hid a).
Qed.

Lemma fold_left_filter_snoc {A B : Type} (P : A -> Prop) `{!forall x, Decision (P x)}
    (f : A -> B) (l : list A) (acc : list B) :
  fold_left (fun acc x => if decide (P x) then acc ++ [f x] else acc) l acc =
  acc ++ (f <$> filter P l).
Proof.
  revert acc. induction l as [|x l IH]; intros acc; simpl.
  - by rewrite app_nil_r.
  - rewrite IH, filter_cons. destruct (decide (P x)); [| done].
    by rewrite fmap_cons, <- app_assoc.
Qed.

Lemma fold_left_filter_count {A : Type} (P : A -> Prop) `{!forall x, Decision (P x)}
    (l : list A) (n : nat) :
  fold_left (fun count x => if decide (P x) then S count else count) l n =
  (n + length (filter P l))%nat.
Proof.
  revert n. induction l as [|x l IH]; intros n; simpl; [lia |].
  rewrite IH, filter_cons. destruct (decide (P x)); simpl; lia.
Qed.

Lemma fmap_filter_comp {A B : Type} (f : A -> B) (P : B -> Prop) (Q : A -> Prop)
    `{!forall y, Decision (P y)} `{!forall x, Decision (Q x)} (l : list A) :
  (forall x, Q x <-> P (f x)) ->
  f <$> filter Q l = filter P (f <$> l).
Proof.
  intros HQ. induction l as [|x l IH]; [done |].
  rewrite fmap_cons, !filter_cons.
  destruct (decide (Q x)) as [Hq|Hq], (decide (P (f x))) as [Hp|Hp].
  - by rewrite fmap_cons, IH.
  - by apply HQ in Hq.
  - by apply HQ in Hp.
  - done.
Qed.

Lemma FilterByStatus_filter (it : MapIter) (status : Status) (m : Manager W) (w : W) :
  FilterByStatus it status m w =
  filter (fun a => Status_of a w = status) (range it (agents m)).*2.
Proof.
  unfold FilterByStatus.
  rewrite (fold_left_filter_snoc (fun kv => Status_of kv.2 w = status) snd).
  simpl. by apply fmap_filter_comp.
Qed.

(** [FilterByStatus] returns the agents of the live map that have the
    status, whatever the order of its loop, and [ActiveCount] is the number
    of agents that [FilterByStatus] returns for running. *)
Theorem FilterByStatus_ActiveCount :
  forall (it it' : MapIter) (status : Status) (m : Manager W) (w : W),
    FilterByStatus it status m w ≡ₚ
      filter (fun a => Status_of a w = status) (map_to_list (agents m)).*2 /\
    (forall a, a ∈ FilterByStatus it status m w <->
       Status_of a w = status /\ exists id, agents m !! id = Some a) /\
    ActiveCount it m w = length (FilterByStatus it' StatusRunning m w).
Proof.
  intros it it' status m w. rewrite !FilterByStatus_filter. split; [| split].
  - by rewrite range_perm.
  - intros a. rewrite list_elem_of_filter, list_elem_of_fmap. split.
    + intros [Hs ([id b] & -> & Hin)]. split; [done |]. exists id.
      by apply range_lookup in Hin.
    + intros [Hs [id Hid]]. split; [done |]. exists (id, a). split; [done |].
      by apply range_lookup.
  - unfold ActiveCount.
    rewrite (fold_left_filter_count (fun kv => Status_of kv.2 w = StatusRunning)).
    simpl. rewrite <- (fmap_filter_comp snd (fun a => Status_of a w = StatusRunning)
                         (fun kv => Status_of kv.2 w = StatusRunning)) by done.
    rewrite !length_fmap. apply Permutation_length.
    by rewrite !range_perm.
Qed.

Lemma sum_counts_incr `{Countable K} (key : K) (counts : gmap K nat) :
  sum_counts (incr key counts) = S (sum_counts counts).
Proof.
  unfold sum_counts, incr.
  assert (Hcomm : forall (m : gmap K nat) (j1 j2 : K) (z1 z2 y : nat),
            j1 <> j2 -> m !! j1 = Some z1 -> m !! j2 = Some z2 ->
            (z1 + (z2 + y) = z2 + (z1 + y))%nat) by (intros; lia).
  destruct (counts !! key) as [n|] eqn:Hkey; simpl.
  - rewrite <- insert_delete_eq.
    rewrite map_fold_insert_L; [| by apply Hcomm | apply lookup_delete_eq].
    rewrite (map_fold_delete_L _ _ key n counts); [lia | by apply Hcomm | done].
  - rewrite map_fold_insert_L; [lia | by apply Hcomm | done].
Qed.

Lemma incr_lookup `{Countable K} (key k : K) (counts : gmap K nat) :
  default 0%nat (incr key counts !! k) =
  ((if decide (key = k) then 1 else 0) + default 0%nat (counts !! k))%nat.
Proof.
  unfold incr. destruct (decide (key = k)) as [->|Hne].
  - by rewrite lookup_insert_eq.
  - by rewrite lookup_insert_ne.
Qed.

Lemma incr_fold `{Countable K} {A : Type} (g : A -> K) (l : list A) (counts : gmap K nat) :
  sum_counts (fold_left (fun c x => incr (g x) c) l counts) =
    (sum_counts counts + length l)%nat /\
  forall k, default 0%nat (fold_left (fun c x => incr (g x) c) l counts !! k) =
            (default 0%nat (counts !! k) + length (filter (fun x => g x = k) l))%nat.
Proof.
  revert counts. induction l as [|x l IH]; intros counts; simpl.
  - split; [lia |]. intros k. lia.
  - destruct (IH (incr (g x) counts)) as [IH1 IH2]. split.
    + rewrite IH1, sum_counts_incr. lia.
    + intros k. rewrite IH2, incr_lookup, filter_cons.
      destruct (decide (g x = k)); simpl; lia.
Qed.

Lemma Manager_Stats_fold (w : W) (l : list (string * loc)) (st : Stats) :
  let step := fun stats (kv : string * loc) =>
    let a := kv.2 in
    let metrics := Metrics_of a w in
    {| Total := Total stats;
       ByStatus := incr (Status_of a w) (ByStatus stats);
       ByType := incr (Type_of a w) (ByType stats);
       ByProject := incr (ProjectID a w) (ByProject stats);
       TotalTokensIn := wrap64 (TotalTokensIn stats + TokensIn metrics);
       TotalTokensOut := wrap64 (TotalTokensOut stats + TokensOut metrics);
       TotalToolCalls := wrap64 (TotalToolCalls stats + ToolCalls metrics);
       TotalErrors := wrap64 (TotalErrors stats + ErrorCount metrics) |} in
  Total (fold_left step l st) = Total st /\
  ByStatus (fold_left step l st) =
    fold_left (fun c kv => incr (Status_of kv.2 w) c) l (ByStatus st) /\
  ByType (fold_left step l st) =
    fold_left (fun c kv => incr (Type_of kv.2 w) c) l (ByType st) /\
  ByProject (fold_left step l st) =
    fold_left (fun c kv => incr (ProjectID kv.2 w) c) l (ByProject st).
Proof.
  cbv zeta. revert st. induction l as [|kv l IH]; intros st; [done |].
  cbn [fold_left]. destruct (IH
    {| Total := Total st;
       ByStatus := incr (Status_of kv.2 w) (ByStatus st);
       ByType := incr (Type_of kv.2 w) (ByType st);
       ByProject := incr (ProjectID kv.2 w) (ByProject st);
       TotalTokensIn := wrap64 (TotalTokensIn st + TokensIn (Metrics_of kv.2 w));
       TotalTokensOut := wrap64 (TotalTokensOut st + TokensOut (Metrics_of kv.2 w));
       TotalToolCalls := wrap64 (TotalToolCalls st + ToolCalls (Metrics_of kv.2 w));
       TotalErrors := wrap64 (TotalErrors st + ErrorCount (Metrics_of kv.2 w)) |})
    as (H1 & H2 & H3 & H4).
  by rewrite H1, H2, H3, H4.
Qed.

Lemma range_length (it : MapIter) (V : Type) (m : gmap string V) :
  length (range it m) = size m.
Proof. by rewrite range_perm, length_map_to_list. Qed.

(** [Stats]: the total is the number of agents [List] returns; the
    counters by status, by type and by project each add up to the total;
    and the counter of a status is the number of agents [FilterByStatus]
    returns for it. *)
Theorem Manager_Stats_counts :
  forall (it it' : MapIter) (m : Manager W) (w : W),
    let stats := Manager_Stats it m w in
    Total stats = length (List it' m) /\
    sum_counts (ByStatus stats) = Total stats /\
    sum_counts (ByType stats) = Total stats /\
    sum_counts (ByProject stats) = Total stats /\
    (forall status, default 0%nat (ByStatus stats !! status) =
                    length (FilterByStatus it' status m w)).
Proof.
  intros it it' m w. cbv zeta. unfold Manager_Stats.
  pose proof (Manager_Stats_fold w (range it (agents m))
    {| Total := size (agents m); ByStatus := ∅; ByType := ∅; ByProject := ∅;
       TotalTokensIn := 0; TotalTokensOut := 0; TotalToolCalls := 0;
       TotalErrors := 0 |}) as Hfold.
  cbv zeta in Hfold. destruct Hfold as (H1 & H2 & H3 & H4).
  rewrite H1, H2, H3, H4. simpl. clear H1 H2 H3 H4.
  assert (Hempty : forall K `{Countable K}, sum_counts (∅ : gmap K nat) = 0%nat).
  { intros. unfold sum_counts. apply map_fold_empty. }
  split; [| split; [| split; [| split]]].
  - unfold List. rewrite fold_left_snoc. simpl.
    by rewrite length_map, range_length.
  - destruct (incr_fold (fun kv : string * loc => Status_of kv.2 w)
                (range it (agents m)) ∅) as [-> _].
    by rewrite Hempty, range_length.
  - destruct (incr_fold (fun kv : string * loc => Type_of kv.2 w)
                (range it (agents m)) ∅) as [-> _].
    by rewrite Hempty, range_length.
  - destruct (incr_fold (fun kv : string * loc => ProjectID kv.2 w)
                (range it (agents m)) ∅) as [-> _].
    by rewrite Hempty, range_length.
  - intros status.
    destruct (incr_fold (fun kv : string * loc => Status_of kv.2 w)
                (range it (agents m)) ∅) as [_ ->].
    rewrite lookup_empty. simpl. rewrite FilterByStatus_filter.
    rewrite <- (fmap_filter_comp snd (fun a => Status_of a w = status)
                  (fun kv => Status_of kv.2 w = status)) by done.
    rewrite length_fmap. apply Permutation_length. by rewrite !range_perm.
Qed.

Lemma group_fold (key : loc -> string) (l : list (string * loc))
    (groups : gmap string (list loc)) (k : string) :
  fold_left
    (fun groups kv => <[key kv.2 := default [] (groups !! key kv.2) ++ [kv.2]]> groups)
    l groups !! k =
  match (filter (fun kv => key kv.2 = k) l).*2 with
  | [] => groups !! k
  | members => Some (default [] (groups !! k) ++ members)
  end.
Proof.
  revert groups. induction l as [|kv l IH]; intros groups; [done |].
  cbn [fold_left]. rewrite IH, filter_cons. clear IH.
  destruct (decide (key kv.2 = k)) as [<-|Hne].
  - rewrite fmap_cons, lookup_insert_eq. simpl.
    destruct ((filter _ l).*2) as [|a members]; [done |].
    by rewrite <- app_assoc.
  - by rewrite lookup_insert_ne.
Qed.

Lemma group_agents_lookup (it : MapIter) (mode : string) (m : Manager W) (w : W)
    (k : string) (members : list loc) :
  group_agents it mode m w !! k = Some members <->
  members <> [] /\
  members = (filter (fun kv => group_key mode kv.2 w = k) (range it (agents m))).*2.
Proof.
  unfold group_agents.
  rewrite (group_fold (fun a => group_key mode a w)), lookup_empty. simpl.
  destruct ((filter _ _).*2) as [|a rest]; split.
  - done.
  - by intros [? ->].
  - by intros [= <-].
  - by intros [_ ->].
Qed.

(** [GroupBy]: no two groups have the same name; a group holds, in the
    order the agents were visited, exactly the agents whose key (type,
    project, status, or [all] for any other mode) is its name, and it is
    never empty; every agent of the live map is in the group named by its
    key. *)
Theorem GroupBy_groups :
  forall (it1 it2 : MapIter) (mode : string) (m : Manager W) (w : W),
    let groups := GroupBy it1 it2 mode m w in
    NoDup (Group_Name <$> groups) /\
    (forall g, g ∈ groups ->
       Group_Agents g <> [] /\
       Group_Agents g =
         (filter (fun kv => group_key mode kv.2 w = Group_Name g)
                 (range it1 (agents m))).*2) /\
    (forall id a, agents m !! id = Some a ->
       exists g, g ∈ groups /\ Group_Name g = group_key mode a w /\
                 a ∈ Group_Agents g).
Proof.
  intros it1 it2 mode m w. cbv zeta. unfold GroupBy.
  rewrite (fold_left_snoc (fun kv => {| Group_Name := kv.1; Group_Agents := kv.2 |})).
  simpl. split; [| split].
  - change (map ?f ?l) with (f <$> l). rewrite <- list_fmap_compose.
    change (NoDup (range it2 (group_agents it1 mode m w)).*1).
    rewrite range_perm. apply NoDup_fst_map_to_list.
  - intros g Hg. change (map ?f ?l) with (f <$> l) in Hg.
    apply list_elem_of_fmap in Hg as ([k members] & -> & Hin). simpl.
    apply range_lookup in Hin. by apply group_agents_lookup.
  - intros id a Hid.
    set (members := (filter (fun kv => group_key mode kv.2 w = group_key mode a w)
                            (range it1 (agents m))).*2).
    assert (Ha : a ∈ members).
    { apply list_elem_of_fmap. exists (id, a). split; [done |].
      apply list_elem_of_filter. split; [done |]. by apply range_lookup. }
    exists {| Group_Name := group_key mode a w; Group_Agents := members |}.
    split; [| done].
    change (map ?f ?l) with (f <$> l).
    apply list_elem_of_fmap. exists (group_key mode a w, members). split; [done |].
    apply range_lookup, group_agents_lookup. split; [| done].
    intros Hnil. rewrite Hnil in Ha. by apply elem_of_nil in Ha.
Qed.

Lemma latest_fold (f : string * loc -> Time) (l : list (string * loc)) (init : Time) :
  let latest := fold_left (fun latest kv => if latest <? f kv then f kv else latest) l init in
  init <= latest /\
  (forall kv, kv ∈ l -> f kv <= latest) /\
  (latest = init \/ exists kv, kv ∈ l /\ f kv = latest).
Proof.
  cbv zeta. revert init. induction l as [|kv l IH]; intros init; simpl.
  - split; [lia |]. split; [| by left]. intros kv Hkv. by apply elem_of_nil in Hkv.
  - destruct (IH (if init <? f kv then f kv else init)) as (H1 & H2 & H3).
    destruct (Z.ltb_spec init (f kv)) as [Hlt|Hge].
    + split; [lia |]. split.
      * intros kv' [->|Hin]%elem_of_cons; [done | by apply H2].
      * right. destruct H3 as [->|(kv' & Hin & <-)].
        -- exists kv. split; [by left | done].
        -- exists kv'. split; [by right | done].
    + split; [done |]. split.
      * intros kv' [->|Hin]%elem_of_cons; [lia | by apply H2].
      * destruct H3 as [->|(kv' & Hin & <-)]; [by left |].
        right. exists kv'. split; [by right | done].
Qed.

(** [LastActivityTime] is at least the last activity of every agent of the
    live map; it is the last activity of one of them, or the zero time
    (an empty map, or no activity after the zero time); and it does not
    depend on the order of the loop. *)
Theorem LastActivityTime_is_latest :
  forall (it it' : MapIter) (m : Manager W) (w : W),
    let latest := LastActivityTime it m w in
    (forall id a, agents m !! id = Some a -> LastActivity a w <= latest) /\
    (latest = zeroTime \/
     exists id a, agents m !! id = Some a /\ LastActivity a w = latest) /\
    LastActivityTime it' m w = latest.
Proof.
  assert (Hone : forall it m w,
    zeroTime <= LastActivityTime it m w /\
    (forall id a, agents m !! id = Some a ->
       LastActivity a w <= LastActivityTime it m w) /\
    (LastActivityTime it m w = zeroTime \/
     exists id a, agents m !! id = Some a /\
                  LastActivity a w = LastActivityTime it m w)).
  { intros it m w. unfold LastActivityTime.
    pose proof (latest_fold (fun kv => LastActivity kv.2 w)
                  (range it (agents m)) zeroTime) as Hl.
    cbv zeta in Hl. destruct Hl as (H1 & H2 & H3).
    split; [done |]. split.
    - intros id a Hid. apply (H2 (id, a)). by apply range_lookup.
    - destruct H3 as [->|([id a] & Hin & Heq)]; [by left |].
      right. exists id, a. apply range_lookup in Hin. by split. }
  intros it it' m w. cbv zeta.
  destruct (Hone it m w) as (H0 & Hub & Hatt).
  destruct (Hone it' m w) as (H0' & Hub' & Hatt').
  split; [done |]. split; [done |].
  assert (LastActivityTime it m w <= LastActivityTime it' m w).
  { destruct Hatt as [->|(id & a & Hid & <-)]; [done | by eapply Hub']. }
  assert (LastActivityTime it' m w <= LastActivityTime it m w).
  { destruct Hatt' as [->|(id & a & Hid & <-)]; [done | by eapply Hub]. }
  lia.
Qed.

End ManagerQueries.

(** ** The case-insensitive search *)

Section CaseInsensitive.
Import session.

Lemma lower_idemp (c : ascii) : lower (lower c) = lower c.
Proof. destruct c as [[] [] [] [] [] [] [] []]; reflexivity. Qed.

Lemma lowered_length (s : string) : String.length (lowered s) = String.length s.
Proof. induction s as [|c s IH]; [done |]. simpl. by rewrite IH. Qed.

Lemma lowered_idemp (s : string) : lowered (lowered s) = lowered s.
Proof.
  induction s as [|c s IH]; [done |]. simpl. by rewrite lower_idemp, IH.
Qed.

Lemma lowered_substring (i n : nat) (s : string) :
  lowered (substring i n s) = substring i n (lowered s).
Proof.
  revert i n. induction s as [|c s IH]; intros i n.
  - by destruct i, n.
  - destruct i as [|i].
    + destruct n as [|n]; [done |]. simpl. by rewrite IH.
    + simpl. apply IH.
Qed.

Lemma substring_full (s : string) : substring 0 (String.length s) s = s.
Proof. induction s as [|c s IH]; [done |]. simpl. by rewrite IH. Qed.

Lemma equalFold_bytes_lowered (s t : string) :
  String.length s = String.length t ->
  equalFold_bytes s t = true <-> lowered s = lowered t.
Proof.
  revert t. induction s as [|a s IH]; intros [|b t] Hlen; try done.
  simpl. injection Hlen as Hlen.
  destruct (Ascii.eqb (lower a) (lower b)) eqn:Hab.
  - apply Ascii.eqb_eq in Hab. rewrite Hab, (IH t Hlen).
    split; [by intros -> | by intros [= ->]].
  - apply Ascii.eqb_neq in Hab. split; [done |]. by intros [= ? _].
Qed.

Lemma equalFold_lowered (s t : string) :
  equalFold s t = true <-> lowered s = lowered t.
Proof.
  unfold equalFold.
  destruct (Nat.eqb_spec (String.length s) (String.length t)) as [Hlen|Hlen]; simpl.
  - by apply equalFold_bytes_lowered.
  - split; [done |]. intros Heq. destruct Hlen.
    by rewrite <- (lowered_length s), Heq, lowered_length.
Qed.

Lemma contains_from_spec (n i : nat) (s substr : string) :
  contains_from n i s substr = true <->
  exists j, (i <= j < i + n)%nat /\
            equalFold (substring j (String.length substr) s) substr = true.
Proof.
  revert i. induction n as [|n IH]; intros i; simpl.
  - split; [done |]. intros (j & Hj & _). lia.
  - destruct (equalFold (substring i (String.length substr) s) substr) eqn:Hi.
    + split; [| done]. intros _. exists i. split; [lia | done].
    + rewrite IH. split.
      * intros (j & Hj & Heq). exists j. split; [lia | done].
      * intros (j & Hj & Heq). exists j. split; [| done].
        destruct (decide (j = i)) as [->|]; [congruence | lia].
Qed.

Lemma containsIgnoreCase_iff (s substr : string) :
  containsIgnoreCase s substr = true <->
  exists i, (i + String.length substr <= String.length s)%nat /\
            lowered (substring i (String.length substr) s) = lowered substr.
Proof.
  unfold containsIgnoreCase.
  destruct (Nat.ltb_spec (String.length s) (String.length substr)) as [Hlt|Hge].
  - split; [done |]. intros (i & Hi & _). lia.
  - rewrite contains_from_spec. split.
    + intros (j & Hj & Heq). exists j. split; [lia |]. by apply equalFold_lowered.
    + intros (i & Hi & Heq). exists i. split; [lia |]. by apply equalFold_lowered.
Qed.

Lemma containsIgnoreCase_lowered (s substr : string) :
  containsIgnoreCase (lowered s) (lowered substr) = containsIgnoreCase s substr.
Proof.
  apply eq_true_iff_eq. rewrite !containsIgnoreCase_iff, !lowered_length.
  split; intros (i & Hi & Heq); exists i; (split; [done |]).
  - by rewrite <- lowered_substring, !lowered_idemp in Heq.
  - by rewrite <- lowered_substring, !lowered_idemp.
Qed.

Lemma containsIgnoreCase_refl (s : string) : containsIgnoreCase s s = true.
Proof.
  apply containsIgnoreCase_iff. exists 0%nat. split; [lia |]. by rewrite substring_full.
Qed.

(** [containsIgnoreCase(s, substr)] holds exactly when, at some offset
    where it fits, the piece of [s] as long as [substr] equals [substr] once
    the bytes [A]..[Z] of both are lowered; the answer does not depend on
    the letter case of either argument, and every string contains itself. *)
Theorem containsIgnoreCase_spec :
  forall (s substr : string),
    (containsIgnoreCase s substr = true <->
       exists i, (i + String.length substr <= String.length s)%nat /\
                 lowered (substring i (String.length substr) s) = lowered substr) /\
    containsIgnoreCase (lowered s) (lowered substr) = containsIgnoreCase s substr /\
    containsIgnoreCase s s = true.
Proof.
  intros s substr. split; [apply containsIgnoreCase_iff |].
  split; [apply containsIgnoreCase_lowered | apply containsIgnoreCase_refl].
Qed.

End CaseInsensitive.

(** ** The registry *)

Section RegistryFacts.
Context {W : Type}.
Import agent.

(** Registering and looking up: a registered provider is found under its
    type and the other types are as before; registering a second provider
    of a type replaces the first; [List] returns each registered provider
    once, one per type, so as many as there are types. *)
Theorem Register_Get_List :
  forall (it : MapIter) (p : Provider W) (r : Registry W),
    Get (Register p r) (Provider_Type p) = Some p /\
    (forall t, t <> Provider_Type p -> Get (Register p r) t = Get r t) /\
    (forall q, Provider_Type q = Provider_Type p ->
       Register q (Register p r) = Register q r) /\
    length (List it (Register p r)) = size (providers (Register p r)) /\
    (forall q, q ∈ List it r <-> exists t, Get r t = Some q).
Proof.
  intros it p r. unfold Get, Register, List. simpl. repeat split.
  - apply lookup_insert_eq.
  - intros t Ht. by apply lookup_insert_ne.
  - intros q Hq. simpl. by rewrite Hq, insert_insert_eq.
  - rewrite fold_left_snoc. simpl. rewrite length_map.
    by rewrite range_perm, length_map_to_list.
  - rewrite fold_left_snoc. simpl. intros Hq.
    change (map ?f ?l) with (f <$> l) in Hq.
    apply list_elem_of_fmap in Hq as ([t q'] & -> & Hin).
    exists t. by apply range_lookup in Hin.
  - rewrite fold_left_snoc. simpl. intros [t Ht].
    change (map ?f ?l) with (f <$> l).
    apply list_elem_of_fmap. exists (t, q). split; [done |]. by apply range_lookup.
Qed.


End RegistryFacts.

(** ** The file-watch agent: what its operations keep and produce *)

Section AgentFacts.
Import agent opencode.

Lemma same_identity_refl (a : OpenCodeAgent) : same_identity a a.
Proof. by repeat split. Qed.

Lemma same_identity_trans (a b c : OpenCodeAgent) :
  same_identity a b -> same_identity b c -> same_identity a c.
Proof.
  unfold same_identity. intros (?&?&?&?&?&?&?) (?&?&?&?&?&?&?).
  repeat split; congruence.
Qed.

Lemma determineStatus_identity (disk : Disk) (now : Time) (a : OpenCodeAgent) :
  same_identity a (determineStatus disk now a) /\
  messages (determineStatus disk now a) = messages a /\
  loaded (determineStatus disk now a) = loaded a /\
  name (determineStatus disk now a) = name a.
Proof.
  unfold determineStatus. destruct (last (messages a)); [| by repeat split].
  cbv zeta. by destruct (scan_messages _ _ _ _ _) as [[s t]|]; repeat split.
Qed.

Lemma loadMessages_identity (disk : Disk) (a : OpenCodeAgent) :
  same_identity a (loadMessages disk a).1 /\
  status (loadMessages disk a).1 = status a.
Proof.
  unfold loadMessages. cbv zeta. by destruct (ReadDir disk _); repeat split.
Qed.

Lemma exec_identity (c : call) (a : OpenCodeAgent) : same_identity a (exec c a).
Proof.
  assert (Hload : forall disk now, same_identity a (LoadFullHistory disk now a)).
  { intros disk now. unfold LoadFullHistory.
    destruct (loaded a); [apply same_identity_refl |].
    eapply same_identity_trans; [apply (loadMessages_identity disk a) |].
    apply (determineStatus_identity disk now (loadMessages disk a).1). }
  destruct c as [disk now|disk now|disk now|run input| | |]; simpl;
    try apply Hload; try (by repeat split).
  - unfold Refresh. destruct (read_session disk (sessionFile a)) as [e|session];
      [apply same_identity_refl |].
    set (a1 := set_lastActivity _ _).
    assert (H1 : same_identity a a1) by by repeat split.
    pose proof (loadMessages_identity disk a1) as [H2 _].
    destruct (loadMessages disk a1) as [a2 [e|]]; simpl in *.
    + by eapply same_identity_trans.
    + eapply same_identity_trans; [exact H1 |].
      eapply same_identity_trans; [exact H2 |].
      apply determineStatus_identity.
  - unfold SendInput. destruct (String.eqb input ""); apply same_identity_refl.
Qed.

(** No sequence of calls on an agent object changes which session it is:
    id, directory, project, parent, start time, storage path and session
    file stay what [NewOpenCodeAgent] made them. *)
Theorem calls_keep_identity :
  forall (cs : list call) (a : OpenCodeAgent), same_identity a (run_calls cs a).
Proof.
  intros cs. induction cs as [|c cs IH]; intros a; [apply same_identity_refl |].
  unfold run_calls. simpl. eapply same_identity_trans; [apply (exec_identity c) |].
  apply IH.
Qed.

(** A [Refresh] that returns an error has changed neither the status nor
    the messages of the agent. *)
Theorem Refresh_error_keeps_status :
  forall (disk : Disk) (now : Time) (a : OpenCodeAgent),
    (Refresh disk now a).2 <> None ->
    status (Refresh disk now a).1 = status a /\
    messages (Refresh disk now a).1 = messages a.
Proof.
  intros disk now a. unfold Refresh, loadMessages. cbv zeta.
  destruct (read_session disk (sessionFile a)) as [e|session]; [done |].
  simpl. by destruct (ReadDir disk _).
Qed.

Lemma Refresh_error_witness :
  status (Refresh disk_gone now_A (Terminate agent_A).1).1 = StatusCancelled /\
  messages (Refresh disk_gone now_A (Terminate agent_A).1).1 = [msg_1].
Proof.
  apply (Refresh_error_keeps_status disk_gone now_A (Terminate agent_A).1).
  discriminate.
Defined.

Lemma determineStatus_overwrites (disk : Disk) (now : Time) (a : OpenCodeAgent)
    (s : Status) :
  determineStatus disk now (set_status s a) = determineStatus disk now a.
Proof.
  unfold determineStatus. simpl. destruct (last (messages a)); [| done].
  cbv zeta. by destruct (scan_messages _ _ _ _ _) as [[s' t]|].
Qed.

Lemma determineStatus_shape (disk : Disk) (now : Time) (a : OpenCodeAgent) :
  exists s, determineStatus disk now a = set_status s a \/
            exists t, determineStatus disk now a = set_lastActivity t (set_status s a).
Proof.
  unfold determineStatus. destruct (last (messages a)); [| by eexists; left].
  cbv zeta. destruct (scan_messages _ _ _ _ _) as [[s t]|]; eexists; right; by eexists.
Qed.

Lemma Refresh_stable :
  forall (disk : Disk) (now : Time) (a : OpenCodeAgent),
    Refresh disk now (Refresh disk now a).1 = Refresh disk now a.
Proof.
  intros disk now a. unfold Refresh.
  destruct (read_session disk (sessionFile a)) as [e|session] eqn:Hrs.
  { simpl. by rewrite Hrs. }
  unfold loadMessages. cbv zeta. simpl (storagePath _). simpl (id _).
  destruct (ReadDir disk (Join (Join (storagePath a) "message") (id a))) eqn:Hrd.
  - cbn [fst snd].
    set (a2 := set_messages _ _).
    destruct (determineStatus_shape disk now a2) as [s Hs].
    assert (Hst : exists s', forall X, 
       set_messages X (set_lastActivity (UnixMilli (sd_Updated session)) (set_name (sd_Title session) (determineStatus disk now a2))) = set_status s' (set_messages X (set_lastActivity (UnixMilli (sd_Updated session)) (set_name (sd_Title session) a)))).
    { destruct Hs as [->|[t ->]]; exists s; intros X; by destruct a. }
    destruct Hst as [s' Hst].
    assert (Hsf : sessionFile (determineStatus disk now a2) = sessionFile a).
    { destruct Hs as [->|[t ->]]; done. }
    rewrite Hsf, Hrs.
    assert (Hp : Join (Join (storagePath (determineStatus disk now a2)) "message") (id (determineStatus disk now a2)) = Join (Join (storagePath a) "message") (id a)).
    { destruct Hs as [->|[t ->]]; done. }
    simpl (storagePath (set_lastActivity _ _)). simpl (id (set_lastActivity _ _)).
    rewrite Hp, Hrd. cbn [fst snd].
    rewrite Hst. by rewrite determineStatus_overwrites.
  - cbn [fst snd].
    set (a1 := set_lastActivity _ _).
    destruct (determineStatus_shape disk now a1) as [s Hs].
    assert (Hst : exists s',
       set_lastActivity (UnixMilli (sd_Updated session))
         (set_name (sd_Title session) (determineStatus disk now a1)) =
       set_status s' a1).
    { destruct Hs as [->|[t ->]]; exists s; by destruct a. }
    destruct Hst as [s' Hst].
    assert (Hsf : sessionFile (determineStatus disk now a1) = sessionFile a).
    { by destruct Hs as [->|[t ->]]. }
    assert (Hp : Join (Join (storagePath (determineStatus disk now a1)) "message")
                   (id (determineStatus disk now a1)) =
                 Join (Join (storagePath a) "message") (id a)).
    { by destruct Hs as [->|[t ->]]. }
    rewrite Hsf, Hrs.
    simpl (storagePath (set_lastActivity _ _)). simpl (id (set_lastActivity _ _)).
    rewrite Hp, Hrd. cbn [fst snd].
    rewrite Hst. by rewrite determineStatus_overwrites.
  - cbn [fst snd]. simpl (sessionFile _). rewrite Hrs.
    simpl (storagePath _). simpl (id _). rewrite Hrd. cbn [fst snd].
    done.
Qed.

(** [Refresh] is idempotent: against the same disk and clock, a second
    [Refresh] returns the same error and leaves the agent as the first
    left it. *)
Theorem Refresh_idempotent :
  forall (disk : Disk) (now : Time) (a : OpenCodeAgent),
    Refresh disk now (Refresh disk now a).1 = Refresh disk now a.
Proof. exact Refresh_stable. Qed.

Lemma insert_by_created_perm (m : MessageData) (l : list MessageData) :
  insert_by_created m l ≡ₚ m :: l.
Proof.
  induction l as [|x l IH]; [done |]. simpl.
  destruct (md_Created m <? md_Created x); [done |].
  rewrite IH. apply Permutation_swap.
Qed.

Lemma insert_by_created_sorted (m : MessageData) (l : list MessageData) :
  StronglySorted (fun x y => md_Created x <= md_Created y) l ->
  StronglySorted (fun x y => md_Created x <= md_Created y) (insert_by_created m l).
Proof.
  induction 1 as [|x l Hl IH Hx]; simpl; [repeat constructor |].
  destruct (Z.ltb_spec (md_Created m) (md_Created x)) as [Hlt|Hge].
  - constructor; [by constructor |].
    constructor; [lia |]. eapply Forall_impl; [exact Hx |]. simpl. intros y Hy. lia.
  - constructor; [done |].
    rewrite insert_by_created_perm. by constructor.
Qed.

Lemma sort_by_created_spec (l : list MessageData) :
  StronglySorted (fun x y => md_Created x <= md_Created y) (sort_by_created l) /\
  sort_by_created l ≡ₚ l.
Proof.
  unfold sort_by_created.
  assert (Hgen : forall acc,
    StronglySorted (fun x y => md_Created x <= md_Created y) acc ->
    StronglySorted (fun x y => md_Created x <= md_Created y)
      (fold_left (fun acc m => insert_by_created m acc) l acc) /\
    fold_left (fun acc m => insert_by_created m acc) l acc ≡ₚ l ++ acc).
  { induction l as [|m l IH]; intros acc Hacc; simpl; [done |].
    destruct (IH (insert_by_created m acc)) as [H1 H2];
      [by apply insert_by_created_sorted |].
    split; [done |]. rewrite H2, insert_by_created_perm.
    by rewrite Permutation_middle. }
  destruct (Hgen []) as [H1 H2]; [constructor |].
  split; [done |]. by rewrite H2, app_nil_r.
Qed.

(** When the message directory can be listed, [loadMessages] leaves the
    readable messages of the session, each once, ordered by creation time;
    so the last message, from which [determineStatus] measures the time, is
    a newest one. *)
Theorem loadMessages_sorted :
  forall (disk : Disk) (a : OpenCodeAgent) (entries : list DirEntry),
    let messagesPath := Join (Join (storagePath a) "message") (id a) in
    ReadDir disk messagesPath = DirEntries entries ->
    let loaded := messages (loadMessages disk a).1 in
    loaded ≡ₚ read_entries (read_message disk) messagesPath entries /\
    StronglySorted (fun x y => md_Created x <= md_Created y) loaded /\
    (forall lastMsg, last loaded = Some lastMsg ->
       forall m, m ∈ loaded -> md_Created m <= md_Created lastMsg).
Proof.
  intros disk a entries messagesPath Hrd. unfold loadMessages. cbv zeta.
  fold messagesPath. rewrite Hrd. simpl.
  destruct (sort_by_created_spec (read_entries (read_message disk) messagesPath entries))
    as [Hsorted Hperm].
  split; [done |]. split; [done |].
  intros lastMsg Hlast m Hm.
  set (M := sort_by_created _) in *. clearbody M.
  destruct (decide (M = [])) as [->|Hne]; [done |].
  destruct (exists_last Hne) as (front & x & ->).
  rewrite last_snoc in Hlast. injection Hlast as ->.
  apply elem_of_app in Hm as [Hm|Hm].
  - apply StronglySorted_app in Hsorted as (Hle & _ & _).
    apply Hle; [done | by left].
  - apply list_elem_of_singleton in Hm as ->. lia.
Qed.

Lemma loadMessages_sorted_witness :
  messages (loadMessages disk_A agent_A).1 ≡ₚ [msg_1].
Proof.
  destruct (loadMessages_sorted disk_A agent_A [json "msg_1.json"] eq_refl) as [H _].
  exact H.
Defined.

Lemma substring_0_length (n : nat) (s : string) :
  String.length (substring 0 n s) = Nat.min n (String.length s).
Proof.
  revert n. induction s as [|c s IH]; intros [|n]; try done.
  simpl. by rewrite IH.
Qed.

(** [Name]: the title when there is one; otherwise the id cut down to its
    first eight bytes; so it is empty only for an agent with neither title
    nor id. The CLI agent has the same getter. *)
Theorem Name_falls_back_to_id :
  forall (a : OpenCodeAgent),
    (name a <> "" -> Name a = name a) /\
    (name a = "" ->
       Name a = substring 0 8 (id a) /\
       String.length (Name a) = Nat.min 8 (String.length (id a))) /\
    (Name a = "" <-> name a = "" /\ id a = "").
Proof.
  intros a. unfold Name.
  assert (Hcut : (if (8 <? String.length (id a))%nat then substring 0 8 (id a) else id a)
                 = substring 0 8 (id a)).
  { destruct (Nat.ltb_spec 8 (String.length (id a))) as [Hlt|Hge]; [done |].
    destruct (id a) as [|c0 [|c1 [|c2 [|c3 [|c4 [|c5 [|c6 [|c7 [|c8 s]]]]]]]]];
      try done. simpl in Hge. lia. }
  rewrite Hcut.
  destruct (String.eqb_spec (name a) "") as [Hn|Hn].
  - split; [done |]. split.
    + intros _. split; [done |]. apply substring_0_length.
    + split.
      * intros H0. split; [done |]. by destruct (id a).
      * intros [_ ->]. done.
  - split; [done |]. split; [done |]. split; [done | by intros [? _]].
Qed.

Lemma Name_witness :
  Name agent_A = "Fix bug" /\
  Name (set_name "" agent_A) = "ses_A".
Proof.
  split.
  - apply (Name_falls_back_to_id agent_A). discriminate.
  - destruct (Name_falls_back_to_id (set_name "" agent_A)) as (_ & H & _).
    exact (proj1 (H eq_refl)).
Defined.

Lemma determineStatus_status (disk : Disk) (now : Time) (a : OpenCodeAgent) :
  status (determineStatus disk now a) ∈
    [StatusPending; StatusRunning; StatusIdle; StatusCompleted; StatusErrored].
Proof.
  unfold determineStatus. destruct (last (messages a)); [| simpl; in_list].
  cbv zeta. rewrite scan_messages_find.
  destruct (List.find _ _) as [part|]; simpl.
  - unfold verdict. destruct (is_running part); simpl; in_list.
  - unfold window. repeat case_match; in_list.
Qed.

Lemma exec_no_context_limit (c : call) (a : OpenCodeAgent) :
  status a <> StatusContextLimit -> status (exec c a) <> StatusContextLimit.
Proof.
  intros Ha.
  assert (Hd : forall disk now b, status (determineStatus disk now b) <> StatusContextLimit).
  { intros disk now b Hb. pose proof (determineStatus_status disk now b) as Hin.
    rewrite Hb in Hin. not_in_list Hin. }
  destruct c as [disk now|disk now|disk now|run input| | |]; simpl; try done.
  - unfold Refresh, loadMessages. cbv zeta.
    destruct (read_session disk (sessionFile a)) as [e|session]; [done |].
    simpl. destruct (ReadDir disk _); simpl; [apply Hd | apply Hd | done].
  - unfold LoadFullHistory. destruct (loaded a); [done | apply Hd].
  - unfold LoadFullHistory. destruct (loaded a); [done | apply Hd].
  - unfold SendInput. by destruct (String.eqb input "").
Qed.

(** The file-watch agent never reports [context_limit]: an agent made by
    [NewOpenCodeAgent] is running, idle or completed, and no sequence of
    calls on it leads to that status. *)
Theorem never_context_limit :
  forall (disk : Disk) (now : Time) (storage path : string) (a : OpenCodeAgent)
         (cs : list call),
    NewOpenCodeAgent disk now storage path = inr a ->
    status a ∈ [StatusRunning; StatusIdle; StatusCompleted] /\
    status (run_calls cs a) <> StatusContextLimit.
Proof.
  intros disk now storage path a cs Hnew.
  assert (Hst : status a ∈ [StatusRunning; StatusIdle; StatusCompleted]).
  { unfold NewOpenCodeAgent in Hnew.
    destruct (read_session disk path) as [e|session]; [done |].
    injection Hnew as <-. simpl. unfold window. repeat case_match; in_list. }
  split; [done |].
  assert (Ha : status a <> StatusContextLimit).
  { intros Heq. rewrite Heq in Hst. not_in_list Hst. }
  clear Hst Hnew. revert a Ha.
  induction cs as [|c cs IH]; intros a Ha; [done |].
  unfold run_calls. simpl. apply IH. by apply exec_no_context_limit.
Qed.

Lemma never_context_limit_witness :
  status (run_calls [CallRefresh disk_A now_A; CallTerminate; CallRefresh disk_A now_A]
            new_agent_A)
    <> StatusContextLimit.
Proof.
  apply (never_context_limit disk_A now_A "/s" "/s/session/global/ses_A.json" new_agent_A
           [CallRefresh disk_A now_A; CallTerminate; CallRefresh disk_A now_A]).
  vm_compute. reflexivity.
Defined.

End AgentFacts.

(** ** The file-watch provider: the index and its agents *)

Section ProviderFacts.
Import agent opencode.

Lemma fold_left_count_if {A : Type} (p : A -> bool) (l : list A) (n : nat) :
  fold_left (fun count x => if p x then S count else count) l n =
  (n + length (filter (fun x => p x = true) l))%nat.
Proof.
  revert n. induction l as [|x l IH]; intros n; simpl; [lia |].
  rewrite IH, filter_cons. destruct (p x); case_decide; try done; simpl; lia.
Qed.

Lemma fold_left_snoc_filter_if {A B : Type} (p : A -> bool) (f : A -> B)
    (l : list A) (acc : list B) :
  fold_left (fun acc x => if p x then acc ++ [f x] else acc) l acc =
  acc ++ (f <$> filter (fun x => p x = true) l).
Proof.
  revert acc. induction l as [|x l IH]; intros acc; simpl.
  - by rewrite app_nil_r.
  - rewrite IH, filter_cons. destruct (p x); case_decide; try done.
    by rewrite fmap_cons, <- app_assoc.
Qed.

(** [ChildCount] is the number of agents [GetChildren] returns, in whatever
    order each of the two walks the index; and the primary agents are the
    children of no parent. *)
Theorem ChildCount_length_GetChildren :
  forall (it it' : MapIter) (p : Provider) (parent : string) (h : Heap OpenCodeAgent),
    ChildCount it p parent h = length (GetChildren it' p parent h) /\
    ListPrimary it p h = GetChildren it p "" h.
Proof.
  intros it it' p parent h. split.
  - unfold ChildCount, GetChildren.
    rewrite (fold_left_count_if
               (fun kv => holds (fun a => String.eqb (parentID a) parent) h kv.2)).
    rewrite (fold_left_snoc_filter_if
               (fun kv => holds (fun a => String.eqb (parentID a) parent) h kv.2) snd).
    simpl. rewrite length_fmap. apply Permutation_length.
    apply filter_Permutation. by rewrite !range_perm.
  - unfold ListPrimary, GetChildren.
    rewrite (fold_left_snoc_filter_if
               (fun kv => holds (fun a => negb (IsBackground a)) h kv.2) snd).
    rewrite (fold_left_snoc_filter_if
               (fun kv => holds (fun a => String.eqb (parentID a) "") h kv.2) snd).
    f_equal. f_equal. apply list_filter_iff. intros kv. unfold holds, IsBackground.
    destruct (objs h !! kv.2); [by rewrite negb_involutive | done].
Qed.

(** [Get], [Terminate] and [SendInput] of the provider. For an id the index
    does not hold, all three fail with the same error and write nothing. For
    an id it holds, [Get] returns the object of the index; [Terminate]
    leaves that object cancelled and otherwise as it was; [SendInput]
    writes no object, refuses an empty input before any command is run, and
    otherwise returns what the command for that session ended in. *)
Theorem Provider_control_by_id :
  forall (run : string -> string -> string -> option error) (p : Provider)
         (id input : string) (h : Heap OpenCodeAgent),
    match p_agents p !! id with
    | None =>
        Provider_Get p id = inl ("agent not found: " +:+ id) /\
        Provider_Terminate p id h = (h, Some ("agent not found: " +:+ id)) /\
        Provider_SendInput run p id input h = (h, Some ("agent not found: " +:+ id))
    | Some l =>
        Provider_Get p id = inr l /\
        forall a, objs h !! l = Some a ->
          Provider_Terminate p id h =
            ({| objs := <[l := set_status StatusCancelled a]> (objs h);
                next := next h |}, None) /\
          same_identity a (set_status StatusCancelled a) /\
          messages (set_status StatusCancelled a) = messages a /\
          Provider_SendInput run p id input h =
            (h, if String.eqb input "" then Some "empty input"
                else run (opencode.id a) (directory a) input)
    end.
Proof.
  intros run p id input h. unfold Provider_Get, Provider_Terminate, Provider_SendInput.
  destruct (p_agents p !! id) as [l|]; [| done].
  split; [done |]. intros a Ha. unfold call_on. rewrite Ha. simpl.
  split; [done |]. split; [by repeat split |]. split; [done |].
  unfold SendInput.
  destruct (String.eqb input ""); rewrite insert_id by done; by destruct h.
Qed.

Lemma refreshAll_refreshed (it : MapIter) (disk : Disk) (now : Time) (p : Provider)
    (h : Heap OpenCodeAgent) :
  refreshed p now h (refreshAll it disk now p h) (size (p_agents p)).
Proof.
  unfold refreshAll.
  rewrite <- (range_length it _ (p_agents p)).
  assert (Hin : forall kv, kv ∈ range it (p_agents p) -> p_agents p !! kv.1 = Some kv.2).
  { intros [k l] Hkv. by apply range_lookup in Hkv. }
  assert (H0 : refreshed p now h (h, []) 0).
  { repeat split; simpl; [| lia | constructor].
    intros l. destruct (objs h !! l); [apply same_identity_refl | done]. }
  match goal with |- context [fold_left ?F _ _] => set (step := F) end.
  enough (Hloop : forall kvs n acc,
            refreshed p now h acc n ->
            (forall kv, kv ∈ kvs -> p_agents p !! kv.1 = Some kv.2) ->
            refreshed p now h (fold_left step kvs acc) (n + length kvs)).
  { by apply (Hloop _ 0%nat). }
  clear Hin H0. intros kvs.
  induction kvs as [|kv kvs IH]; intros n acc Hacc Hin.
  - simpl. rewrite Nat.add_0_r. exact Hacc.
  - simpl. replace (n + S (length kvs))%nat with (S n + length kvs)%nat by lia.
    apply IH; [| intros kv' Hkv'; apply Hin; by right].
    unfold step.
    destruct Hacc as (Hnext & Hobjs & Hlen & Hev).
    destruct (objs acc.1 !! kv.2) as [a|] eqn:Ha.
    2:{ repeat split; [done | done | simpl; lia | done]. }
    assert (Hid : same_identity a (Refresh disk now a).1)
      by apply (exec_identity (CallRefresh disk now) a).
    assert (Hobjs' : forall l,
              match objs h !! l, <[kv.2 := (Refresh disk now a).1]> (objs acc.1) !! l with
              | Some a0, Some a' => same_identity a0 a'
              | None, None => True
              | _, _ => False
              end).
    { intros l. destruct (decide (l = kv.2)) as [->|Hne].
      - rewrite lookup_insert_eq. specialize (Hobjs kv.2). rewrite Ha in Hobjs.
        destruct (objs h !! kv.2); [| done]. by eapply same_identity_trans.
      - rewrite lookup_insert_ne by done. apply Hobjs. }
    cbv zeta. destruct (decide _) as [Heq|Hne].
    + repeat split; simpl; [done | done | lia | done].
    + repeat split; simpl; [done | done | rewrite length_app; simpl; lia |].
      apply Forall_app. split; [done |]. apply Forall_singleton. simpl.
      split; [| split; [done |]].
      * unfold event_type_for. destruct (status (Refresh disk now a).1); in_list.
      * specialize (Hobjs kv.2). rewrite Ha in Hobjs.
        destruct (objs h !! kv.2) as [a0|] eqn:Ha0; [| done].
        exists kv.1, kv.2, a0. repeat split; [apply Hin; by left | done |].
        destruct Hobjs as (Hid0 & _). destruct Hid as (Hid1 & _). congruence.
Qed.

(** One pass of [refreshAll] makes and loses no object, and each object
    stays the same session. It sends at most one event per agent of the
    index; each event carries an agent of the index and its id, and says
    that the agent started, completed, failed or was updated. *)
Theorem refreshAll_events :
  forall (it : MapIter) (disk : Disk) (now : Time) (p : Provider) (h : Heap OpenCodeAgent),
    let result := refreshAll it disk now p h in
    next result.1 = next h /\
    (forall l, match objs h !! l, objs result.1 !! l with
               | Some a, Some a' => same_identity a a'
               | None, None => True
               | _, _ => False
               end) /\
    (length result.2 <= size (p_agents p))%nat /\
    Forall (fun e =>
              ev_Type e ∈ [EventAgentStarted; EventAgentCompleted; EventAgentErrored;
                           EventAgentUpdated] /\
              ev_Timestamp e = now /\
              exists k l a, p_agents p !! k = Some l /\ objs h !! l = Some a /\
                            ev_Agent e = Some l /\ ev_AgentID e = id a) result.2.
Proof. intros it disk now p h. exact (refreshAll_refreshed it disk now p h). Qed.

Lemma refreshAll_settles (it : MapIter) (disk : Disk) (now : Time) (p : Provider)
    (h : Heap OpenCodeAgent) (k : string) (l : loc) (a : OpenCodeAgent) :
  p_agents p !! k = Some l ->
  objs (refreshAll it disk now p h).1 !! l = Some a ->
  settled disk now a.
Proof.
  intros Hk. apply range_lookup with (it := it) in Hk.
  assert (Hl : l ∈ (range it (p_agents p)).*2).
  { apply list_elem_of_fmap. by exists (k, l). }
  clear Hk. unfold refreshAll.
  match goal with |- context [fold_left ?F _ _] => set (step := F) end.
  enough (Hloop : forall kvs acc l a,
            objs (fold_left step kvs acc).1 !! l = Some a ->
            settled disk now a \/ (objs acc.1 !! l = Some a /\ l ∉ kvs.*2)).
  { intros Ha. destruct (Hloop _ _ _ _ Ha) as [|[_ Hn]]; [done | by destruct Hn]. }
  clear. intros kvs. induction kvs as [|kv kvs IH]; intros acc l a Ha.
  - right. split; [done | apply not_elem_of_nil].
  - simpl in Ha. apply IH in Ha as [Hs|[Ha Hn]]; [by left |].
    unfold step in Ha. destruct (objs acc.1 !! kv.2) as [a0|] eqn:Ha0.
    + cbv zeta in Ha.
      assert (Ha' : <[kv.2 := (Refresh disk now a0).1]> (objs acc.1) !! l = Some a)
        by (by destruct (decide _)).
      destruct (decide (l = kv.2)) as [->|Hne].
      * rewrite lookup_insert_eq in Ha'. injection Ha' as <-. left.
        unfold settled. by rewrite Refresh_stable.
      * rewrite lookup_insert_ne in Ha' by done. right. split; [done |].
        rewrite fmap_cons. apply not_elem_of_cons. by split.
    + right. split; [done |]. rewrite fmap_cons. apply not_elem_of_cons.
      split; [congruence | done].
Qed.

Lemma refreshAll_settled (it : MapIter) (disk : Disk) (now : Time) (p : Provider)
    (h : Heap OpenCodeAgent) :
  (forall k l a, p_agents p !! k = Some l -> objs h !! l = Some a -> settled disk now a) ->
  refreshAll it disk now p h = (h, []).
Proof.
  intros Hset. unfold refreshAll.
  assert (Hin : forall kv, kv ∈ range it (p_agents p) -> p_agents p !! kv.1 = Some kv.2).
  { intros [k l] Hkv. by apply range_lookup in Hkv. }
  revert Hin. generalize (range it (p_agents p)). intros kvs.
  induction kvs as [|kv kvs IH]; intros Hin; [done |].
  simpl. destruct (objs h !! kv.2) as [a|] eqn:Ha.
  - assert (Hs : (Refresh disk now a).1 = a).
    { apply (Hset kv.1 kv.2); [apply Hin; by left | done]. }
    rewrite Hs, decide_True by done. rewrite insert_id by done.
    destruct h as [o n]. simpl. apply IH. intros kv' Hkv'. apply Hin. by right.
  - apply IH. intros kv' Hkv'. apply Hin. by right.
Qed.

(** A second pass of [refreshAll] over the same disk, at the same reading
    of the clock, sends no event and writes nothing: every status change
    is reported once. *)
Theorem refreshAll_again_is_quiet :
  forall (it it' : MapIter) (disk : Disk) (now : Time) (p : Provider)
         (h : Heap OpenCodeAgent),
    let first := refreshAll it disk now p h in
    refreshAll it' disk now p first.1 = (first.1, []).
Proof.
  intros it it' disk now p h. cbv zeta. apply refreshAll_settled.
  intros k l a Hk Ha. by apply (refreshAll_settles it disk now p h k l a).
Qed.



End ProviderFacts.

(** ** The session manager: [Search] *)

Section SearchFacts.
Context {W : Type} {agent_impl : agent.Agent W}.
Import agent session.

Lemma containsIgnoreCase_query_case (s substr : string) :
  containsIgnoreCase s (lowered substr) = containsIgnoreCase s substr.
Proof.
  apply eq_true_iff_eq. rewrite !containsIgnoreCase_iff, !lowered_length.
  by rewrite lowered_idemp.
Qed.

Lemma Search_filter (it : MapIter) (query : string) (m : Manager W) (w : W) :
  Search it query m w =
  (filter (fun kv => matches query kv.2 w = true) (range it (agents m))).*2.
Proof.
  unfold Search.
  by rewrite (fold_left_snoc_filter_if (fun kv => matches query kv.2 w) snd).
Qed.

(** [Search] returns the agents of the live map whose name, id, directory
    or current task contains the query, letter case ignored; the order of
    the loop decides only the order of the result; the case of the query
    does not matter; and an agent is found by its own id. *)
Theorem Search_matches :
  forall (it it' : MapIter) (query : string) (m : Manager W) (w : W),
    (forall a, a ∈ Search it query m w <->
       matches query a w = true /\ exists id, agents m !! id = Some a) /\
    Search it' query m w ≡ₚ Search it query m w /\
    Search it (lowered query) m w = Search it query m w /\
    (forall id a, agents m !! id = Some a -> a ∈ Search it (ID a w) m w).
Proof.
  intros it it' query m w.
  assert (Hin : forall q a, a ∈ Search it q m w <->
            matches q a w = true /\ exists id, agents m !! id = Some a).
  { intros q a. rewrite Search_filter, list_elem_of_fmap. split.
    - intros ([id a'] & -> & Hf). apply list_elem_of_filter in Hf as [Hm Hr].
      split; [done |]. exists id. by apply range_lookup in Hr.
    - intros (Hm & id & Hid). exists (id, a). split; [done |].
      apply list_elem_of_filter. split; [done |]. by apply range_lookup. }
  split; [apply Hin |]. split; [| split].
  - rewrite !Search_filter. apply fmap_Permutation, filter_Permutation.
    by rewrite !range_perm.
  - rewrite !Search_filter. f_equal. apply list_filter_iff. intros kv.
    unfold matches. by rewrite !containsIgnoreCase_query_case.
  - intros id a Hid. apply Hin. split; [| by exists id].
    unfold matches. rewrite (containsIgnoreCase_refl (ID a w)).
    by rewrite orb_true_r.
Qed.

End SearchFacts.

(** ** The CLI provider: polling *)

Section CLIPolling.
Import agent opencode_cli.

(** The status the CLI agent derives is one of three. *)
Lemma cli_determineStatus_status (now : Time) (a : OpenCodeAgent) :
  status (determineStatus now a) ∈ [StatusRunning; StatusIdle; StatusCompleted] /\
  id (determineStatus now a) = id a /\
  lastActivity (determineStatus now a) = lastActivity a /\
  name (determineStatus now a) = name a.
Proof.
  unfold determineStatus. cbv zeta.
  repeat case_match; simpl; (split; [in_list | done]).
Qed.

Lemma poll_event_type_not_errored (oldStatus newStatus : Status) :
  newStatus <> StatusErrored -> poll_event_type oldStatus newStatus <> EventAgentErrored.
Proof.
  intros Hne. unfold poll_event_type.
  destruct (_ && bool_decide (newStatus = StatusRunning)); [done |].
  destruct (_ && bool_decide (newStatus = StatusCompleted)); [done |].
  by rewrite (bool_decide_eq_false_2 (newStatus = StatusErrored)), andb_false_r.
Qed.

Lemma poll_sessions_grows (now : Time) (maxAge : Duration)
    (sessions : list CLISession) (st : polling) :
  let st' := poll_sessions now maxAge sessions st in
  pl_index st ⊆ pl_index st' /\
  (exists new, pl_events st' = pl_events st ++ new /\
     Forall (fun e => ev_Type e ∈ [EventAgentDiscovered; EventAgentUpdated;
                                    EventAgentStarted; EventAgentCompleted]) new).
Proof.
  cbv zeta. revert st. induction sessions as [|s rest IH]; intros st.
  - simpl. split; [done |]. exists []. by rewrite app_nil_r.
  - simpl. destruct ((0 <? maxAge) && _); [apply IH |].
    destruct (pl_index st !! cs_ID s) as [existing|] eqn:Hix.
    + destruct (objs (pl_heap st) !! existing) as [a|]; [| apply IH].
      destruct (bool_decide _ || _).
      * destruct (IH {| pl_index := pl_index st;
                        pl_heap := {| objs := <[existing := Update now s a]>
                                                (objs (pl_heap st));
                                      next := next (pl_heap st) |};
                        pl_events := pl_events st ++
                          [{| ev_Type := poll_event_type (status a)
                                           (status (Update now s a));
                              ev_AgentID := id (Update now s a);
                              ev_Agent := Some existing; ev_Timestamp := now |}] |})
          as (Hsub & new & Hev & Hnew).
        split; [done |]. simpl in Hev. eexists. rewrite Hev, <- app_assoc.
        split; [done |]. apply Forall_cons. split; [| done]. simpl.
        pose proof (cli_determineStatus_status now
          {| id := id a; name := cs_Title s; directory := directory a;
             projectID := projectID a; parentID := parentID a; status := status a;
             startTime := startTime a;
             lastActivity := UnixMilli (cs_Updated s) |}) as (Hst & _).
        fold (Update now s a) in Hst.
        assert (Hne : poll_event_type (status a) (status (Update now s a))
                      <> EventAgentErrored).
        { apply poll_event_type_not_errored. intros Heq. rewrite Heq in Hst.
          not_in_list Hst. }
        revert Hne. unfold poll_event_type. repeat case_match; intros; try done; in_list.
      * match goal with |- context [poll_sessions _ _ _ ?st'] =>
          destruct (IH st') as (Hsub & new & Hev & Hnew) end.
        split; [done |]. by exists new.
    + destruct (IH {| pl_index := <[cs_ID s := next (pl_heap st)]> (pl_index st);
                      pl_heap := (alloc (NewOpenCodeAgentFromCLI now s) (pl_heap st)).2;
                      pl_events := pl_events st ++
                        [{| ev_Type := EventAgentDiscovered;
                            ev_AgentID := id (NewOpenCodeAgentFromCLI now s);
                            ev_Agent := Some (next (pl_heap st));
                            ev_Timestamp := now |}] |})
        as (Hsub & new & Hev & Hnew).
      split.
      * etrans; [| exact Hsub]. simpl. by apply insert_subseteq.
      * simpl in Hev. eexists. rewrite Hev, <- app_assoc. split; [done |].
        apply Forall_cons. split; [simpl; in_list | done].
Qed.

(** One poll never removes an agent from the index, and the events it sends
    are of four types only: an agent found, updated, started or completed.
    No event says that an agent failed, since the status this provider
    derives is running, idle or completed. A listing that failed changes
    nothing and sends nothing. *)
Theorem pollForChanges_events :
  forall (fetched : error + list CLISession) (now : Time) (p : Provider)
         (h : Heap OpenCodeAgent),
    let result := pollForChanges fetched now p h in
    p_agents p ⊆ p_agents result.1.1 /\
    Forall (fun e => ev_Type e ∈ [EventAgentDiscovered; EventAgentUpdated;
                                   EventAgentStarted; EventAgentCompleted]) result.2 /\
    (forall e, fetched = inl e -> result = (p, h, [])).
Proof.
  intros fetched now p h. cbv zeta. destruct fetched as [e|sessions]; simpl.
  - repeat split; [done | constructor].
  - destruct (poll_sessions_grows now (p_maxAge p) sessions
                {| pl_index := p_agents p; pl_heap := h; pl_events := [] |})
      as (Hsub & new & Hev & Hnew).
    simpl in Hev, Hsub. rewrite Hev. repeat split; [done | done | done].
Qed.

Lemma Update_id (now : Time) (s : CLISession) (a : OpenCodeAgent) :
  id (Update now s a) = id a.
Proof. unfold Update, determineStatus. cbv zeta. by repeat case_match. Qed.

Lemma Update_Update (now : Time) (s : CLISession) (a : OpenCodeAgent) :
  up_to_date now s (Update now s a).
Proof.
  unfold up_to_date, Update, determineStatus. cbv zeta. cbn [lastActivity].
  destruct (now - UnixMilli (cs_Updated s) <? 60 * Second) eqn:H1;
    [done |].
  by destruct (now - UnixMilli (cs_Updated s) <? 30 * Minute) eqn:H2.
Qed.

Lemma Update_New (now : Time) (s : CLISession) :
  up_to_date now s (NewOpenCodeAgentFromCLI now s).
Proof.
  unfold up_to_date, Update, NewOpenCodeAgentFromCLI, determineStatus. cbv zeta.
  cbn [lastActivity].
  destruct (now - UnixMilli (cs_Updated s) <? 60 * Second) eqn:H1;
    [done |].
  by destruct (now - UnixMilli (cs_Updated s) <? 30 * Minute) eqn:H2.
Qed.

(** One turn of the loop of [pollForChanges], for a session that passes the
    age filter. *)
Lemma poll_sessions_cons (now : Time) (maxAge : Duration) (s : CLISession)
    (rest : list CLISession) (st : polling) :
  exists st1,
    poll_sessions now maxAge (s :: rest) st = poll_sessions now maxAge rest st1 /\
    (index_wf (pl_index st) (pl_heap st) -> index_wf (pl_index st1) (pl_heap st1)) /\
    (listed now maxAge s = false -> st1 = st) /\
    (index_wf (pl_index st) (pl_heap st) -> listed now maxAge s = true ->
       exists l a, pl_index st1 !! cs_ID s = Some l /\
                   objs (pl_heap st1) !! l = Some a /\ up_to_date now s a) /\
    (index_wf (pl_index st) (pl_heap st) ->
       forall k l a, k <> cs_ID s -> pl_index st !! k = Some l ->
         objs (pl_heap st) !! l = Some a ->
         pl_index st1 !! k = Some l /\ objs (pl_heap st1) !! l = Some a).
Proof.
  simpl. unfold listed.
  destruct ((0 <? maxAge) && (UnixMilli (cs_Updated s) <? now - maxAge)) eqn:Hage.
  { exists st. split; [done |]. split; [done |]. split; [done |].
    split; [intros _ Hf; discriminate Hf | by intros _ k l a _ Hk Ha]. }
  destruct (pl_index st !! cs_ID s) as [existing|] eqn:Hix.
  - destruct (objs (pl_heap st) !! existing) as [a|] eqn:Ha.
    + exists {| pl_index := pl_index st;
                pl_heap := {| objs := <[existing := Update now s a]> (objs (pl_heap st));
                              next := next (pl_heap st) |};
                pl_events :=
                  if bool_decide (status a <> status (Update now s a)) ||
                     negb (lastActivity a =? lastActivity (Update now s a))
                  then pl_events st ++
                         [{| ev_Type := poll_event_type (status a)
                                          (status (Update now s a));
                             ev_AgentID := id (Update now s a);
                             ev_Agent := Some existing; ev_Timestamp := now |}]
                  else pl_events st |}.
      split; [by destruct (bool_decide _ || _) |]. simpl.
      split; [| split; [done |]; split].
      * intros Hwf k l Hk. destruct (Hwf k l Hk) as (Hl & a0 & Ha0 & Hid).
        split; [done |]. simpl. destruct (decide (l = existing)) as [->|Hne].
        -- rewrite lookup_insert_eq. eexists. split; [done |].
           rewrite Update_id. by simplify_eq.
        -- rewrite lookup_insert_ne by done. by exists a0.
      * intros _ _. exists existing, (Update now s a).
        rewrite lookup_insert_eq. split; [done |]. split; [done |]. apply Update_Update.
      * intros Hwf k l a0 Hk Hl Ha0. split; [done |].
        rewrite lookup_insert_ne; [done |]. intros <-.
        destruct (Hwf _ _ Hix) as (_ & a1 & Ha1 & Hid1).
        destruct (Hwf _ _ Hl) as (_ & a2 & Ha2 & Hid2). by simplify_eq.
    + exists st. split; [done |]. split; [done |]. split; [done |].
      split; [| by intros _ k l a _ Hk Ha'].
      intros Hwf _. destruct (Hwf _ _ Hix) as (_ & a & Ha' & _). by simplify_eq.
  - exists {| pl_index := <[cs_ID s := next (pl_heap st)]> (pl_index st);
              pl_heap := (alloc (NewOpenCodeAgentFromCLI now s) (pl_heap st)).2;
              pl_events := pl_events st ++
                [{| ev_Type := EventAgentDiscovered;
                    ev_AgentID := id (NewOpenCodeAgentFromCLI now s);
                    ev_Agent := Some (next (pl_heap st)); ev_Timestamp := now |}] |}.
    split; [done |]. simpl. split; [| split; [done |]; split].
    + intros Hwf k l Hk. simpl in *. destruct (decide (k = cs_ID s)) as [->|Hne].
      * rewrite lookup_insert_eq in Hk. injection Hk as <-. split; [lia |].
        rewrite lookup_insert_eq. eexists. split; [done |].
        unfold NewOpenCodeAgentFromCLI, determineStatus. cbv zeta. by repeat case_match.
      * rewrite lookup_insert_ne in Hk by done.
        destruct (Hwf k l Hk) as (Hl & a0 & Ha0 & Hid). split; [lia |].
        rewrite lookup_insert_ne by lia. by exists a0.
    + intros _ _. exists (next (pl_heap st)), (NewOpenCodeAgentFromCLI now s).
      rewrite !lookup_insert_eq. split; [done |]. split; [done |]. apply Update_New.
    + intros Hwf k l a0 Hk Hl Ha0. rewrite lookup_insert_ne by done. split; [done |].
      destruct (Hwf _ _ Hl) as (Hlt & _). simpl. by rewrite lookup_insert_ne by lia.
Qed.

Lemma poll_sessions_syncs (now : Time) (maxAge : Duration)
    (sessions : list CLISession) (st : polling) :
  index_wf (pl_index st) (pl_heap st) ->
  NoDup (cs_ID <$> sessions) ->
  let st' := poll_sessions now maxAge sessions st in
  index_wf (pl_index st') (pl_heap st') /\
  (forall s, s ∈ sessions -> listed now maxAge s = true ->
     exists l a, pl_index st' !! cs_ID s = Some l /\
                 objs (pl_heap st') !! l = Some a /\ up_to_date now s a) /\
  (forall k l a, k ∉ cs_ID <$> sessions -> pl_index st !! k = Some l ->
     objs (pl_heap st) !! l = Some a ->
     pl_index st' !! k = Some l /\ objs (pl_heap st') !! l = Some a).
Proof.
  cbv zeta. revert st. induction sessions as [|s rest IH]; intros st Hwf Hnd.
  { simpl. split; [done |]. split; [| done]. intros s Hs. by apply elem_of_nil in Hs. }
  rewrite fmap_cons in Hnd. apply NoDup_cons in Hnd as [Hs Hnd].
  destruct (poll_sessions_cons now maxAge s rest st)
    as (st1 & -> & Hwf1 & Hskip & Hsync & Hframe).
  specialize (Hwf1 Hwf). destruct (IH st1 Hwf1 Hnd) as (Hwf' & Hsync' & Hframe').
  split; [done |]. split.
  - intros s' Hs' Hl. apply elem_of_cons in Hs' as [->|Hs']; [| by apply Hsync'].
    destruct (Hsync Hwf Hl) as (l & a & Hix & Ha & Hup).
    exists l, a. destruct (Hframe' _ _ _ Hs Hix Ha). done.
  - intros k l a Hk Hix Ha. rewrite fmap_cons in Hk. apply not_elem_of_cons in Hk as [Hk1 Hk2].
    destruct (Hframe Hwf k l a Hk1 Hix Ha) as [Hix1 Ha1]. by apply Hframe'.
Qed.

Lemma poll_sessions_quiet (now : Time) (maxAge : Duration)
    (sessions : list CLISession) (st : polling) :
  (forall s, s ∈ sessions -> listed now maxAge s = true ->
     exists l a, pl_index st !! cs_ID s = Some l /\
                 objs (pl_heap st) !! l = Some a /\ up_to_date now s a) ->
  poll_sessions now maxAge sessions st = st.
Proof.
  induction sessions as [|s rest IH]; intros Hup; [done |].
  simpl. pose proof (Hup s) as Hs. unfold listed in Hs.
  destruct ((0 <? maxAge) && (UnixMilli (cs_Updated s) <? now - maxAge)).
  { apply IH. intros s' Hs'. apply Hup. by right. }
  destruct Hs as (l & a & Hix & Ha & Hupd); [by left | done |].
  rewrite Hix, Ha. unfold up_to_date in Hupd. rewrite Hupd.
  rewrite bool_decide_eq_false_2 by (by intros H). rewrite Z.eqb_refl. simpl.
  rewrite insert_id by done.
  replace {| pl_index := pl_index st;
             pl_heap := {| objs := objs (pl_heap st); next := next (pl_heap st) |};
             pl_events := pl_events st |} with st by (by destruct st as [? [] ?]).
  apply IH. intros s' Hs'. apply Hup. by right.
Qed.

(** A second poll that is given the same listing at the same reading of
    the clock finds every agent up to date: it sends no event and writes
    nothing. *)
Theorem pollForChanges_again_is_quiet :
  forall (sessions : list CLISession) (now : Time) (p : Provider)
         (h : Heap OpenCodeAgent),
    index_wf (p_agents p) h ->
    NoDup (cs_ID <$> sessions) ->
    let first := pollForChanges (inr sessions) now p h in
    index_wf (p_agents first.1.1) first.1.2 /\
    pollForChanges (inr sessions) now first.1.1 first.1.2 = (first.1.1, first.1.2, []).
Proof.
  intros sessions now p h Hwf Hnd. cbv zeta. unfold pollForChanges. simpl.
  destruct (poll_sessions_syncs now (p_maxAge p) sessions
              {| pl_index := p_agents p; pl_heap := h; pl_events := [] |} Hwf Hnd)
    as (Hwf' & Hsync & _).
  split; [done |].
  by rewrite poll_sessions_quiet.
Qed.

End CLIPolling.

(** ** The store: sessions, alerts and [Cleanup] *)

Section StoreFacts.
Import store.

(** *** Sessions *)

(** [SaveSession] then [GetSession]. Under a new id the record is read back
    as it was saved. Under an id the table holds, the row keeps the agent,
    the name, the directory, the project and the start time it was first
    saved with, and takes the rest from the record. No other row changes. *)
Theorem SaveSession_GetSession :
  forall (rec : SessionRecord) (db : DB),
    let db' := (SaveSession rec db).1 in
    (SaveSession rec db).2 = None /\
    (forall id, id <> ID rec -> GetSession id db' = GetSession id db) /\
    match GetSession (ID rec) db with
    | inl _ => GetSession (ID rec) db' = inr rec
    | inr old =>
        GetSession (ID rec) db' =
        inr {| ID := ID old; AgentID := AgentID old; AgentType := AgentType old;
               AgentName := AgentName old; Directory := Directory old;
               ProjectID := ProjectID old; Status := Status rec;
               StartTime := StartTime old; EndTime := EndTime rec;
               LastActivity := LastActivity rec; TokensIn := TokensIn rec;
               TokensOut := TokensOut rec; ToolCalls := ToolCalls rec;
               ErrorCount := ErrorCount rec; Output := Output rec;
               Metadata := Metadata rec |}
    end.
Proof.
  intros rec db. cbv zeta. split; [done |]. split.
  - intros id Hid. unfold GetSession, SaveSession. simpl.
    by rewrite lookup_insert_ne.
  - unfold GetSession, SaveSession. simpl. rewrite lookup_insert_eq.
    destruct (sessions db !! ID rec) as [old|]; simpl; [done |].
    by destruct rec.
Qed.

(** *** [ORDER BY ... DESC] *)









(** *** Alerts *)

Lemma insert_by_timestamp_perm (a : alert_row) (l : list alert_row) :
  insert_by_timestamp a l ≡ₚ a :: l.
Proof.
  induction l as [|x l IH]; [done |]. simpl.
  destruct (alert_timestamp x <? alert_timestamp a); [done |].
  rewrite IH. apply Permutation_swap.
Qed.

Lemma order_by_timestamp_desc_perm (l : list alert_row) :
  order_by_timestamp_desc l ≡ₚ l.
Proof.
  induction l as [|x l IH]; [done |]. unfold order_by_timestamp_desc in *. simpl.
  by rewrite insert_by_timestamp_perm, IH.
Qed.

Lemma insert_by_timestamp_sorted (a : alert_row) (l : list alert_row) :
  StronglySorted (fun x y => alert_timestamp y <= alert_timestamp x) l ->
  StronglySorted (fun x y => alert_timestamp y <= alert_timestamp x)
    (insert_by_timestamp a l).
Proof.
  induction 1 as [|x l Hl IH Hx]; simpl; [repeat constructor |].
  destruct (alert_timestamp x <? alert_timestamp a) eqn:Hlt.
  - apply Z.ltb_lt in Hlt. constructor; [by constructor |].
    constructor; [lia |]. eapply Forall_impl; [exact Hx |]. simpl. lia.
  - apply Z.ltb_ge in Hlt. constructor; [done |].
    rewrite insert_by_timestamp_perm. by constructor.
Qed.

Lemma order_by_timestamp_desc_sorted (l : list alert_row) :
  StronglySorted (fun x y => alert_timestamp y <= alert_timestamp x)
    (order_by_timestamp_desc l).
Proof.
  induction l as [|x l IH]; [constructor |]. by apply insert_by_timestamp_sorted.
Qed.

(** Inserting into rows that are in order and then selecting is selecting
    and then inserting. *)
Lemma filter_insert_by_timestamp (P : alert_row -> Prop) `{!forall a, Decision (P a)}
    (a : alert_row) (l : list alert_row) :
  StronglySorted (fun x y => alert_timestamp y <= alert_timestamp x) l ->
  filter P (insert_by_timestamp a l) =
  if decide (P a) then insert_by_timestamp a (filter P l) else filter P l.
Proof.
  induction 1 as [|x l Hl IH Hx].
  { simpl. rewrite filter_cons, filter_nil. by destruct (decide (P a)). }
  simpl. destruct (alert_timestamp x <? alert_timestamp a) eqn:Hlt.
  - rewrite (filter_cons _ a). destruct (decide (P a)) as [Ha|Ha]; [| done].
    f_equal. rewrite filter_cons. destruct (decide (P x)) as [Hpx|Hpx].
    + simpl. by rewrite Hlt.
    + apply Z.ltb_lt in Hlt.
      assert (Hall : Forall (fun y => alert_timestamp y < alert_timestamp a) (filter P l)).
      { apply Forall_forall. intros y Hy. apply list_elem_of_filter in Hy as [_ Hy].
        rewrite Forall_forall in Hx. specialize (Hx y Hy). lia. }
      destruct Hall as [|y l' Hy _]; [done |]. simpl.
      by rewrite (proj2 (Z.ltb_lt _ _) Hy).
  - rewrite (filter_cons _ x), IH, (filter_cons _ x).
    destruct (decide (P x)) as [Hpx|Hpx]; [| done].
    destruct (decide (P a)); [| done]. simpl. by rewrite Hlt.
Qed.

Lemma filter_order_by_timestamp_desc (P : alert_row -> Prop)
    `{!forall a, Decision (P a)} (l : list alert_row) :
  filter P (order_by_timestamp_desc l) = order_by_timestamp_desc (filter P l).
Proof.
  induction l as [|a l IH]; [done |].
  rewrite filter_cons. unfold order_by_timestamp_desc in *. simpl.
  rewrite filter_insert_by_timestamp by apply order_by_timestamp_desc_sorted.
  rewrite IH. by destruct (decide (P a)).
Qed.

Lemma filter_fmap_scan_alert (id : string) (l : list alert_row) :
  filter (fun r => Alert_ID r <> id) (scan_alert <$> l) =
  scan_alert <$> filter (fun a => alert_id a <> id) l.
Proof.
  induction l as [|a l IH]; [done |].
  rewrite fmap_cons, !filter_cons, IH. simpl.
  destruct (decide (alert_id a <> id)); by rewrite ?fmap_cons.
Qed.

Lemma insert_by_timestamp_fmap (f : alert_row -> alert_row) (a : alert_row)
    (l : list alert_row) :
  (forall x, alert_timestamp (f x) = alert_timestamp x) ->
  insert_by_timestamp (f a) (f <$> l) = f <$> insert_by_timestamp a l.
Proof.
  intros Hf. induction l as [|x l IH]; [done |].
  rewrite fmap_cons. simpl. rewrite !Hf.
  destruct (alert_timestamp x <? alert_timestamp a); [done |].
  by rewrite fmap_cons, IH.
Qed.

Lemma order_by_timestamp_desc_fmap (f : alert_row -> alert_row) (l : list alert_row) :
  (forall x, alert_timestamp (f x) = alert_timestamp x) ->
  order_by_timestamp_desc (f <$> l) = f <$> order_by_timestamp_desc l.
Proof.
  intros Hf. induction l as [|a l IH]; [done |].
  rewrite fmap_cons. unfold order_by_timestamp_desc in *. simpl.
  by rewrite IH, insert_by_timestamp_fmap.
Qed.

Lemma unread_after_mark (id : string) (l : list alert_row) :
  filter (fun a => alert_read a = false)
    ((fun a => if String.eqb (alert_id a) id then set_read a else a) <$> l) =
  filter (fun a => alert_id a <> id /\ alert_read a = false) l.
Proof.
  induction l as [|a l IH]; [done |].
  rewrite fmap_cons, !filter_cons, IH.
  destruct (String.eqb_spec (alert_id a) id) as [Heq|Hne]; simpl;
    repeat case_decide; try done; try tauto.
Qed.

(** After [MarkAlertRead] the unread alerts are those that were unread
    before, in the same order, less the alerts of that id; all alerts are
    still listed, under the same ids; and after [MarkAllAlertsRead] no
    alert is unread. *)
Theorem MarkAlertRead_ListAlerts :
  forall (id : string) (limit : Z) (db : DB),
    exists unread listed listed',
      ListAlerts 0 true db = inr unread /\
      ListAlerts 0 true (MarkAlertRead id db).1 =
        inr (filter (fun r => Alert_ID r <> id) unread) /\
      ListAlerts 0 false db = inr listed /\
      ListAlerts 0 false (MarkAlertRead id db).1 = inr listed' /\
      Alert_ID <$> listed' = Alert_ID <$> listed /\
      ListAlerts limit true (MarkAllAlertsRead db).1 = inr [].
Proof.
  intros id limit db. unfold ListAlerts, MarkAlertRead, MarkAllAlertsRead. simpl.
  do 3 eexists. split; [done |]. split; [| split; [done |]; split; [done |]; split].
  - f_equal. unfold apply_limit. simpl.
    rewrite filter_fmap_scan_alert, filter_order_by_timestamp_desc.
    by rewrite list_filter_filter, unread_after_mark.
  - unfold apply_limit. simpl.
    rewrite order_by_timestamp_desc_fmap by (intros x; by destruct (String.eqb _ _)).
    rewrite <- !list_fmap_compose. apply list_fmap_ext. intros i a _. simpl.
    by destruct (String.eqb _ _).
  - replace (filter _ _) with (@nil alert_row);
      [unfold apply_limit, order_by_timestamp_desc; simpl;
       destruct (0 <? limit); by rewrite ?take_nil |].
    symmetry. induction (alerts db) as [|a l IH]; [done |].
    rewrite fmap_cons, filter_cons, <- IH. by destruct (decide _).
Qed.

(** [SaveAlert] keeps the ids of the table distinct. A save that fails
    found the id in the table and wrote nothing; one that succeeds added the
    alert, which [ListAlerts] then returns as it was given. *)
Theorem SaveAlert_keeps_ids_distinct :
  forall (rec : AlertRecord) (db : DB),
    NoDup (alert_id <$> alerts db) ->
    let result := SaveAlert rec db in
    NoDup (alert_id <$> alerts result.1) /\
    match result.2 with
    | Some _ => result.1 = db /\ Alert_ID rec ∈ alert_id <$> alerts db
    | None => exists listed, ListAlerts 0 false result.1 = inr listed /\ rec ∈ listed
    end.
Proof.
  intros rec db Hnd. cbv zeta. unfold SaveAlert.
  destruct (existsb _ (alerts db)) eqn:Hex; simpl.
  - split; [done |]. split; [done |].
    apply existsb_exists in Hex as (a & Ha & Heq). apply String.eqb_eq in Heq.
    apply list_elem_of_fmap. exists a. split; [done |]. by apply list_elem_of_In.
  - split.
    + rewrite fmap_app. apply NoDup_app. split; [done |]. split; [| apply NoDup_singleton].
      intros x Hx Hx'. apply list_elem_of_singleton in Hx'. simpl in Hx'. subst x.
      apply list_elem_of_fmap in Hx as (a & Heq & Ha).
      assert (Htrue : existsb (fun a => String.eqb (alert_id a) (Alert_ID rec)) (alerts db)
                      = true).
      { apply existsb_exists. exists a. split; [by apply list_elem_of_In |].
        by apply String.eqb_eq. }
      congruence.
    + unfold ListAlerts. simpl. eexists. split; [done |].
      apply list_elem_of_fmap. eexists. split; [| unfold apply_limit; simpl;
        rewrite order_by_timestamp_desc_perm; apply elem_of_app; right;
        by apply list_elem_of_singleton].
      by destruct rec.
Qed.

(** *** [Cleanup] *)

Lemma filter_all {A : Type} (P : A -> Prop) `{!forall x, Decision (P x)} (l : list A) :
  Forall P l -> filter P l = l.
Proof.
  induction 1 as [|x l Hx Hl IH]; [done |].
  by rewrite filter_cons, decide_True, IH.
Qed.

Lemma filter_twice {A : Type} (P : A -> Prop) `{!forall x, Decision (P x)} (l : list A) :
  filter P (filter P l) = filter P l.
Proof.
  apply filter_all, Forall_forall. intros x Hx. by apply list_elem_of_filter in Hx as [? _].
Qed.


(** A second [Cleanup] at the same instant deletes nothing more. *)
Theorem Cleanup_idempotent :
  forall (now : Time) (maxAgeDays : Z) (db : DB),
    Cleanup now maxAgeDays (Cleanup now maxAgeDays db).1 = Cleanup now maxAgeDays db.
Proof.
  intros now maxAgeDays db. unfold Cleanup. cbv zeta. simpl. f_equal. f_equal.
  - rewrite map_filter_filter. apply map_filter_ext. intros k r _. simpl. tauto.
  - rewrite filter_all; [done |]. apply Forall_forall. intros c _.
    destruct (filter _ (sessions db) !! chunk_session_id c) as [r|] eqn:Hr; [| done].
    by apply map_lookup_filter_Some in Hr as [_ Hr].
  - apply filter_twice.
  - apply filter_twice.
Qed.

End StoreFacts.

(** ** The CLI provider on a concrete listing *)

Section CLIExamples.
Import agent opencode_cli.

Lemma cli_Discover_witness :
  let result := Discover (inr [cli_ses_A]) now_A
                  cli_first_discovery.1.1 cli_first_discovery.1.2 in
  p_agents result.1.1 !! "ses_A" = Some 0%nat /\
  (forall session, session ∈ [cli_ses_A] -> cs_ID session = "ses_A" ->
     (0 <? p_maxAge cli_first_discovery.1.1) &&
     (UnixMilli (cs_Updated session) <? now_A - p_maxAge cli_first_discovery.1.1) = false ->
     exists agents, result.2 = inr agents /\ 0%nat ∈ agents).
Proof.
  apply (cli_Discover_preserves_identity now_A [cli_ses_A]
           cli_first_discovery.1.1 cli_first_discovery.1.2 "ses_A" 0%nat).
  vm_compute. reflexivity.
Defined.

Lemma pollForChanges_witness :
  let first := pollForChanges (inr [cli_ses_A]) now_A
                 (NewProvider (5 * Second) 0) empty_heap in
  index_wf (p_agents first.1.1) first.1.2 /\
  pollForChanges (inr [cli_ses_A]) now_A first.1.1 first.1.2 = (first.1.1, first.1.2, []).
Proof.
  apply (pollForChanges_again_is_quiet [cli_ses_A] now_A
           (NewProvider (5 * Second) 0) empty_heap).
  - intros k l Hk. simpl in Hk. by rewrite lookup_empty in Hk.
  - apply NoDup_singleton.
Defined.

End CLIExamples.

(** ** The store on a concrete table *)

Section StoreExamples.
Import store.

Lemma SaveAlert_witness :
  let result := SaveAlert alert_A empty_db in
  NoDup (alert_id <$> alerts result.1) /\
  match result.2 with
  | Some _ => result.1 = empty_db /\ Alert_ID alert_A ∈ alert_id <$> alerts empty_db
  | None => exists listed, ListAlerts 0 false result.1 = inr listed /\ alert_A ∈ listed
  end.
Proof. apply (SaveAlert_keeps_ids_distinct alert_A empty_db). apply NoDup_nil_2. Defined.

End StoreExamples.

(** ** The queries on concrete worlds *)

Section ManagerQueriesExamples.
Import agent session.

Lemma handleEvent_witness :
  Get (handleEvent {| ev_Type := EventAgentTerminated; ev_AgentID := "agent-1";
                      ev_Agent := Some 1%nat; ev_Timestamp := 0 |} mock_manager)
      "agent-1" = None /\
  Get (handleEvent {| ev_Type := EventAgentUpdated; ev_AgentID := "agent-1";
                      ev_Agent := Some 2%nat; ev_Timestamp := 0 |} mock_manager)
      "agent-1" = Some 2%nat.
Proof.
  split.
  - apply (handleEvent_live_map
             {| ev_Type := EventAgentTerminated; ev_AgentID := "agent-1";
                ev_Agent := Some 1%nat; ev_Timestamp := 0 |} mock_manager).
    reflexivity.
  - apply (handleEvent_live_map
             {| ev_Type := EventAgentUpdated; ev_AgentID := "agent-1";
                ev_Agent := Some 2%nat; ev_Timestamp := 0 |} mock_manager);
      [discriminate | reflexivity].
Defined.

End ManagerQueriesExamples.
